(** * k8s-object-dumper: discovery, pagination and the directory sink

    A shallow embedding of [internal/pkg/discovery/discovery.go]
    ([DiscoverObjects], [groupVersionFromString]) and of the directory
    dumper ([dirDumper] with [Dump], [writeToFile], [file], [Close]).

    Go packages become modules of the same name.  Everything outside the
    repository (the API server, the operating system, the JSON encoder)
    is an interface: a type class whose methods are state transformers
    on an abstract world.  The embedded functions call these methods and
    append one event per call to a trace, so that statements such as
    "no list call is issued" are statements about the trace. *)

From Stdlib Require Import Ascii.
From stdpp Require Import gmap strings list fin_maps.

Set Warnings "-register-all".

(** ** Go strings *)

(** The newline byte of Go's ["\n"]. *)
Definition nl : string := String "010"%char "".

(** [strings.Split(s, sep)] for a one-byte separator: the substrings
    between the separators, in order; a string without separator is
    returned as the only element. *)
Fixpoint Split (s : string) (sep : ascii) : list string :=
  match s with
  | "" => [""]
  | String c s' =>
      if decide (c = sep) then "" :: Split s' sep
      else match Split s' sep with
           | [] => [String c ""]
           | p :: ps => String c p :: ps
           end
  end.

(** [strings.Join(elems, sep)]. *)
Fixpoint Join (elems : list string) (sep : string) : string :=
  match elems with
  | [] => ""
  | [e] => e
  | e :: rest => e +:+ sep +:+ Join rest sep
  end.

(** [slices.Contains]. *)
Definition Contains (l : list string) (x : string) : bool :=
  bool_decide (x ∈ l).

(** ** Go errors *)

(** An [error] value.  [Errorf] is [fmt.Errorf] with a format that ends
    in [%w]: the format string, the operands before the wrapped error,
    and the wrapped error.  [multiError] is the error that
    [multierr.Combine] builds from several. *)
Inductive error : Type :=
  | ErrExternal (msg : string)
  | Errorf (format : string) (args : list string) (cause : error)
  | multiError (errors : list error).

Module multierr.

(** [multierr.Combine]: nil for no error, the error itself for one,
    otherwise one error holding all of them, those of a combined
    error spliced in.  A Go [[]error] built by appending non-nil
    errors is a [list error]. *)
Definition flatten (e : error) : list error :=
  match e with
  | multiError es => es
  | _ => [e]
  end.

Definition Combine (errors : list error) : option error :=
  match errors with
  | [] => None
  | [e] => Some e
  | _ => Some (multiError (concat (flatten <$> errors)))
  end.

End multierr.

(** ** k8s.io/apimachinery/pkg/runtime/schema *)
Module schema.

Record GroupVersion := { Group : string; Version : string }.

Record GroupVersionResource :=
  { gvrGroup : string; gvrVersion : string; gvrResource : string }.

(** [GroupVersion.WithResource]. *)
Definition WithResource (gv : GroupVersion) (resource : string)
  : GroupVersionResource :=
  {| gvrGroup := Group gv; gvrVersion := Version gv;
     gvrResource := resource |}.

(** [GroupVersionResource.String], what [%s] prints. *)
Definition gvrString (gvr : GroupVersionResource) : string :=
  Join [gvrGroup gvr; "/"; gvrVersion gvr; ", Resource=";
        gvrResource gvr] "".

End schema.

(** ** k8s.io/apimachinery/pkg/apis/meta/v1 *)
Module metav1.

Record APIResource :=
  { Name : string; Kind : string; Verbs : list string }.

Record APIResourceList :=
  { GroupVersion : string; APIResources : list APIResource }.

Record ListOptions := { Limit : Z; Continue : string }.

End metav1.

(** ** k8s.io/apimachinery/pkg/apis/meta/v1/unstructured *)
Module unstructured.

(** An object is an opaque document to this program, read through
    [GetKind], [GetNamespace] and the JSON encoder only. *)
Class Object (U : Type) := {
  GetKind : U → string;
  GetNamespace : U → string;
  MarshalJSON : U → error + string;
}.

Record UnstructuredList (U : Type) :=
  { Items : list U; GetContinue : string }.
Arguments Items {U} _.
Arguments GetContinue {U} _.

End unstructured.

(** ** Results of a loop that may not end *)

(** The pagination loop of [DiscoverObjects] is a bare [for] that ends
    when the server says so.  The embedding counts its iterations down
    from a bound: [Returned a] when the code returns [a] within the
    bound, [OutOfFuel] when it is still running. *)
Inductive run (A : Type) : Type :=
  | Returned (a : A)
  | OutOfFuel.
Arguments Returned {A} a.
Arguments OutOfFuel {A}.

(** ** package discovery *)
Module discovery.
Import schema metav1 unstructured.

(** io.Writer, as far as this package tells writers apart. *)
Inductive Writer : Type :=
  | io_Discard
  | io_Stream (id : nat).

Record DiscoveryOptions :=
  { BatchSize : Z; LogWriter : option Writer }.

Definition GetBatchSize (opts : DiscoveryOptions) : Z :=
  if decide (BatchSize opts = 0%Z) then 500%Z else BatchSize opts.

Definition GetLogWriter (opts : DiscoveryOptions) : Writer :=
  match LogWriter opts with
  | None => io_Discard
  | Some w => w
  end.

Definition groupVersionFromString (s : string) : schema.GroupVersion :=
  let parts := Split s "/"%char in
  if decide (length parts = 1) then
    {| Group := ""; Version := nth 0 parts "" |}
  else
    {| Group := nth 0 parts ""; Version := nth 1 parts "" |}.

(** The cluster as this package reaches it: the two client
    constructors, the discovery query and the dynamic client's list
    call.  [W] is the state of everything outside the program (the
    server, and whatever the callback writes to); [U] is the type of
    the listed objects.  The [ctx] argument of [DiscoverObjects] is
    handed to every list call unchanged; a cancelled context shows as a
    list call that returns an error. *)
Class Cluster (W U : Type) := {
  Config : Type;
  DiscoveryClient : Type;
  DynamicClient : Type;
  NewDiscoveryClientForConfig : Config → error + DiscoveryClient;
  NewForConfig : Config → error + DynamicClient;
  ServerPreferredResources :
    DiscoveryClient → W → (error + list APIResourceList) * W;
  List : DynamicClient → GroupVersionResource → ListOptions → W →
         (error + UnstructuredList U) * W;
}.

(** What a run does to the outside, one event per call, in order. *)
Inductive Event (U : Type) : Type :=
  | EvLog (w : Writer) (text : string)
  | EvServerPreferredResources (r : error + list APIResourceList)
  | EvList (res : GroupVersionResource) (opts : ListOptions)
           (r : error + UnstructuredList U)
  | EvCallback (l : UnstructuredList U) (r : option error).
Arguments EvLog {U} w text.
Arguments EvServerPreferredResources {U} r.
Arguments EvList {U} res opts r.
Arguments EvCallback {U} l r.

(** Line 71: the resource a list entry stands for. *)
Definition resourceOf (re : APIResourceList) (r : APIResource)
  : GroupVersionResource :=
  WithResource (groupVersionFromString (GroupVersion re)) (Name r).

(** Line 73: the text of the skip notice. *)
Definition skipNotice (res : GroupVersionResource) : string :=
  "skipping " +:+ gvrString res +:+ ": no list verb" +:+ nl.

(** Lines 84 and 88: the errors made of a failed list call and of a
    failed callback. *)
Definition listError (res : GroupVersionResource) (err : error) : error :=
  Errorf "failed to list %s: %w" [gvrString res] err.

Definition dumpError (res : GroupVersionResource) (err : error) : error :=
  Errorf "failed to dump %s: %w" [gvrString res] err.

(** The callback type: a function from a pointer to an
    [UnstructuredList] to [error]; it acts on the world and reads the
    page it is given.  The sinks of this repository leave the page as
    it is; a callback that wrote to the page is outside the model. *)
Definition Callback (W U : Type) : Type :=
  UnstructuredList U → W → option error * W.

Section driver.
Context {W U : Type} `{!Cluster W U}.

(** The state threaded through the driver: the world and the trace. *)
Definition State : Type := W * list (Event U).

(** [fmt.Fprintln]: the operands separated by spaces, then a newline.
    The write's own result is dropped by the code. *)
Definition Fprintln (w : Writer) (operands : list string) (s : State)
  : State :=
  (s.1, s.2 ++ [EvLog w (Join operands " " +:+ nl)]).

(** [fmt.Fprintf], given the formatted text. *)
Definition Fprintf (w : Writer) (text : string) (s : State) : State :=
  (s.1, s.2 ++ [EvLog w text]).

(** Lines 60 to 66: the listing of what was discovered. *)
Fixpoint logKinds (logWriter : Writer) (rs : list APIResource)
  (s : State) : State :=
  match rs with
  | [] => s
  | r :: rs' => logKinds logWriter rs' (Fprintln logWriter ["  "; Kind r] s)
  end.

Fixpoint logDiscovered (logWriter : Writer) (sprl : list APIResourceList)
  (s : State) : State :=
  match sprl with
  | [] => s
  | re :: sprl' =>
      logDiscovered logWriter sprl'
        (logKinds logWriter (APIResources re)
           (Fprintln logWriter [GroupVersion re] s))
  end.

(** Lines 77 to 94: the loop over the pages of one resource type.
    [errors] is the slice of line 68, passed in and handed back. *)
Fixpoint paginate (fuel : nat) (dynClient : DynamicClient)
  (cb : Callback W U) (batchSize : Z) (res : GroupVersionResource)
  (continueKey : string) (errors : list error) (s : State)
  : run (list error) * State :=
  match fuel with
  | 0 => (OutOfFuel, s)
  | S fuel' =>
      let opts := {| Limit := batchSize; Continue := continueKey |} in
      let '(r, w1) := List dynClient res opts s.1 in
      let s1 : State := (w1, s.2 ++ [EvList res opts r]) in
      match r with
      | inl err =>
          (Returned (errors ++ [listError res err]), s1)
      | inr l =>
          let '(rc, w2) := cb l s1.1 in
          let s2 : State := (w2, s1.2 ++ [EvCallback l rc]) in
          let errors' :=
            match rc with
            | Some err => errors ++ [dumpError res err]
            | None => errors
            end in
          if decide (GetContinue l = "") then (Returned errors', s2)
          else paginate fuel' dynClient cb batchSize res (GetContinue l)
                 errors' s2
      end
  end.

(** Lines 70 to 94: the body of the inner [range] loop. *)
Definition discoverResource (fuel : nat) (dynClient : DynamicClient)
  (cb : Callback W U) (batchSize : Z) (logWriter : Writer)
  (re : APIResourceList) (r : APIResource) (errors : list error)
  (s : State) : run (list error) * State :=
  let res := resourceOf re r in
  if negb (Contains (Verbs r) "list") then
    (Returned errors, Fprintf logWriter (skipNotice res) s)
  else paginate fuel dynClient cb batchSize res "" errors s.

(** Line 70: [for _, r := range re.APIResources]. *)
Fixpoint rangeAPIResources (fuel : nat) (dynClient : DynamicClient)
  (cb : Callback W U) (batchSize : Z) (logWriter : Writer)
  (re : APIResourceList) (rs : list APIResource) (errors : list error)
  (s : State) : run (list error) * State :=
  match rs with
  | [] => (Returned errors, s)
  | r :: rs' =>
      match discoverResource fuel dynClient cb batchSize logWriter re r
              errors s with
      | (Returned errors', s') =>
          rangeAPIResources fuel dynClient cb batchSize logWriter re rs'
            errors' s'
      | (OutOfFuel, s') => (OutOfFuel, s')
      end
  end.

(** Line 69: [for _, re := range sprl]. *)
Fixpoint rangeLists (fuel : nat) (dynClient : DynamicClient)
  (cb : Callback W U) (batchSize : Z) (logWriter : Writer)
  (sprl : list APIResourceList) (errors : list error) (s : State)
  : run (list error) * State :=
  match sprl with
  | [] => (Returned errors, s)
  | re :: sprl' =>
      match rangeAPIResources fuel dynClient cb batchSize logWriter re
              (APIResources re) errors s with
      | (Returned errors', s') =>
          rangeLists fuel dynClient cb batchSize logWriter sprl' errors' s'
      | (OutOfFuel, s') => (OutOfFuel, s')
      end
  end.

(** [DiscoverObjects].  [fuel] bounds the iterations of each pagination
    loop. *)
Definition DiscoverObjects (fuel : nat) (conf : Config)
  (cb : Callback W U) (opts : DiscoveryOptions) (s : State)
  : run (option error) * State :=
  let batchSize := GetBatchSize opts in
  let logWriter := GetLogWriter opts in
  match NewDiscoveryClientForConfig conf with
  | inl err =>
      (Returned (Some (Errorf "failed to create discovery client: %w" [] err)),
       s)
  | inr dc =>
      match NewForConfig conf with
      | inl err =>
          (Returned
             (Some (Errorf "failed to create dynamic client: %w" [] err)),
           s)
      | inr dynClient =>
          let '(r, w1) := ServerPreferredResources dc s.1 in
          let s1 : State := (w1, s.2 ++ [EvServerPreferredResources r]) in
          match r with
          | inl err =>
              (Returned
                 (Some
                    (Errorf "failed to get server preferred resources: %w"
                       [] err)),
               s1)
          | inr sprl =>
              let s2 := Fprintln logWriter ["Discovered resources:"] s1 in
              let s3 := logDiscovered logWriter sprl s2 in
              match rangeLists fuel dynClient cb batchSize logWriter sprl
                      [] s3 with
              | (Returned errors, s4) =>
                  (Returned (multierr.Combine errors), s4)
              | (OutOfFuel, s4) => (OutOfFuel, s4)
              end
          end
      end
  end.

End driver.

End discovery.

(** ** package dumper: the directory sink *)
Module dumper.
Import unstructured.

(** An [os.File]: the descriptor the system returned and the name the
    file was opened with. *)
Record File := { fd : nat; name : string }.

(** The operating system as the sink reaches it.  [O] is its state.
    [open_create] is the system call under [os.Create]; the other
    methods are [os.MkdirAll] with mode 0755, the [Write] method of a
    file with its byte count dropped, its [Close] method, and
    [filepath.Dir]. *)
Class OS (O : Type) := {
  MkdirAll : string → O → option error * O;
  open_create : string → O → (error + nat) * O;
  write : File → string → O → option error * O;
  close : File → O → option error * O;
  filepath_Dir : string → string;
}.

(** One event per call into the operating system, with its result. *)
Inductive Event : Type :=
  | EvMkdirAll (path : string) (r : option error)
  | EvCreate (path : string) (r : error + File)
  | EvWrite (f : File) (b : string) (r : option error)
  | EvClose (f : File) (r : option error).

Record dirDumper := {
  dir : string;
  openFiles : gmap string File;
  sharedBuf : string;
}.

Definition set_openFiles (m : gmap string File) (d : dirDumper)
  : dirDumper :=
  {| dir := dir d; openFiles := m; sharedBuf := sharedBuf d |}.

Definition set_sharedBuf (buf : string) (d : dirDumper) : dirDumper :=
  {| dir := dir d; openFiles := openFiles d; sharedBuf := buf |}.

(** The three destination paths, as the [fmt.Sprintf] calls of [Dump]
    build them. *)
Definition objectsPath (dir kind : string) : string :=
  dir +:+ "/objects-" +:+ kind +:+ ".json".

Definition allPath (dir namespace : string) : string :=
  dir +:+ "/split/" +:+ namespace +:+ "/__all__.json".

Definition kindPath (dir namespace kind : string) : string :=
  dir +:+ "/split/" +:+ namespace +:+ "/" +:+ kind +:+ ".json".

Section sink.
Context {O U : Type} `{!OS O} `{!Object U}.

(** The system's state and the trace of the calls made so far. *)
Definition Sys : Type := O * list Event.

(** The sink together with the system it writes to. *)
Definition State : Type := dirDumper * Sys.

Definition os_MkdirAll (path : string) (y : Sys) : option error * Sys :=
  let '(r, o') := MkdirAll path y.1 in
  (r, (o', y.2 ++ [EvMkdirAll path r])).

Definition os_Create (path : string) (y : Sys) : (error + File) * Sys :=
  let '(r, o') := open_create path y.1 in
  let r' := match r with
            | inl err => inl err
            | inr n => inr {| fd := n; name := path |}
            end in
  (r', (o', y.2 ++ [EvCreate path r'])).

Definition File_Write (f : File) (b : string) (y : Sys)
  : option error * Sys :=
  let '(r, o') := write f b y.1 in
  (r, (o', y.2 ++ [EvWrite f b r])).

Definition File_Close (f : File) (y : Sys) : option error * Sys :=
  let '(r, o') := close f y.1 in
  (r, (o', y.2 ++ [EvClose f r])).

Definition newDirDumper (dir : string) (y : Sys)
  : (error + dirDumper) * Sys :=
  let '(r, y1) := os_MkdirAll dir y in
  match r with
  | Some err => (inl (Errorf "failed to create directory %q: %w" [dir] err), y1)
  | None => (inr {| dir := dir; openFiles := ∅; sharedBuf := "" |}, y1)
  end.

Definition file (path : string) (st : State) : (error + File) * State :=
  let '(d, y) := st in
  match openFiles d !! path with
  | Some f => (inr f, (d, y))
  | None =>
      let dir := filepath_Dir path in
      let '(r, y1) := os_MkdirAll dir y in
      match r with
      | Some err =>
          (inl (Errorf "failed to create directory %q: %w" [dir] err),
           (d, y1))
      | None =>
          let '(rf, y2) := os_Create path y1 in
          match rf with
          | inl err =>
              (inl (Errorf "failed to create file %q: %w" [path] err),
               (d, y2))
          | inr f => (inr f, (set_openFiles (<[path := f]> (openFiles d)) d, y2))
          end
      end
  end.

Definition writeToFile (path : string) (b : string) (st : State)
  : option error * State :=
  let '(rf, (d, y)) := file path st in
  match rf with
  | inl err => (Some (Errorf "failed to open file for copying: %w" [] err), (d, y))
  | inr f =>
      let '(r, y1) := File_Write f b y in
      match r with
      | Some err => (Some (Errorf "failed to copy to file: %w" [] err), (d, y1))
      | None => (None, (d, y1))
      end
  end.

(** [json.NewEncoder(buf).Encode(o)]: the encoding and a newline are
    appended to the buffer, or nothing is on an error. *)
Definition Encode (buf : string) (o : U) : option error * string :=
  match MarshalJSON o with
  | inl err => (Some err, buf)
  | inr b => (None, buf +:+ b +:+ nl)
  end.

(** Line 390: the error made of a failed encoding. *)
Definition encodeError (err : error) : error :=
  Errorf "failed to encode object: %w" [] err.

(** [errs = append(errs, err)] under [if err != nil]. *)
Definition appendErr (errs : list error) (r : option error) : list error :=
  match r with
  | Some err => errs ++ [err]
  | None => errs
  end.

(** Lines 388 to 408: the body of the loop of [Dump]. *)
Definition dumpObject (o : U) (errs : list error) (st : State)
  : list error * State :=
  let '(d, y) := st in
  let '(re, buf) := Encode "" o in
  let d := set_sharedBuf buf d in
  match re with
  | Some err =>
      (errs ++ [encodeError err], (d, y))
  | None =>
      let p := buf in
      let '(r1, st1) := writeToFile (objectsPath (dir d) (GetKind o)) p (d, y) in
      let errs := appendErr errs r1 in
      if decide (GetNamespace o = "") then (errs, st1)
      else
        let '(r2, st2) :=
          writeToFile (allPath (dir d) (GetNamespace o)) p st1 in
        let errs := appendErr errs r2 in
        let '(r3, st3) :=
          writeToFile (kindPath (dir d) (GetNamespace o) (GetKind o)) p st2 in
        let errs := appendErr errs r3 in
        (errs, st3)
  end.

(** Line 387: [for _, o := range l.Items]. *)
Fixpoint rangeItems (items : list U) (errs : list error) (st : State)
  : list error * State :=
  match items with
  | [] => (errs, st)
  | o :: items' =>
      let '(errs', st') := dumpObject o errs st in
      rangeItems items' errs' st'
  end.

Definition Dump (l : UnstructuredList U) (st : State)
  : option error * State :=
  let '(errs, st') := rangeItems (Items l) [] st in
  (multierr.Combine errs, st').

(** The loop of [Close] over the files in the order [fs]. *)
Fixpoint closeFiles (fs : list File) (errs : list error) (y : Sys)
  : list error * Sys :=
  match fs with
  | [] => (errs, y)
  | f :: fs' =>
      let '(r, y1) := File_Close f y in
      closeFiles fs' (appendErr errs r) y1
  end.

(** [Close].  Go's [range] over a map visits every entry once, in an
    order it does not fix; [order] is the order of this call. *)
Definition Close (order : list (string * File)) (st : State)
  : option error * State :=
  let '(d, y) := st in
  let '(errs, y1) := closeFiles (order.*2) [] y in
  (multierr.Combine errs, (d, y1)).

End sink.

End dumper.


(** ** package main, before the driver became a package

    The loop of [dumpObjects], lines 274 to 331 of the source: the
    same walk over the discovery result, with errors written to the log
    and not returned. *)
Module legacy.
Import schema metav1 unstructured discovery.

Section program.
Context {W U : Type} `{!Cluster W U}.

(** [ctrl.GetConfig], and the text of an error, which is what [%v]
    prints. *)
Variable GetConfig : W → (error + Config) * W.
Variable errorText : error → string.

(** Lines 312 and 316: the two log lines of the loop. *)
Definition listFailure (res : GroupVersionResource) (err : error) : string :=
  "failed to list " +:+ gvrString res +:+ ": " +:+ errorText err +:+ nl.

Definition dumpFailure (res : GroupVersionResource) (err : error) : string :=
  "failed to dump " +:+ gvrString res +:+ ": " +:+ errorText err +:+ nl.

(** Lines 305 to 322: the loop over the pages of one resource type.
    After a list call that fails, [continue] starts the next iteration
    with the cursor as it is. *)
Fixpoint paginate (fuel : nat) (dynClient : DynamicClient)
  (dumper : Callback W U) (batchSize : Z) (logWriter : Writer)
  (res : GroupVersionResource) (continueKey : string) (s : State)
  : run unit * State :=
  match fuel with
  | 0 => (OutOfFuel, s)
  | S fuel' =>
      let opts := {| Limit := batchSize; Continue := continueKey |} in
      let '(r, w1) := List dynClient res opts s.1 in
      let s1 : State := (w1, s.2 ++ [EvList res opts r]) in
      match r with
      | inl err =>
          paginate fuel' dynClient dumper batchSize logWriter res continueKey
            (Fprintf logWriter (listFailure res err) s1)
      | inr l =>
          let '(rc, w2) := dumper l s1.1 in
          let s2 : State := (w2, s1.2 ++ [EvCallback l rc]) in
          let s3 :=
            match rc with
            | Some err => Fprintf logWriter (dumpFailure res err) s2
            | None => s2
            end in
          if decide (GetContinue l = "") then (Returned (), s3)
          else paginate fuel' dynClient dumper batchSize logWriter res
                 (GetContinue l) s3
      end
  end.

(** Lines 297 to 322: the body of the inner [range] loop. *)
Definition discoverResource (fuel : nat) (dynClient : DynamicClient)
  (dumper : Callback W U) (batchSize : Z) (logWriter : Writer)
  (re : APIResourceList) (r : APIResource) (s : State)
  : run unit * State :=
  let res := resourceOf re r in
  if negb (Contains (Verbs r) "list") then
    (Returned (), Fprintf logWriter (skipNotice res) s)
  else paginate fuel dynClient dumper batchSize logWriter res "" s.

(** Line 296: [for _, r := range re.APIResources]. *)
Fixpoint rangeAPIResources (fuel : nat) (dynClient : DynamicClient)
  (dumper : Callback W U) (batchSize : Z) (logWriter : Writer)
  (re : APIResourceList) (rs : list APIResource) (s : State)
  : run unit * State :=
  match rs with
  | [] => (Returned (), s)
  | r :: rs' =>
      match discoverResource fuel dynClient dumper batchSize logWriter re r
              s with
      | (Returned _, s') =>
          rangeAPIResources fuel dynClient dumper batchSize logWriter re rs' s'
      | (OutOfFuel, s') => (OutOfFuel, s')
      end
  end.

(** Line 295: [for _, re := range res]. *)
Fixpoint rangeLists (fuel : nat) (dynClient : DynamicClient)
  (dumper : Callback W U) (batchSize : Z) (logWriter : Writer)
  (sprl : list APIResourceList) (s : State) : run unit * State :=
  match sprl with
  | [] => (Returned (), s)
  | re :: sprl' =>
      match rangeAPIResources fuel dynClient dumper batchSize logWriter re
              (APIResources re) s with
      | (Returned _, s') =>
          rangeLists fuel dynClient dumper batchSize logWriter sprl' s'
      | (OutOfFuel, s') => (OutOfFuel, s')
      end
  end.

(** [dumpObjects].  [fuel] bounds the iterations of each pagination
    loop.  The batch size is used as it is given. *)
Definition dumpObjects (fuel : nat) (dumper : Callback W U) (batchSize : Z)
  (logWriter : Writer) (s : State) : run (option error) * State :=
  let '(rconf, w0) := GetConfig s.1 in
  let s0 : State := (w0, s.2) in
  match rconf with
  | inl err =>
      (Returned (Some (Errorf "failed to get Kubernetes config: %w" [] err)),
       s0)
  | inr conf =>
      match NewDiscoveryClientForConfig conf with
      | inl err =>
          (Returned
             (Some (Errorf "failed to create discovery client: %w" [] err)),
           s0)
      | inr dc =>
          match NewForConfig conf with
          | inl err =>
              (Returned
                 (Some (Errorf "failed to create dynamic client: %w" [] err)),
               s0)
          | inr dynClient =>
              let '(r, w1) := ServerPreferredResources dc s0.1 in
              let s1 : State :=
                (w1, s0.2 ++ [EvServerPreferredResources r]) in
              match r with
              | inl err =>
                  (Returned
                     (Some
                        (Errorf
                           "failed to get server preferred resources: %w"
                           [] err)),
                   s1)
              | inr sprl =>
                  let s2 := Fprintln logWriter ["Discovered resources:"] s1 in
                  let s3 := logDiscovered logWriter sprl s2 in
                  match rangeLists fuel dynClient dumper batchSize logWriter
                          sprl s3 with
                  | (Returned _, s4) => (Returned None, s4)
                  | (OutOfFuel, s4) => (OutOfFuel, s4)
                  end
              end
          end
      end
  end.

End program.

End legacy.

(** ** package main

    The program: lines 123 to 159 of the source. *)
Module cmd.
Import schema metav1 unstructured discovery.

Section world.
Context {K U : Type} `{C : !Cluster K U}.

(** The world of the program: the cluster, and beside it a part [L]
    that the calls of the cluster do not reach, the machine that the
    program runs on and the sink in its memory. *)
Definition beside (L : Type) : Cluster (K * L) U :=
  {| Config := @Config K U C;
     DiscoveryClient := @DiscoveryClient K U C;
     DynamicClient := @DynamicClient K U C;
     NewDiscoveryClientForConfig := @NewDiscoveryClientForConfig K U C;
     NewForConfig := @NewForConfig K U C;
     ServerPreferredResources := λ dc w,
       let '(r, k) := @ServerPreferredResources K U C dc w.1 in
       (r, (k, w.2));
     List := λ dynClient res opts w,
       let '(r, k) := @List K U C dynClient res opts w.1 in
       (r, (k, w.2)) |}.

(** A sink as the callback of the driver: it acts on its own part of
    the world, as the method value [d.Dump] does. *)
Definition aside {L : Type} (df : Callback L U) : Callback (K * L) U :=
  λ l w, let '(r, x) := df l w.2 in (r, (w.1, x)).

End world.

Definition os_Stdout : Writer := io_Stream 1.
Definition os_Stderr : Writer := io_Stream 2.

Section program.
Context {K O U : Type} `{C : !Cluster K U} `{!dumper.OS O} `{!Object U}.

(** What the program takes from outside the repository: the two
    results of [ctrl.GetConfig], the order in which [range] visits a
    map, and the texts that [%v] and [%+v] print for an error.  When
    [ctrl.GetConfig] returns an error its configuration is nil, and
    the first component is not looked at. *)
Variable GetConfig : @Config K U C * option error.

(** Modelled from the spec: the package [internal/pkg/dumper], which
    [main] imports, is not among the sources.  Its [DumpToWriter] is
    the pass-through sink of the spec, which serializes the whole page
    as one encoded record; it is taken as given. *)
Variable DumpToWriter : Writer → Callback (@dumper.Sys O) U.

Variable iteration :
  gmap string dumper.File → list (string * dumper.File).
Variable errorText : error → string.
Variable errorDetail : error → string.

(** Modelled from the spec: the package [internal/pkg/dumper], which
    [main] imports, is not among the sources.  Its [NewDirDumper] makes
    the fan-out sink of the spec, with an empty cache of destination
    handles; it is taken to be [newDirDumper] of the older file of the
    source, lines 352 to 361. *)
Definition NewDirDumper (dir : string) (y : @dumper.Sys O)
  : (error + dumper.dirDumper) * @dumper.Sys O :=
  dumper.newDirDumper dir y.

(** Modelled from the spec: the method [Dump] of the sink of the
    missing package [internal/pkg/dumper], which serializes each
    object of a page and routes it to its destinations, creating and
    caching their handles; it is taken to be [Dump] of the older file,
    lines 384 to 411. *)
Definition Dump (l : UnstructuredList U) (st : @dumper.State O)
  : option error * @dumper.State O :=
  dumper.Dump l st.

(** Modelled from the spec: the method [Close] of the sink of the
    missing package [internal/pkg/dumper], which releases every cached
    handle once; it is taken to be [Close] of the older file, lines 365
    to 373, which visits the cache in the order of [range]. *)
Definition Close (st : @dumper.State O) : option error * @dumper.State O :=
  dumper.Close (iteration (dumper.openFiles st.1)) st.

(** What [main] leaves behind: the cluster, the machine, and what it
    and the driver have written to the log and asked of the cluster. *)
Definition Outcome : Type := K * @dumper.Sys O * list (Event U).

(** Lines 145 to 158, for the sink [df] chosen before.  [os.Exit]
    ends the program at once, with status 1; a deferred call runs when
    [main] returns, and the status is 0 then.  [deferred] is that call
    and [machine] the machine of the sink's part of the world.

    When [ctrl.GetConfig] fails, line 147 writes the failure to the
    log and [main] goes on, with the nil configuration:
    [DiscoverObjects] hands it to [NewDiscoveryClientForConfig] at
    line 46, which reads through the pointer, and the program panics
    before anything is asked of the cluster.  A panic runs the deferred
    calls and ends the program with status 2.  What the runtime prints
    of the panic is not part of the log here. *)
Definition discover {L : Type} (fuel : nat) (batchSize : Z)
  (df : Callback L U) (deferred : L → L) (machine : L → @dumper.Sys O)
  (k : K) (x : L) : run nat * Outcome :=
  let '(conf, rerr) := GetConfig in
  match rerr with
  | Some err =>
      (Returned 2,
       (k, machine (deferred x),
        [EvLog os_Stderr
           ("failed to get Kubernetes config: " +:+ errorText err)]))
  | None =>
      match @DiscoverObjects (K * L) U (beside L) fuel conf (aside df)
              {| BatchSize := batchSize; LogWriter := Some os_Stderr |}
              ((k, x), []) with
      | (Returned (Some err), (w, tr)) =>
          (Returned 1,
           (w.1, machine w.2,
            tr ++ [EvLog os_Stderr
                     ("failed to dump some or all objects: "
                      +:+ errorDetail err +:+ nl)]))
      | (Returned None, (w, tr)) =>
          (Returned 0, (w.1, machine (deferred w.2), tr))
      | (OutOfFuel, (w, tr)) => (OutOfFuel, (w.1, machine w.2, tr))
      end
  end.

(** [main], lines 123 to 159, for the values [dir] and [batchSize] of
    its two flags. *)
Definition main (fuel : nat) (dir : string) (batchSize : Z)
  (k : K) (y : @dumper.Sys O) : run nat * Outcome :=
  if decide (dir = "") then
    discover fuel batchSize (DumpToWriter os_Stdout) (λ y', y') (λ y', y')
      k y
  else
    let '(r, y1) := dumper.os_MkdirAll dir y in
    match r with
    | Some err =>
        (Returned 1,
         (k, y1,
          [EvLog os_Stderr
             ("failed to create directory " +:+ dir +:+ ": "
              +:+ errorText err +:+ nl)]))
    | None =>
        let '(rd, y2) := NewDirDumper dir y1 in
        match rd with
        | inl err =>
            (Returned 1,
             (k, y2,
              [EvLog os_Stderr
                 ("failed to create directory dumper: "
                  +:+ errorText err +:+ nl)]))
        | inr d => discover fuel batchSize Dump (λ st, (Close st).2) snd k (d, y2)
        end
    end.

End program.

End cmd.
(** ** A paginating server

    The list contract of the API server that the pagination loop is
    written against: a call with limit [B >= 1] and cursor [c] answers
    with the next [B] objects of the collection after the position [c]
    stands for, and with a cursor for the rest, empty when nothing is
    left.  A limit below 1 asks for everything.  The cursor of
    position [n] is a token of [n] bytes, so the empty cursor is the
    start. *)
Module apiserver.
Import schema metav1 unstructured discovery.

Fixpoint token (n : nat) : string :=
  match n with
  | 0 => ""
  | S n' => String "c"%char (token n')
  end.

Definition position (cursor : string) : nat := String.length cursor.

Definition servePage {U : Type} (coll : list U) (limit : Z)
  (cursor : string) : UnstructuredList U :=
  let k := position cursor in
  if decide (limit < 1)%Z then
    {| Items := drop k coll; GetContinue := "" |}
  else
    let b := Z.to_nat limit in
    {| Items := take b (drop k coll);
       GetContinue := if decide (k + b < length coll) then token (k + b)
                      else "" |}.

(** A cluster that serves [sprl] as its preferred resources and the
    collection [backing res] for the resource [res]; an error in place
    of either is returned as it is.  It keeps no state of its own. *)
Definition pagedCluster (W U : Type)
  (sprl : error + list APIResourceList)
  (backing : GroupVersionResource → error + list U) : Cluster W U :=
  {| Config := unit;
     DiscoveryClient := unit;
     DynamicClient := unit;
     NewDiscoveryClientForConfig := λ _, inr ();
     NewForConfig := λ _, inr ();
     ServerPreferredResources := λ _ w, (sprl, w);
     List := λ _ res opts w,
       (match backing res with
        | inl err => inl err
        | inr coll => inr (servePage coll (Limit opts) (Continue opts))
        end, w) |}.

(** A callback that keeps the pages it is given and fails on those
    that [bad] selects. *)
Definition collect {U : Type} (bad : UnstructuredList U → bool)
  : Callback (list (UnstructuredList U)) U :=
  λ l w, (if bad l then Some (ErrExternal "sink failed") else None,
          w ++ [l]).

End apiserver.

(** ** A file system in memory

    An instance of the operating system interface to run the sink on:
    files are strings by name, descriptors are counted up, and the
    calls that [failing] selects fail without effect. *)
Module memfs.
Import unstructured dumper.

Inductive Op : Type :=
  | OpMkdirAll (path : string)
  | OpCreate (path : string)
  | OpWrite (path : string)
  | OpClose (path : string).

Record Disk := { files : gmap string string; next_fd : nat }.

Definition empty : Disk := {| files := ∅; next_fd := 3 |}.

(** The directory part of a path: what precedes its last slash. *)
Definition parent (path : string) : string :=
  match reverse (Split path "/"%char) with
  | [] | [_] => "."
  | _ :: rest => Join (reverse rest) "/"
  end.

Definition memOS (failing : Op → bool) : OS Disk :=
  {| MkdirAll := λ path o,
       if failing (OpMkdirAll path)
       then (Some (ErrExternal "mkdir: permission denied"), o)
       else (None, o);
     open_create := λ path o,
       if failing (OpCreate path)
       then (inl (ErrExternal "open: permission denied"), o)
       else (inr (next_fd o),
             {| files := <[path := ""]> (files o);
                next_fd := S (next_fd o) |});
     write := λ f b o,
       if failing (OpWrite (name f))
       then (Some (ErrExternal "write: no space left on device"), o)
       else (None,
             {| files := <[name f := default "" (files o !! name f) +:+ b]>
                           (files o);
                next_fd := next_fd o |});
     close := λ f o,
       if failing (OpClose (name f))
       then (Some (ErrExternal "close: input/output error"), o)
       else (None, o);
     filepath_Dir := parent |}.

(** Objects to dump: a kind, a namespace, a name, and whether the
    encoder accepts the object. *)
Record Obj := {
  kind : string;
  namespace : string;
  objName : string;
  encodable : bool;
}.

#[global] Instance Obj_Object : Object Obj :=
  {| GetKind := kind;
     GetNamespace := namespace;
     MarshalJSON := λ o,
       if encodable o
       then inr (kind o +:+ " " +:+ namespace o +:+ " " +:+ objName o)
       else inl (ErrExternal "json: unsupported value") |}.

Definition never : Op → bool := λ _, false.

End memfs.

(** * Vocabulary of the statements *)

(** ** Strings *)

(** [s] holds no byte [sep]: it is one segment for [Split]. *)
Fixpoint free_of (sep : ascii) (s : string) : bool :=
  match s with
  | "" => true
  | String c s' => negb (bool_decide (c = sep)) && free_of sep s'
  end.


(** ** Traces of the pagination driver *)
Module discovery_spec.
Import schema metav1 unstructured discovery.

Section trace.
Context {U : Type}.

(** The list calls of a trace, the pages they returned, and the pages
    the callback was given, each in call order. *)
Definition listCalls (evs : list (Event U))
  : list (GroupVersionResource * ListOptions) :=
  omap (λ e, match e with
             | EvList res opts _ => Some (res, opts)
             | _ => None
             end) evs.

Definition listedPages (evs : list (Event U)) : list (UnstructuredList U) :=
  omap (λ e, match e with
             | EvList _ _ (inr l) => Some l
             | _ => None
             end) evs.

Definition deliveredPages (evs : list (Event U))
  : list (UnstructuredList U) :=
  omap (λ e, match e with
             | EvCallback l _ => Some l
             | _ => None
             end) evs.

(** A call that returned an error. *)
Definition failed (e : Event U) : bool :=
  match e with
  | EvList _ _ (inl _) | EvCallback _ (Some _) => true
  | _ => false
  end.

(** [accumulated evs errs]: the trace [evs] is made of log lines, the
    discovery query, list calls that failed, and list calls that
    succeeded, each of these directly followed by the callback on the
    page it returned; [errs] holds, in the order of the calls, one
    error for each failed list call and one for each failed callback,
    and nothing else. *)
Inductive accumulated : list (Event U) → list error → Prop :=
  | acc_nil : accumulated [] []
  | acc_log w text evs errs :
      accumulated evs errs → accumulated (EvLog w text :: evs) errs
  | acc_discovery r evs errs :
      accumulated evs errs →
      accumulated (EvServerPreferredResources r :: evs) errs
  | acc_list_failed res opts err evs errs :
      accumulated evs errs →
      accumulated (EvList res opts (inl err) :: evs)
        (listError res err :: errs)
  | acc_page res opts l evs errs :
      accumulated evs errs →
      accumulated (EvList res opts (inr l) :: EvCallback l None :: evs) errs
  | acc_page_failed res opts l err evs errs :
      accumulated evs errs →
      accumulated (EvList res opts (inr l) :: EvCallback l (Some err) :: evs)
        (dumpError res err :: errs).

End trace.

(** A list entry that offers the verb "list". *)
Definition listable (r : APIResource) : Prop := "list" ∈ Verbs r.

(** The resource types of a discovery result, in the order of the two
    [range] loops: each list paired with each of its entries. *)
Definition entries (sprl : list APIResourceList)
  : list (APIResourceList * APIResource) :=
  sprl ≫= λ re, pair re <$> APIResources re.

(** The trace [evs] shows that the type [x] was attempted: its first
    list call, with the empty cursor, when it is listable, and its skip
    notice when it is not. *)
Definition attempted {U : Type} (batchSize : Z) (logWriter : Writer)
  (evs : list (Event U)) (x : APIResourceList * APIResource) : Prop :=
  if decide (listable x.2) then
    ∃ r, EvList (resourceOf x.1 x.2)
           {| Limit := batchSize; Continue := "" |} r ∈ evs
  else EvLog logWriter (skipNotice (resourceOf x.1 x.2)) ∈ evs.

(** The event [e] is one that the types [xs] account for: a list call
    is for a listable type among them and carries the batch size, and
    a log line is the skip notice of a type among them that is not
    listable. *)
Definition permitted {U : Type} (batchSize : Z) (logWriter : Writer)
  (xs : list (APIResourceList * APIResource)) (e : Event U) : Prop :=
  match e with
  | EvList res opts _ =>
      Limit opts = batchSize ∧
      ∃ x, x ∈ xs ∧ listable x.2 ∧ res = resourceOf x.1 x.2
  | EvLog w t =>
      w = logWriter ∧
      ∃ x, x ∈ xs ∧ ¬ listable x.2 ∧ t = skipNotice (resourceOf x.1 x.2)
  | _ => True
  end.

(** The listing of lines 60 to 66, as log events. *)
Definition listing {U : Type} (logWriter : Writer)
  (sprl : list APIResourceList) : list (Event U) :=
  EvLog logWriter ("Discovered resources:" +:+ nl)
  :: (sprl ≫= λ re,
        EvLog logWriter (GroupVersion re +:+ nl)
        :: ((λ r, EvLog logWriter
                    ("  " +:+ " " +:+ Kind r +:+ nl))
              <$> APIResources re)).

(** The pagination loop of every resource, started with the empty
    cursor, ends. *)
Definition drains {W U : Type} `{!Cluster W U} (dynClient : DynamicClient)
  (cb : Callback W U) (batchSize : Z) : Prop :=
  ∀ res errors (s : State),
    ∃ n, (paginate n dynClient cb batchSize res "" errors s).1 ≠ OutOfFuel.

(** The quotient of [n] by [b], rounded up. *)
Definition ceilDiv (n b : nat) : nat := (n + b - 1) / b.

(** The number of list calls that drain a collection of [n] objects in
    batches of [b]. *)
Definition callsFor (n b : nat) : nat := max 1 (ceilDiv n b).

End discovery_spec.

(** ** Traces of the directory sink *)
Module dumper_spec.
Import unstructured dumper.

(** The writes that succeeded: the name of the file and the bytes, in
    the order of the calls. *)
Definition received (evs : list Event) : list (string * string) :=
  omap (λ e, match e with
             | EvWrite f b None => Some (name f, b)
             | _ => None
             end) evs.

(** The files that were created, with the paths they were created
    for, and the files that were closed. *)
Definition created (evs : list Event) : list (string * File) :=
  omap (λ e, match e with
             | EvCreate path (inr f) => Some (path, f)
             | _ => None
             end) evs.

Definition closed (evs : list Event) : list File :=
  omap (λ e, match e with
             | EvClose f _ => Some f
             | _ => None
             end) evs.

(** Every cached file is cached under the name it was opened with. *)
Definition cache_named (d : dirDumper) : Prop :=
  ∀ path f, openFiles d !! path = Some f → name f = path.

(** The cache holds exactly the files that were created, each once. *)
Definition one_handle_per_path (d : dirDumper) (tr : list Event) : Prop :=
  map_to_list (openFiles d) ≡ₚ created tr.

(** From [d] to [d'] by the calls [evs]: the directory stays, the
    cache keeps what it had and gains the files created, and no file
    is closed. *)
Definition grows (d d' : dirDumper) (evs : list Event) : Prop :=
  dir d' = dir d ∧
  cache_named d' ∧
  openFiles d ⊆ openFiles d' ∧
  map_to_list (openFiles d') ≡ₚ map_to_list (openFiles d) ++ created evs ∧
  closed evs = [].

(** An error that is not a combination of errors, and a result that is
    no error or such an error. *)
Definition single (e : error) : Prop :=
  match e with
  | multiError _ => False
  | _ => True
  end.

Definition wrapped (r : option error) : Prop :=
  match r with
  | Some e => single e
  | None => True
  end.

(** Whether the combined error [ret] holds the error [e]. *)
Definition reported (ret : option error) (e : error) : Prop :=
  match ret with
  | None => False
  | Some (multiError es) => e ∈ es
  | Some e' => e' = e
  end.

Section records.
Context {U : Type} `{!Object U}.

(** The bytes written for an object: its encoding and a newline. *)
Definition serialized (o : U) : option string :=
  match MarshalJSON o with
  | inr b => Some (b +:+ nl)
  | inl _ => None
  end.

(** The destination paths of an object, in the order of the writes. *)
Definition destinations (dir : string) (o : U) : list string :=
  objectsPath dir (GetKind o)
  :: if decide (GetNamespace o = "") then []
     else [allPath dir (GetNamespace o);
           kindPath dir (GetNamespace o) (GetKind o)].

(** The writes attempted for an object: one per destination when it
    encodes, none when it does not. *)
Definition attempts (dir : string) (o : U) : list string :=
  match serialized o with
  | Some _ => destinations dir o
  | None => []
  end.

(** Given the result [outs] of each attempted write of the object [o],
    the errors that the object adds and the writes that reached their
    file. *)
Definition itemErrors (o : U) (outs : list (option error)) : list error :=
  match MarshalJSON o with
  | inl err => [encodeError err]
  | inr _ => omap id outs
  end.

Definition itemReceived (dir : string) (o : U) (outs : list (option error))
  : list (string * string) :=
  match serialized o with
  | Some p =>
      omap (λ x, match x.2 with
                 | None => Some (x.1, p)
                 | Some _ => None
                 end) (zip (destinations dir o) outs)
  | None => []
  end.

(** What an object sends where, when nothing fails. *)
Definition fanout (dir : string) (o : U) : list (string * string) :=
  match serialized o with
  | Some p => (λ path, (path, p)) <$> destinations dir o
  | None => []
  end.

(** The paths that receive an object when nothing fails, each once. *)
Definition receivers (dir : string) (o : U) : list string :=
  remove_dups (fanout dir o).*1.

End records.

End dumper_spec.

(** ** The fan-out of the sink, in the words of the spec *)
Module sink_by_spec.
Import unstructured dumper dumper_spec.

(** The errors that a combined error holds, [multierr.Errors]: none
    for nil, the errors of a combination, the error itself
    otherwise. *)
Definition errorsOf (ret : option error) : list error :=
  match ret with
  | None => []
  | Some (multiError es) => es
  | Some e => [e]
  end.

Section fan_out.
Context {O U : Type} `{!OS O} `{!Object U}.

(** A path on which the operating system never fails: its directory
    can be made, the file can be created, and a file of that name can
    be written to, in whatever state the system is. *)
Definition healthy (path : string) : Prop :=
  (∀ o, (MkdirAll (filepath_Dir path) o).1 = None) ∧
  (∀ o, ∃ n, (open_create path o).1 = inr n) ∧
  (∀ f b o, name f = path → (write f b o).1 = None).

(** "A failure writing to one destination is recorded but does not
    prevent writing the same record to its other destinations":
    [writeEach] attempts the write of [p] to every path of the list,
    in order and whatever the attempts before it returned, and gives
    the result of every attempt. *)
Fixpoint writeEach (paths : list string) (p : string) (st : State)
  : list (option error) * State :=
  match paths with
  | [] => ([], st)
  | path :: rest =>
      let '(r, st1) := writeToFile path p st in
      let '(rs, st2) := writeEach rest p st1 in
      (r :: rs, st2)
  end.

(** One record, in the words of the spec: serialize it, and on
    failure record that and go to the next record; otherwise write it
    to each of its destinations, recording the failures. *)
Definition recordBySpec (x : U) (errs : list error) (st : State)
  : list error * State :=
  let '(d, y) := st in
  match MarshalJSON x with
  | inl err => (errs ++ [encodeError err], (set_sharedBuf "" d, y))
  | inr b =>
      let p := b +:+ nl in
      let '(rs, st') :=
        writeEach (destinations (dir d) x) p (set_sharedBuf p d, y) in
      (errs ++ omap id rs, st')
  end.

(** "nor does it prevent processing the remaining records in the
    page": every record of the page, in order. *)
Fixpoint pageBySpec (items : list U) (errs : list error) (st : State)
  : list error * State :=
  match items with
  | [] => (errs, st)
  | x :: rest =>
      let '(errs1, st1) := recordBySpec x errs st in
      pageBySpec rest errs1 st1
  end.

End fan_out.

End sink_by_spec.

(** ** The shape of a run of the driver *)
Module driver_shape.
Import schema metav1 unstructured discovery discovery_spec.

Section shape.
Context {U : Type}.

(** [pages batchSize res key evs]: the trace [evs] is the pagination of
    the resource [res] from the cursor [key] to its end: list calls
    with the batch size, each for [res] and each with the cursor of the
    page before it, every page handed to the callback, up to a list
    call that fails or a page whose cursor is empty. *)
Inductive pages (batchSize : Z) (res : GroupVersionResource)
  : string → list (Event U) → Prop :=
  | pages_failed key err :
      pages batchSize res key
        [EvList res {| Limit := batchSize; Continue := key |} (inl err)]
  | pages_last key l rc :
      GetContinue l = "" →
      pages batchSize res key
        [EvList res {| Limit := batchSize; Continue := key |} (inr l);
         EvCallback l rc]
  | pages_more key l rc evs :
      GetContinue l ≠ "" →
      pages batchSize res (GetContinue l) evs →
      pages batchSize res key
        (EvList res {| Limit := batchSize; Continue := key |} (inr l)
         :: EvCallback l rc :: evs).

(** What a returned run does for one entry of the discovery result:
    the pagination from the empty cursor when the entry is listable,
    the skip notice alone when it is not. *)
Definition segment (batchSize : Z) (logWriter : Writer)
  (x : APIResourceList * APIResource) (evs : list (Event U)) : Prop :=
  if decide (listable x.2) then pages batchSize (resourceOf x.1 x.2) "" evs
  else evs = [EvLog logWriter (skipNotice (resourceOf x.1 x.2))].

(** The log lines of a trace, with their writers. *)
Definition logged (evs : list (Event U)) : list (Writer * string) :=
  omap (λ e, match e with
             | EvLog w text => Some (w, text)
             | _ => None
             end) evs.

(** The resources of the list calls that carry the empty cursor. *)
Definition started (evs : list (Event U)) : list GroupVersionResource :=
  omap (λ e, match e with
             | EvList res opts _ =>
                 if decide (Continue opts = "") then Some res else None
             | _ => None
             end) evs.

End shape.

(** An error that names the resource [res]: made of a failed list call
    or of a failed callback on a page of [res]. *)
Definition names (res : GroupVersionResource) (e : error) : Prop :=
  ∃ err, e = listError res err ∨ e = dumpError res err.

(** The three steps before the loops succeed for [conf] in the world
    [w]: both clients are made and the discovery query answers. *)
Definition ready {W U : Type} `{!Cluster W U} (conf : Config) (w : W)
  : Prop :=
  ∃ dc dynClient sprl w1,
    NewDiscoveryClientForConfig conf = inr dc ∧
    NewForConfig conf = inr dynClient ∧
    ServerPreferredResources dc w = (inr sprl, w1).

(** The errors that [DiscoverObjects] returns for a step that failed. *)
Definition setupError (e : error) : Prop :=
  ∃ err,
    e = Errorf "failed to create discovery client: %w" [] err ∨
    e = Errorf "failed to create dynamic client: %w" [] err ∨
    e = Errorf "failed to get server preferred resources: %w" [] err.

End driver_shape.

(** ** More on the traces of the directory sink *)
Module sink_shape.
Import unstructured dumper dumper_spec.

(** An operating system on which making a directory, creating a file
    and writing to a file never fail. *)
Definition reliable (O : Type) `{!OS O} : Prop :=
  (∀ path o, (MkdirAll path o).1 = None) ∧
  (∀ path o, ∃ n, (open_create path o).1 = inr n) ∧
  (∀ f b o, (write f b o).1 = None).

(** The writes of a trace, failed or not: the file and the bytes, in
    the order of the calls. *)
Definition writes (evs : list Event) : list (File * string) :=
  omap (λ e, match e with
             | EvWrite f b _ => Some (f, b)
             | _ => None
             end) evs.

(** Whether an event is a call that makes a directory or creates a
    file. *)
Definition makes (e : Event) : bool :=
  match e with
  | EvMkdirAll _ _ | EvCreate _ _ => true
  | _ => false
  end.

Section records.
Context {U : Type} `{!Object U}.

(** The number of results an object accounts for: one for each
    destination when it encodes, one for the encoding when it does
    not. *)
Definition accounted (dir : string) (o : U) : nat :=
  match serialized o with
  | Some _ => length (destinations dir o)
  | None => 1
  end.

End records.

End sink_shape.

(** ** The callback's part of the world *)
Module callback_world.
Import schema metav1 unstructured discovery discovery_spec.

Section world.
Context {W L U : Type} `{!Cluster W U}.

(** The part [view] of the world is out of the cluster's reach: the
    calls of the cluster leave it as it is. *)
Definition kept (view : W → L) : Prop :=
  (∀ dc w, view (ServerPreferredResources dc w).2 = view w) ∧
  (∀ dynClient res opts w,
      view (List dynClient res opts w).2 = view w).

(** The callback [cb] acts on the part [view] of the world as [cbL]
    does, and returns what [cbL] returns. *)
Definition through (view : W → L) (cb : Callback W U) (cbL : Callback L U)
  : Prop :=
  ∀ l w, (cb l w).1 = (cbL l (view w)).1 ∧
         view (cb l w).2 = (cbL l (view w)).2.

End world.

Section replay.
Context {L U : Type}.

(** The part after the callbacks of a trace, run in order from [x]. *)
Fixpoint replay (cb : Callback L U) (evs : list (Event U)) (x : L) : L :=
  match evs with
  | [] => x
  | EvCallback l _ :: evs' => replay cb evs' (cb l x).2
  | _ :: evs' => replay cb evs' x
  end.

(** The results that the trace records for its callbacks are those of
    the callbacks run in order from [x]. *)
Fixpoint answered (cb : Callback L U) (evs : list (Event U)) (x : L)
  : Prop :=
  match evs with
  | [] => True
  | EvCallback l r :: evs' => r = (cb l x).1 ∧ answered cb evs' (cb l x).2
  | _ :: evs' => answered cb evs' x
  end.

End replay.

(** What a stretch of a run, from the state [s] to the state [s'],
    does to the part [view] of the world: it adds to the trace, and
    the part is what the callbacks of the added trace make of it. *)
Definition replays {W L U : Type} (cbL : Callback L U) (view : W → L)
  (s s' : @State W U) : Prop :=
  ∃ evs, s'.2 = s.2 ++ evs ∧
         view s'.1 = replay cbL evs (view s.1) ∧
         answered cbL evs (view s.1).

(** The list calls that failed, with their resources. *)
Definition listFailures {U : Type} (evs : list (Event U))
  : list (GroupVersionResource * error) :=
  omap (λ e, match e with
             | EvList res _ (inl err) => Some (res, err)
             | _ => None
             end) evs.

(** What the paginating server holds for a resource, nothing when it
    refuses to list it; and of the listable entries of a discovery
    result, those that the server refuses, with its error. *)
Definition stored {U : Type}
  (backing : GroupVersionResource → error + list U)
  (res : GroupVersionResource) : list U :=
  match backing res with
  | inr coll => coll
  | inl _ => []
  end.

Definition refused {U : Type}
  (backing : GroupVersionResource → error + list U)
  (sprl : list APIResourceList) : list (GroupVersionResource * error) :=
  omap (λ x, match backing (resourceOf x.1 x.2) with
             | inl err => Some (resourceOf x.1 x.2, err)
             | inr _ => None
             end)
    (filter (λ x, listable x.2) (entries sprl)).

(** The resources that a run against the paginating server lists. *)
Definition listed (sprl : list APIResourceList)
  : list GroupVersionResource :=
  (λ x, resourceOf x.1 x.2) <$> filter (λ x, listable x.2) (entries sprl).

End callback_world.

(** ** The loop of the older program *)
Module legacy_spec.
Import schema metav1 unstructured discovery.

(** The list call for the resource [res] with the limit [batchSize]
    and the empty cursor fails, whatever the state of the world. *)
Definition stuck {W U : Type} `{!Cluster W U} (dynClient : DynamicClient)
  (batchSize : Z) (res : GroupVersionResource) : Prop :=
  ∀ w, ∃ err,
    (List dynClient res {| Limit := batchSize; Continue := "" |} w).1
    = inl err.

End legacy_spec.

(** * Example inputs *)
Module examples.
Import schema metav1 unstructured discovery apiserver.

(** A discovery result of two lists and three resource types, one of
    them without the verb "list". *)
Definition pods : APIResource :=
  {| Name := "pods"; Kind := "Pod"; Verbs := ["get"; "list"; "watch"] |}.

Definition bindings : APIResource :=
  {| Name := "bindings"; Kind := "Binding"; Verbs := ["create"] |}.

Definition deployments : APIResource :=
  {| Name := "deployments"; Kind := "Deployment"; Verbs := ["list"] |}.

Definition core : APIResourceList :=
  {| GroupVersion := "v1"; APIResources := [pods; bindings] |}.

Definition apps : APIResourceList :=
  {| GroupVersion := "apps/v1"; APIResources := [deployments] |}.

Definition discovered : list APIResourceList := [core; apps].

(** Three pods, numbered; listing deployments is refused. *)
Definition backing (res : GroupVersionResource) : error + list nat :=
  if decide (gvrResource res = "pods") then inr [1; 2; 3]
  else if decide (gvrResource res = "deployments")
       then inl (ErrExternal "deployments.apps is forbidden")
       else inr [].

Definition cluster : Cluster (list (UnstructuredList nat)) nat :=
  pagedCluster (list (UnstructuredList nat)) nat (inr discovered) backing.

(** A sink that fails on every page of exactly one object. *)
Definition sink : Callback (list (UnstructuredList nat)) nat :=
  collect (λ l, bool_decide (length (Items l) = 1)).

Definition options : DiscoveryOptions :=
  {| BatchSize := 2; LogWriter := Some (io_Stream 2) |}.

(** The state a run starts in: nothing collected, nothing traced. *)
Definition start : @State (list (UnstructuredList nat)) nat := ([], []).

(** A collection of 1200 objects, for the batch size 500. *)
Definition many : list nat := seq 0 1200.

(** A cluster whose every resource is that collection. *)
Definition bigCluster : Cluster (list (UnstructuredList nat)) nat :=
  pagedCluster (list (UnstructuredList nat)) nat (inr discovered)
    (λ _, inr many).

(** Objects for the directory sink: a namespaced pod, a node, which
    has no namespace, an object whose kind is the name of the file for
    all kinds, and an object that the encoder refuses. *)
Definition pod : memfs.Obj :=
  {| memfs.kind := "Pod"; memfs.namespace := "ns1";
     memfs.objName := "web"; memfs.encodable := true |}.

Definition node : memfs.Obj :=
  {| memfs.kind := "Node"; memfs.namespace := "";
     memfs.objName := "n1"; memfs.encodable := true |}.

Definition reserved : memfs.Obj :=
  {| memfs.kind := "__all__"; memfs.namespace := "ns1";
     memfs.objName := "x"; memfs.encodable := true |}.

Definition broken : memfs.Obj :=
  {| memfs.kind := "Pod"; memfs.namespace := "ns1";
     memfs.objName := "nan"; memfs.encodable := false |}.

Definition page (items : list memfs.Obj) : UnstructuredList memfs.Obj :=
  {| Items := items; GetContinue := "" |}.

(** A sink for the directory ["out"] that has opened nothing yet, on
    an empty disk. *)
Definition freshSink : dumper.dirDumper :=
  {| dumper.dir := "out"; dumper.openFiles := ∅; dumper.sharedBuf := "" |}.

Definition freshDisk : memfs.Disk * list dumper.Event := (memfs.empty, []).

(** The file [split/ns1/Pod.json] cannot be created. *)
Definition unwritable (op : memfs.Op) : bool :=
  match op with
  | memfs.OpCreate path => bool_decide (path = "out/split/ns1/Pod.json")
  | _ => false
  end.

(** Closing [objects-Pod.json] fails. *)
Definition uncloseable (op : memfs.Op) : bool :=
  match op with
  | memfs.OpClose path => bool_decide (path = "out/objects-Pod.json")
  | _ => false
  end.

(** The run of the counterexample to the fan-out claim: the object of
    kind ["__all__"], dumped into a fresh sink on a disk where nothing
    fails. *)
Definition reservedRun : option error * dumper.State :=
  @dumper.Dump memfs.Disk memfs.Obj (memfs.memOS memfs.never) _
    (page [reserved]) (freshSink, freshDisk).

(** Two more runs for that claim: the pod dumped on a disk where its
    third file cannot be created, and the object that cannot be
    encoded dumped on a disk where nothing fails. *)
Definition hinderedRun : option error * dumper.State :=
  @dumper.Dump memfs.Disk memfs.Obj (memfs.memOS unwritable) _
    (page [pod]) (freshSink, freshDisk).

Definition brokenRun : option error * dumper.State :=
  @dumper.Dump memfs.Disk memfs.Obj (memfs.memOS memfs.never) _
    (page [broken]) (freshSink, freshDisk).

(** A sink that was made, whose trace holds the making of its
    directory; the pod and the node dumped into it; and an order for
    closing the files it then holds. *)
Definition madeTrace : list dumper.Event := [dumper.EvMkdirAll "out" None].

Definition dumpedTwo : option error * dumper.State :=
  @dumper.Dump memfs.Disk memfs.Obj (memfs.memOS uncloseable) _
    (page [pod; node]) (freshSink, (memfs.empty, madeTrace)).

Definition closeOrder : list (string * dumper.File) :=
  map_to_list (dumper.openFiles dumpedTwo.2.1).

End examples.

(** * More example inputs *)
Module more_examples.
Import schema metav1 unstructured discovery apiserver examples.

(** For the directory sink: a pod of another namespace, and a system
    on which the file of all pods, [objects-Pod.json], cannot be
    created, so that the first write of a pod fails. *)
Definition elsewhere : memfs.Obj :=
  {| memfs.kind := "Pod"; memfs.namespace := "ns2";
     memfs.objName := "db"; memfs.encodable := true |}.

Definition firstUnwritable (op : memfs.Op) : bool :=
  match op with
  | memfs.OpCreate path => bool_decide (path = "out/objects-Pod.json")
  | _ => false
  end.

(** The paths other than that one. *)
Definition others (path : string) : bool :=
  negb (bool_decide (path = "out/objects-Pod.json")).

(** On the disk where [split/ns1/Pod.json] cannot be created: what
    the loop of [Dump] leaves after the pod, the first record of the
    page of the pod, the pod of the other namespace and the node. *)
Definition afterPod : list error * dumper.State :=
  @dumper.rangeItems memfs.Disk memfs.Obj (memfs.memOS unwritable) _
    [pod] [] (freshSink, freshDisk).

(** A cluster whose discovery query fails. *)
Definition downCluster : Cluster (list (UnstructuredList nat)) nat :=
  pagedCluster (list (UnstructuredList nat)) nat
    (inl (ErrExternal "connection refused")) backing.

(** The state after the pod and the node were dumped into a fresh sink
    on a disk where nothing fails, the sink of that state, and an order
    for closing the files it holds. *)
Definition warm : dumper.State :=
  (@dumper.Dump memfs.Disk memfs.Obj (memfs.memOS memfs.never) _
     (page [pod; node]) (freshSink, freshDisk)).2.

Definition warmSink : dumper.dirDumper := warm.1.

Definition warmOrder : list (string * dumper.File) :=
  map_to_list (dumper.openFiles warmSink).

(** A server for the directory sink: its pods are three objects of the
    examples, and it refuses to list deployments; and a server that
    refuses nothing. *)
Definition holdings (res : GroupVersionResource) : error + list memfs.Obj :=
  if decide (gvrResource res = "pods") then inr [pod; node; reserved]
  else if decide (gvrResource res = "deployments")
       then inl (ErrExternal "deployments.apps is forbidden")
       else inr [].

Definition calm (res : GroupVersionResource) : error + list memfs.Obj :=
  if decide (gvrResource res = "pods") then inr [pod; node; reserved]
  else inr [].

Definition objCluster : Cluster (@dumper.State memfs.Disk) memfs.Obj :=
  pagedCluster _ memfs.Obj (inr discovered) holdings.

(** The directory sink on a disk where nothing fails, as a callback. *)
Definition toDisk : Callback (@dumper.State memfs.Disk) memfs.Obj :=
  @dumper.Dump memfs.Disk memfs.Obj (memfs.memOS memfs.never) _.

(** The run of the driver with that callback against the server that
    refuses to list deployments, from a fresh sink on an empty disk. *)
Definition objRun
  : run (option error) * @State (@dumper.State memfs.Disk) memfs.Obj :=
  @DiscoverObjects _ _ objCluster 5 () toDisk options
    ((freshSink, freshDisk), []).

(** The two servers as clusters with a state of their own, here none,
    and the runs of the driver against them with the sink beside. *)
Definition objServer : Cluster unit memfs.Obj :=
  pagedCluster unit memfs.Obj (inr discovered) holdings.

Definition calmServer : Cluster unit memfs.Obj :=
  pagedCluster unit memfs.Obj (inr discovered) calm.

Definition besideStart
  : @State (unit * @dumper.State memfs.Disk) memfs.Obj :=
  (((), (freshSink, freshDisk)), []).

Definition objBeside
  : run (option error) * @State (unit * @dumper.State memfs.Disk) memfs.Obj :=
  @DiscoverObjects _ _ (@cmd.beside _ _ objServer _) 5 ()
    (cmd.aside toDisk) options besideStart.

Definition calmBeside
  : run (option error) * @State (unit * @dumper.State memfs.Disk) memfs.Obj :=
  @DiscoverObjects _ _ (@cmd.beside _ _ calmServer _) 5 ()
    (cmd.aside toDisk) options besideStart.

(** For the older program: a configuration that is always found, and
    errors printed as their outermost text. *)
Definition foundConfig (w : list (UnstructuredList nat))
  : (error + unit) * list (UnstructuredList nat) := (inr (), w).

Definition outermost (e : error) : string :=
  match e with
  | ErrExternal msg => msg
  | Errorf format _ _ => format
  | multiError _ => "multiple errors"
  end.

(** The program against the two servers, on a disk where nothing
    fails, with the flags [--dir out --batch-size 2]: a configuration
    that is found, a stream sink that writes nothing, and the cached
    files visited in the order of their paths. *)
Definition quiet (w : Writer)
  : Callback (@dumper.Sys memfs.Disk) memfs.Obj :=
  λ _ y, (None, y).

Definition calmMain
  : run nat * @cmd.Outcome unit memfs.Disk memfs.Obj :=
  @cmd.main unit memfs.Disk memfs.Obj calmServer (memfs.memOS memfs.never) _
    ((), None) quiet map_to_list outermost outermost 5 "out" 2 () freshDisk.

Definition objMain
  : run nat * @cmd.Outcome unit memfs.Disk memfs.Obj :=
  @cmd.main unit memfs.Disk memfs.Obj objServer (memfs.memOS memfs.never) _
    ((), None) quiet map_to_list outermost outermost 5 "out" 2 () freshDisk.

End more_examples.

(** * Theorems *)

(** Case analysis on membership in a list written out. *)
Ltac elem_cases H :=
  repeat match type of H with
         | _ ∈ [] => by apply elem_of_nil in H
         | _ ∈ _ :: _ => apply elem_of_cons in H as [H|H]
         | _ ∈ _ ++ _ => apply elem_of_app in H as [H|H]
         end;
  simplify_eq.

(** ** Strings *)

Lemma Split_not_nil s sep : Split s sep ≠ [].
Proof.
  destruct s as [|c s]; simpl; [done|].
  case_decide; [done|]. by destruct (Split s sep).
Qed.

Lemma Split_free sep s : free_of sep s → Split s sep = [s].
Proof.
  induction s as [|c s IH]; simpl; [done|].
  intros [Hc Hs]%andb_True. apply negb_True in Hc.
  rewrite bool_decide_spec in Hc.
  case_decide; [done|]. by rewrite IH.
Qed.

Lemma string_app_cons c (a b : string) :
  String c a +:+ b = String c (a +:+ b).
Proof. reflexivity. Qed.

Lemma string_app_nil (b : string) : "" +:+ b = b.
Proof. reflexivity. Qed.

Lemma Split_segment sep x y :
  free_of sep x → Split (x +:+ String sep y) sep = x :: Split y sep.
Proof.
  induction x as [|c x IH]; rewrite ?string_app_cons, ?string_app_nil; simpl.
  - intros _. by rewrite decide_True.
  - intros [Hc Hx]%andb_True. apply negb_True in Hc.
    rewrite bool_decide_spec in Hc.
    case_decide; [done|]. by rewrite IH.
Qed.

Lemma string_app_assoc (a b c : string) : (a +:+ b) +:+ c = a +:+ b +:+ c.
Proof.
  induction a as [|x a IH]; [done|].
  by rewrite !string_app_cons, IH.
Qed.

Lemma string_app_length (a b : string) :
  String.length (a +:+ b) = String.length a + String.length b.
Proof.
  induction a as [|x a IH]; [done|].
  rewrite string_app_cons. simpl. by rewrite IH.
Qed.

Lemma string_app_inv_tail (a b c : string) : a +:+ c = b +:+ c → a = b.
Proof.
  revert b. induction a as [|x a IH]; intros [|y b] H;
    rewrite ?string_app_cons, ?string_app_nil in H.
  - done.
  - apply (f_equal String.length) in H. simpl in H.
    rewrite string_app_length in H. lia.
  - apply (f_equal String.length) in H. simpl in H.
    rewrite string_app_length in H. lia.
  - injection H as -> H. f_equal. by apply IH.
Qed.

(** ** Errors *)

Lemma Combine_None errs : multierr.Combine errs = None ↔ errs = [].
Proof. destruct errs as [|? [|? ?]]; simpl; split; done. Qed.

Module discovery_facts.
Import schema metav1 unstructured discovery.

(** ** [groupVersionFromString] *)

(** The index expressions [parts[0]] and [parts[1]] are in range. *)
Lemma groupVersionFromString_in_range s :
  let parts := Split s "/"%char in
  1 ≤ length parts ∧ (length parts ≠ 1 → 2 ≤ length parts).
Proof.
  simpl. pose proof (Split_not_nil s "/"%char) as H.
  destruct (Split s "/"%char) as [|? [|? ?]]; simpl; [done|lia..].
Qed.

(** C8. A string of one segment is a bare version with the empty group;
    a string of two segments [X/Y] is group [X] and version [Y], so
    ["apps/v1"] is group ["apps"], version ["v1"], and ["v1"] is group
    [""], version ["v1"].  No other shape has a branch of its own: the
    function has no error result, and a string of three segments or
    more is read like one of two, its first segment the group and its
    second the version. *)
Theorem groupVersionFromString_shapes :
  (∀ v, free_of "/" v →
        groupVersionFromString v = {| Group := ""; Version := v |}) ∧
  (∀ x y, free_of "/" x → free_of "/" y →
          groupVersionFromString (x +:+ "/" +:+ y)
          = {| Group := x; Version := y |}) ∧
  groupVersionFromString "apps/v1" = {| Group := "apps"; Version := "v1" |} ∧
  groupVersionFromString "v1" = {| Group := ""; Version := "v1" |} ∧
  (∀ x y rest, free_of "/" x → free_of "/" y →
          groupVersionFromString (x +:+ "/" +:+ y +:+ "/" +:+ rest)
          = {| Group := x; Version := y |}).
Proof.
  split_and!; try reflexivity.
  - intros v Hv. unfold groupVersionFromString.
    by rewrite (Split_free _ _ Hv).
  - intros x y Hx Hy. unfold groupVersionFromString.
    change (x +:+ "/" +:+ y) with (x +:+ String "/" y).
    by rewrite (Split_segment _ _ _ Hx), (Split_free _ _ Hy).
  - intros x y rest Hx Hy. unfold groupVersionFromString.
    change (x +:+ "/" +:+ y +:+ "/" +:+ rest)
      with (x +:+ String "/" (y +:+ String "/" rest)).
    rewrite (Split_segment _ _ _ Hx), (Split_segment _ _ _ Hy).
    simpl. pose proof (Split_not_nil rest "/"%char).
    by destruct (Split rest "/"%char).
Qed.

Lemma groupVersionFromString_shapes_witness :
  groupVersionFromString ("apps" +:+ "/" +:+ "v1")
  = {| Group := "apps"; Version := "v1" |}
  ∧ groupVersionFromString ("a" +:+ "/" +:+ "b" +:+ "/" +:+ "c/d")
    = {| Group := "a"; Version := "b" |}
  ∧ groupVersionFromString "v1beta1" = {| Group := ""; Version := "v1beta1" |}.
Proof.
  destruct groupVersionFromString_shapes as (H1 & H2 & _ & _ & H3).
  split_and!.
  - apply H2; exact I.
  - apply H3; exact I.
  - apply H1; exact I.
Defined.

End discovery_facts.

(** ** The pagination driver *)
Module discovery_driver.
Import schema metav1 unstructured discovery discovery_spec.

Section driver.
Context {W U : Type} `{!Cluster W U}.
Variable dynClient : DynamicClient.
Variable cb : Callback W U.
Variable batchSize : Z.
Variable logWriter : Writer.

Lemma accumulated_app (evs1 evs2 : list (Event U)) errs1 errs2 :
  accumulated evs1 errs1 → accumulated evs2 errs2 →
  accumulated (evs1 ++ evs2) (errs1 ++ errs2).
Proof.
  induction 1; intros H2; simpl; try (constructor; auto); auto.
Qed.

(** What one run of the pagination loop adds to the trace and to the
    errors. *)
Lemma paginate_spec fuel res key errors (s : State) :
  ∃ w' evs errs,
    (paginate fuel dynClient cb batchSize res key errors s).2
      = (w', s.2 ++ evs) ∧
    accumulated evs errs ∧
    (∀ e', (paginate fuel dynClient cb batchSize res key errors s).1
           = Returned e' → e' = errors ++ errs) ∧
    (∀ res' opts r, EvList res' opts r ∈ evs →
                    res' = res ∧ Limit opts = batchSize) ∧
    (∀ w t, EvLog w t ∉ evs) ∧
    (0 < fuel →
     ∃ r evs', evs = EvList res {| Limit := batchSize; Continue := key |} r
                     :: evs').
Proof.
  revert key errors s.
  induction fuel as [|fuel IH]; intros key errors [w tr]; simpl.
  { exists w, [], []. rewrite app_nil_r.
    split_and!; [done|constructor|done| |by intros ?? ?%elem_of_nil|lia].
    by intros ??? ?%elem_of_nil. }
  destruct (List dynClient res _ w) as [[err|l] w1] eqn:HL; simpl.
  { exists w1, [EvList res {| Limit := batchSize; Continue := key |} (inl err)],
      [listError res err].
    split_and!; [done|repeat constructor| | | |eauto].
    - by intros ? [= <-].
    - intros ??? Hin. by elem_cases Hin.
    - intros ?? Hin. by elem_cases Hin. }
  destruct (cb l w1) as [rc w2] eqn:Hcb; simpl.
  set (errors' := match rc with
                  | Some err => errors ++ [dumpError res err]
                  | None => errors
                  end).
  set (pair := [EvList res {| Limit := batchSize; Continue := key |} (inr l);
                EvCallback l rc]).
  assert (Hpair : accumulated pair
                    (match rc with
                     | Some err => [dumpError res err]
                     | None => []
                     end)).
  { subst pair. destruct rc; repeat constructor. }
  assert (Herr : errors' = errors ++ match rc with
                                     | Some err => [dumpError res err]
                                     | None => []
                                     end).
  { subst errors'. destruct rc; by rewrite ?app_nil_r. }
  case_decide as Hc.
  { exists w2, pair, (match rc with
                      | Some err => [dumpError res err]
                      | None => []
                      end).
    split_and!; [by rewrite <- app_assoc|done| | | |by eauto].
    - intros ? [= <-]. done.
    - subst pair. intros ??? Hin. by elem_cases Hin.
    - subst pair. intros ?? Hin. by elem_cases Hin. }
  destruct (IH (GetContinue l) errors'
              (w2, (tr ++ [EvList res {| Limit := batchSize; Continue := key |}
                             (inr l)]) ++ [EvCallback l rc]))
    as (w' & evs & errs & Htr & Hacc & Hret & Hcalls & Hlog & _).
  exists w', (pair ++ evs), (match rc with
                            | Some err => [dumpError res err]
                            | None => []
                            end ++ errs).
  split_and!.
  - rewrite Htr. simpl. subst pair. by rewrite <- !app_assoc.
  - by apply accumulated_app.
  - intros e' He'. rewrite (Hret e' He'), Herr. by rewrite <- app_assoc.
  - subst pair. intros ??? Hin. elem_cases Hin; [done|by eapply Hcalls].
  - subst pair. intros ?? Hin. elem_cases Hin. by eapply Hlog.
  - intros _. subst pair. simpl. eauto.
Qed.

Lemma Contains_spec l x : Contains l x = true ↔ x ∈ l.
Proof. unfold Contains. by rewrite bool_decide_eq_true. Qed.

Lemma permitted_mono (xs ys : list (APIResourceList * APIResource))
  (e : Event U) :
  xs ⊆ ys → permitted batchSize logWriter xs e →
  permitted batchSize logWriter ys e.
Proof.
  intros Hsub. destruct e; simpl; [|done| |done].
  - intros [-> (x & Hx & ?)]. split; [done|]. exists x. split; [auto|done].
  - intros [-> (x & Hx & ?)]. split; [done|]. exists x. split; [auto|done].
Qed.

Lemma attempted_app_l (evs evs' : list (Event U)) x :
  attempted batchSize logWriter evs x →
  attempted batchSize logWriter (evs ++ evs') x.
Proof.
  unfold attempted. case_decide.
  - intros [r Hr]. exists r. apply elem_of_app. by left.
  - intros Hr. apply elem_of_app. by left.
Qed.

Lemma attempted_app_r (evs evs' : list (Event U)) x :
  attempted batchSize logWriter evs' x →
  attempted batchSize logWriter (evs ++ evs') x.
Proof.
  unfold attempted. case_decide.
  - intros [r Hr]. exists r. apply elem_of_app. by right.
  - intros Hr. apply elem_of_app. by right.
Qed.

(** The body of the inner loop, for one entry. *)
Lemma discoverResource_spec fuel re r errors (s : State) :
  ∃ w' evs errs,
    (discoverResource fuel dynClient cb batchSize logWriter re r errors s).2
      = (w', s.2 ++ evs) ∧
    accumulated evs errs ∧
    (∀ e', (discoverResource fuel dynClient cb batchSize logWriter re r
              errors s).1 = Returned e' →
           e' = errors ++ errs ∧
           attempted batchSize logWriter evs (re, r)) ∧
    Forall (permitted batchSize logWriter [(re, r)]) evs.
Proof.
  unfold discoverResource.
  destruct (Contains (Verbs r) "list") eqn:Hv; simpl.
  - apply Contains_spec in Hv.
    destruct (paginate_spec fuel (resourceOf re r) "" errors s)
      as (w' & evs & errs & Htr & Hacc & Hret & Hcalls & Hlog & Hfirst).
    exists w', evs, errs. split_and!; [done..| |].
    + intros e' He'. split; [by apply Hret|].
      unfold attempted. simpl. rewrite decide_True by done.
      destruct fuel; [done|].
      destruct Hfirst as (r0 & evs' & ->); [lia|].
      exists r0. apply elem_of_cons. by left.
    + apply Forall_forall. intros [] Hin; simpl; [|done| |done].
      * by apply Hlog in Hin.
      * apply Hcalls in Hin as [-> ->]. split; [done|].
        exists (re, r). split; [apply elem_of_cons; by left|done].
  - assert (¬ listable r) as Hn.
    { unfold listable. rewrite <- Contains_spec. by rewrite Hv. }
    destruct s as [w tr].
    exists w, [EvLog logWriter (skipNotice (resourceOf re r))], [].
    split_and!; [done|repeat constructor| |].
    + intros e' [= <-]. rewrite app_nil_r. split; [done|].
      unfold attempted. simpl. rewrite decide_False by done.
      apply elem_of_cons. by left.
    + repeat constructor. exists (re, r).
      split; [apply elem_of_cons; by left|done].
Qed.

(** The inner loop, over the entries of one list. *)
Lemma rangeAPIResources_spec fuel re rs errors (s : State) :
  ∃ w' evs errs,
    (rangeAPIResources fuel dynClient cb batchSize logWriter re rs errors s).2
      = (w', s.2 ++ evs) ∧
    accumulated evs errs ∧
    (∀ e', (rangeAPIResources fuel dynClient cb batchSize logWriter re rs
              errors s).1 = Returned e' →
           e' = errors ++ errs ∧
           Forall (attempted batchSize logWriter evs) (pair re <$> rs)) ∧
    Forall (permitted batchSize logWriter (pair re <$> rs)) evs.
Proof.
  revert errors s. induction rs as [|r rs IH]; intros errors s; simpl.
  { exists s.1, [], []. rewrite app_nil_r. destruct s.
    split_and!; [done|constructor| |done].
    intros ? [= <-]. by rewrite app_nil_r. }
  destruct (discoverResource_spec fuel re r errors s)
    as (w1 & evs1 & errs1 & Htr1 & Hacc1 & Hret1 & Hperm1).
  destruct (discoverResource fuel dynClient cb batchSize logWriter re r
              errors s) as [[e1|] s1] eqn:Hd; simpl in *.
  - destruct (Hret1 e1 eq_refl) as [-> Hatt1]. subst s1.
    destruct (IH (errors ++ errs1) (w1, s.2 ++ evs1))
      as (w2 & evs2 & errs2 & Htr2 & Hacc2 & Hret2 & Hperm2).
    exists w2, (evs1 ++ evs2), (errs1 ++ errs2).
    split_and!.
    + rewrite Htr2. simpl. by rewrite <- app_assoc.
    + by apply accumulated_app.
    + intros e' He'. destruct (Hret2 e' He') as [-> Hatt2].
      split; [by rewrite <- app_assoc|].
      constructor; [by apply attempted_app_l|].
      eapply Forall_impl; [exact Hatt2|]. intros. by apply attempted_app_r.
    + apply Forall_app. split.
      * eapply Forall_impl; [exact Hperm1|]. intros e.
        apply permitted_mono. intros x Hx. elem_cases Hx.
        apply elem_of_cons. by left.
      * eapply Forall_impl; [exact Hperm2|]. intros e.
        apply permitted_mono. intros x Hx. apply elem_of_cons. by right.
  - subst s1. exists w1, evs1, errs1.
    split_and!; [done|done|done|].
    eapply Forall_impl; [exact Hperm1|]. intros e.
    apply permitted_mono. intros x Hx. elem_cases Hx.
    apply elem_of_cons. by left.
Qed.

(** The outer loop, over the lists of the discovery result. *)
Lemma rangeLists_spec fuel sprl errors (s : State) :
  ∃ w' evs errs,
    (rangeLists fuel dynClient cb batchSize logWriter sprl errors s).2
      = (w', s.2 ++ evs) ∧
    accumulated evs errs ∧
    (∀ e', (rangeLists fuel dynClient cb batchSize logWriter sprl errors s).1
           = Returned e' →
           e' = errors ++ errs ∧
           Forall (attempted batchSize logWriter evs) (entries sprl)) ∧
    Forall (permitted batchSize logWriter (entries sprl)) evs.
Proof.
  revert errors s. induction sprl as [|re sprl IH]; intros errors s; simpl.
  { exists s.1, [], []. rewrite app_nil_r. destruct s.
    split_and!; [done|constructor| |done].
    intros ? [= <-]. by rewrite app_nil_r. }
  destruct (rangeAPIResources_spec fuel re (APIResources re) errors s)
    as (w1 & evs1 & errs1 & Htr1 & Hacc1 & Hret1 & Hperm1).
  change (entries (re :: sprl))
    with ((pair re <$> APIResources re) ++ entries sprl).
  destruct (rangeAPIResources fuel dynClient cb batchSize logWriter re
              (APIResources re) errors s) as [[e1|] s1] eqn:Hd; simpl in *.
  - destruct (Hret1 e1 eq_refl) as [-> Hatt1]. subst s1.
    destruct (IH (errors ++ errs1) (w1, s.2 ++ evs1))
      as (w2 & evs2 & errs2 & Htr2 & Hacc2 & Hret2 & Hperm2).
    exists w2, (evs1 ++ evs2), (errs1 ++ errs2).
    split_and!.
    + rewrite Htr2. simpl. by rewrite <- app_assoc.
    + by apply accumulated_app.
    + intros e' He'. destruct (Hret2 e' He') as [-> Hatt2].
      split; [by rewrite <- app_assoc|].
      apply Forall_app. split.
      * eapply Forall_impl; [exact Hatt1|]. intros. by apply attempted_app_l.
      * eapply Forall_impl; [exact Hatt2|]. intros. by apply attempted_app_r.
    + apply Forall_app. split.
      * eapply Forall_impl; [exact Hperm1|]. intros e.
        apply permitted_mono. intros x Hx. apply elem_of_app. by left.
      * eapply Forall_impl; [exact Hperm2|]. intros e.
        apply permitted_mono. intros x Hx. apply elem_of_app. by right.
  - subst s1. exists w1, evs1, errs1.
    split_and!; [done|done|done|].
    eapply Forall_impl; [exact Hperm1|]. intros e.
    apply permitted_mono. intros x Hx. apply elem_of_app. by left.
Qed.

(** More fuel does not change a run that returned. *)
Lemma paginate_mono n m res key errors (s : State) e s' :
  n ≤ m →
  paginate n dynClient cb batchSize res key errors s = (Returned e, s') →
  paginate m dynClient cb batchSize res key errors s = (Returned e, s').
Proof.
  revert m key errors s. induction n as [|n IH]; intros m key errors s Hnm;
    [done|].
  destruct m as [|m]; [lia|]. simpl.
  destruct (List dynClient res _ s.1) as [[err|l] w1]; [done|].
  destruct (cb l _) as [rc w2]. case_decide; [done|].
  apply IH. lia.
Qed.

Lemma discoverResource_mono n m re r errors (s : State) e s' :
  n ≤ m →
  discoverResource n dynClient cb batchSize logWriter re r errors s
  = (Returned e, s') →
  discoverResource m dynClient cb batchSize logWriter re r errors s
  = (Returned e, s').
Proof.
  intros Hnm. unfold discoverResource.
  destruct (negb _); [done|]. by apply paginate_mono.
Qed.

Lemma rangeAPIResources_mono n m re rs errors (s : State) e s' :
  n ≤ m →
  rangeAPIResources n dynClient cb batchSize logWriter re rs errors s
  = (Returned e, s') →
  rangeAPIResources m dynClient cb batchSize logWriter re rs errors s
  = (Returned e, s').
Proof.
  intros Hnm. revert errors s.
  induction rs as [|r rs IH]; intros errors s; simpl; [done|].
  destruct (discoverResource n _ _ _ _ _ _ _ _) as [[e1|] s1] eqn:Hd;
    [|done].
  rewrite (discoverResource_mono _ _ _ _ _ _ _ _ Hnm Hd). apply IH.
Qed.

Lemma rangeLists_mono n m sprl errors (s : State) e s' :
  n ≤ m →
  rangeLists n dynClient cb batchSize logWriter sprl errors s
  = (Returned e, s') →
  rangeLists m dynClient cb batchSize logWriter sprl errors s
  = (Returned e, s').
Proof.
  intros Hnm. revert errors s.
  induction sprl as [|re sprl IH]; intros errors s; simpl; [done|].
  destruct (rangeAPIResources n _ _ _ _ _ _ _ _) as [[e1|] s1] eqn:Hd;
    [|done].
  rewrite (rangeAPIResources_mono _ _ _ _ _ _ _ _ Hnm Hd). apply IH.
Qed.

Lemma rangeAPIResources_returns re rs errors (s : State) :
  drains dynClient cb batchSize →
  ∃ n e s', rangeAPIResources n dynClient cb batchSize logWriter re rs
              errors s = (Returned e, s').
Proof.
  intros Hd. revert errors s.
  induction rs as [|r rs IH]; intros errors s; simpl.
  { exists 0, errors, s. done. }
  assert (∃ n1 e1 s1,
            discoverResource n1 dynClient cb batchSize logWriter re r errors s
            = (Returned e1, s1)) as (n1 & e1 & s1 & H1).
  { unfold discoverResource. destruct (negb _).
    - exists 0. eauto.
    - destruct (Hd (resourceOf re r) errors s) as [n Hn]. exists n.
      destruct (paginate n _ _ _ _ _ _ _) as [[e1|] s1]; [eauto|done]. }
  destruct (IH e1 s1) as (n2 & e2 & s2 & H2).
  exists (n1 `max` n2), e2, s2.
  assert (n1 ≤ n1 `max` n2) as Hm1 by lia.
  rewrite (discoverResource_mono _ _ _ _ _ _ _ _ Hm1 H1).
  apply (rangeAPIResources_mono n2); [lia|done].
Qed.

Lemma rangeLists_returns sprl errors (s : State) :
  drains dynClient cb batchSize →
  ∃ n e s', rangeLists n dynClient cb batchSize logWriter sprl errors s
            = (Returned e, s').
Proof.
  intros Hd. revert errors s.
  induction sprl as [|re sprl IH]; intros errors s; simpl.
  { exists 0, errors, s. done. }
  destruct (rangeAPIResources_returns re (APIResources re) errors s Hd)
    as (n1 & e1 & s1 & H1).
  destruct (IH e1 s1) as (n2 & e2 & s2 & H2).
  exists (n1 `max` n2), e2, s2.
  assert (n1 ≤ n1 `max` n2) as Hm1 by lia.
  rewrite (rangeAPIResources_mono _ _ _ _ _ _ _ _ Hm1 H1).
  apply (rangeLists_mono n2); [lia|done].
Qed.

(** The listing adds log lines and nothing else. *)
Lemma logKinds_trace rs (s : @State W U) :
  logKinds logWriter rs s
  = (s.1, s.2 ++ ((λ r, EvLog logWriter ("  " +:+ " " +:+ Kind r +:+ nl))
                    <$> rs)).
Proof.
  revert s. induction rs as [|r rs IH]; intros [w tr]; simpl.
  - by rewrite app_nil_r.
  - rewrite IH. simpl. by rewrite <- app_assoc.
Qed.

Lemma logDiscovered_lines sprl (s : @State W U) :
  logDiscovered logWriter sprl s
  = (s.1, s.2 ++ (sprl ≫= λ re,
                    EvLog logWriter (GroupVersion re +:+ nl)
                    :: ((λ r, EvLog logWriter
                                ("  " +:+ " " +:+ Kind r +:+ nl))
                          <$> APIResources re))).
Proof.
  revert s. induction sprl as [|re sprl IH]; intros [w tr]; simpl.
  - by rewrite app_nil_r.
  - rewrite logKinds_trace. simpl. rewrite IH. simpl.
    by rewrite <- !app_assoc.
Qed.

Lemma logDiscovered_trace sprl (s : @State W U) :
  logDiscovered logWriter sprl (Fprintln logWriter ["Discovered resources:"] s)
  = (s.1, s.2 ++ listing logWriter sprl).
Proof.
  rewrite logDiscovered_lines. unfold listing, Fprintln. simpl.
  by rewrite <- app_assoc.
Qed.

Lemma accumulated_listing sprl :
  accumulated (listing (U:=U) logWriter sprl) [].
Proof.
  unfold listing. constructor.
  induction sprl as [|re sprl IH]; simpl; [constructor|].
  constructor. induction (APIResources re); simpl; [done|].
  by constructor.
Qed.

End driver.

Section run.
Context {W U : Type} `{!Cluster W U}.

(** *** Facts about [accumulated] and [Combine] *)

Lemma accumulated_no_error (evs : list (Event U)) errs :
  accumulated evs errs → errs = [] ↔ ∀ e, e ∈ evs → failed e = false.
Proof.
  induction 1 as [|w t evs errs _ IH|r evs errs _ IH|res o err evs errs _ IH
                  |res o l evs errs _ IH|res o l err evs errs _ IH].
  - split; [|done]. by intros _ e ?%elem_of_nil.
  - rewrite IH. split; intros Hall e He.
    + elem_cases He; [done|auto].
    + apply Hall. apply elem_of_cons. by right.
  - rewrite IH. split; intros Hall e He.
    + elem_cases He; [done|auto].
    + apply Hall. apply elem_of_cons. by right.
  - split; [done|]. intros Hall.
    specialize (Hall (EvList res o (inl err))). simpl in Hall.
    discriminate Hall. apply elem_of_cons. by left.
  - rewrite IH. split; intros Hall e He.
    + elem_cases He; [done|done|auto].
    + apply Hall. do 2 (apply elem_of_cons; right). done.
  - split; [done|]. intros Hall.
    specialize (Hall (EvCallback l (Some err))). simpl in Hall.
    discriminate Hall. apply elem_of_cons. right. apply elem_of_cons. by left.
Qed.

Lemma accumulated_count (evs : list (Event U)) errs :
  accumulated evs errs → length errs = length (filter (λ e, failed e) evs).
Proof.
  induction 1; simpl; rewrite ?filter_cons; simpl; auto.
Qed.

Lemma accumulated_callback (evs : list (Event U)) errs i res o l :
  accumulated evs errs →
  evs !! i = Some (EvList res o (inr l)) →
  ∃ rc, evs !! S i = Some (EvCallback l rc).
Proof.
  intros Hacc. revert i.
  induction Hacc as [|w t evs errs _ IH|r evs errs _ IH|res' o' err evs errs _ IH
                     |res' o' l' evs errs _ IH|res' o' l' err evs errs _ IH];
    intros i Hi.
  - done.
  - destruct i as [|i]; [done|]. apply (IH i Hi).
  - destruct i as [|i]; [done|]. apply (IH i Hi).
  - destruct i as [|i]; [done|]. apply (IH i Hi).
  - destruct i as [|[|i]]; simplify_eq/=; [eauto|]. apply (IH i Hi).
  - destruct i as [|[|i]]; simplify_eq/=; [eauto|]. apply (IH i Hi).
Qed.

(** The errors of a run are made by [fmt.Errorf], so that combining
    them splices nothing. *)
Lemma accumulated_flat (evs : list (Event U)) errs :
  accumulated evs errs → concat (multierr.flatten <$> errs) = errs.
Proof. induction 1; simpl; by f_equal. Qed.

Lemma accumulated_Combine (evs : list (Event U)) errs :
  accumulated evs errs →
  multierr.Combine errs = match errs with
                          | [] => None
                          | [e] => Some e
                          | _ => Some (multiError errs)
                          end.
Proof.
  intros Hacc. pose proof (accumulated_flat _ _ Hacc) as Hflat.
  destruct errs as [|e1 [|e2 errs]]; [done..|].
  unfold multierr.Combine. by rewrite Hflat.
Qed.

(** *** A run of [DiscoverObjects] past the discovery query *)
Lemma DiscoverObjects_spec fuel conf (cb : Callback W U) opts (s : State)
  dc dynClient sprl w1 :
  NewDiscoveryClientForConfig conf = inr dc →
  NewForConfig conf = inr dynClient →
  ServerPreferredResources dc s.1 = (inr sprl, w1) →
  ∃ w' evs errs,
    (DiscoverObjects fuel conf cb opts s).2
      = (w', s.2 ++ EvServerPreferredResources (inr sprl)
                    :: listing (GetLogWriter opts) sprl ++ evs) ∧
    accumulated evs errs ∧
    Forall (permitted (GetBatchSize opts) (GetLogWriter opts) (entries sprl))
      evs ∧
    (∀ ret, (DiscoverObjects fuel conf cb opts s).1 = Returned ret →
            ret = multierr.Combine errs ∧
            Forall (attempted (GetBatchSize opts) (GetLogWriter opts) evs)
              (entries sprl)).
Proof.
  intros Hdc Hdyn Hsprl. unfold DiscoverObjects.
  rewrite Hdc, Hdyn, Hsprl. rewrite logDiscovered_trace. simpl.
  destruct (rangeLists_spec dynClient cb (GetBatchSize opts)
              (GetLogWriter opts) fuel sprl []
              (w1, (s.2 ++ [EvServerPreferredResources (inr sprl)])
                   ++ listing (GetLogWriter opts) sprl))
    as (w' & evs & errs & Htr & Hacc & Hret & Hperm).
  destruct (rangeLists fuel _ _ _ _ _ _ _) as [[e|] s4]; simpl in *;
    subst s4; exists w', evs, errs.
  - split_and!; [by rewrite <- !app_assoc|done|done|].
    intros ret [= <-]. destruct (Hret e eq_refl) as [-> Hatt]. done.
  - split_and!; [by rewrite <- !app_assoc|done|done|done].
Qed.

(** C9. A resource type without the verb "list" is skipped: the loop
    body for it writes the skip notice to the log writer and does
    nothing else, so it issues no list call and leaves the errors as
    they were.  In a run of [DiscoverObjects], whatever the bound, every
    list call is for an entry of the discovery result that has the
    verb; and when the run returns, the skip notice of every entry
    without it is in the trace.  The run does return when the
    pagination of every resource ends, with those notices written, and
    the errors it combines are those of the list calls and callbacks
    that failed and no other. *)
Theorem skips_resources_without_list_verb :
  (∀ fuel dynClient (cb : Callback W U) batchSize logWriter re r errors
     (s : State),
      ¬ listable r →
      discoverResource fuel dynClient cb batchSize logWriter re r errors s
      = (Returned errors,
         (s.1, s.2 ++ [EvLog logWriter (skipNotice (resourceOf re r))]))) ∧
  (∀ fuel conf (cb : Callback W U) opts (s : State) dc dynClient sprl w1,
      NewDiscoveryClientForConfig conf = inr dc →
      NewForConfig conf = inr dynClient →
      ServerPreferredResources dc s.1 = (inr sprl, w1) →
      ∃ w' evs,
        (DiscoverObjects fuel conf cb opts s).2
          = (w', s.2 ++ EvServerPreferredResources (inr sprl)
                        :: listing (GetLogWriter opts) sprl ++ evs) ∧
        (∀ res o r, EvList res o r ∈ evs →
                    ∃ x, x ∈ entries sprl ∧ listable x.2 ∧
                         res = resourceOf x.1 x.2) ∧
        (∀ ret, (DiscoverObjects fuel conf cb opts s).1 = Returned ret →
                ∀ x, x ∈ entries sprl → ¬ listable x.2 →
                     EvLog (GetLogWriter opts)
                       (skipNotice (resourceOf x.1 x.2)) ∈ evs)) ∧
  (∀ conf (cb : Callback W U) opts (s : State) dc dynClient sprl w1,
      NewDiscoveryClientForConfig conf = inr dc →
      NewForConfig conf = inr dynClient →
      ServerPreferredResources dc s.1 = (inr sprl, w1) →
      drains dynClient cb (GetBatchSize opts) →
      ∃ fuel w' evs errs,
        DiscoverObjects fuel conf cb opts s
        = (Returned (multierr.Combine errs),
           (w', s.2 ++ EvServerPreferredResources (inr sprl)
                       :: listing (GetLogWriter opts) sprl ++ evs)) ∧
        accumulated evs errs ∧
        (∀ res o r, EvList res o r ∈ evs →
                    ∃ x, x ∈ entries sprl ∧ listable x.2 ∧
                         res = resourceOf x.1 x.2) ∧
        (∀ x, x ∈ entries sprl → ¬ listable x.2 →
              EvLog (GetLogWriter opts)
                (skipNotice (resourceOf x.1 x.2)) ∈ evs)).
Proof.
  split_and!.
  - intros fuel dynClient cb batchSize logWriter re r errors s Hn.
    unfold discoverResource.
    destruct (Contains (Verbs r) "list") eqn:Hv; [|done].
    by apply Contains_spec in Hv.
  - intros fuel conf cb opts s dc dynClient sprl w1 Hdc Hdyn Hsprl.
    destruct (DiscoverObjects_spec fuel conf cb opts s _ _ _ _ Hdc Hdyn Hsprl)
      as (w' & evs & errs & Htr & Hacc & Hperm & Hret).
    exists w', evs. split_and!; [done| |].
    + intros res o r Hin.
      rewrite Forall_forall in Hperm. apply Hperm in Hin as [_ Hx]. done.
    + intros ret Hr x Hx Hn. destruct (Hret ret Hr) as [_ Hatt].
      rewrite Forall_forall in Hatt. specialize (Hatt x Hx).
      unfold attempted in Hatt. by rewrite decide_False in Hatt.
  - intros conf cb opts s dc dynClient sprl w1 Hdc Hdyn Hsprl Hd.
    assert (∃ fuel ret s', DiscoverObjects fuel conf cb opts s
                           = (Returned ret, s')) as (fuel & ret & s' & Hrun).
    { unfold DiscoverObjects. rewrite Hdc, Hdyn, Hsprl.
      match goal with
      | |- context [rangeLists _ ?d ?c ?b ?lw ?l ?e ?st] =>
          destruct (rangeLists_returns d c b lw l e st Hd)
            as (n & e1 & s1 & Hn)
      end.
      exists n. rewrite Hn. eauto. }
    destruct (DiscoverObjects_spec fuel conf cb opts s _ _ _ _ Hdc Hdyn Hsprl)
      as (w' & evs & errs & Htr & Hacc & Hperm & Hret).
    rewrite Hrun in Htr, Hret. cbn [fst snd] in Htr, Hret.
    destruct (Hret ret eq_refl) as [-> Hatt].
    exists fuel, w', evs, errs. rewrite Hrun, Htr. split_and!; [done..| |].
    + intros res o r Hin.
      rewrite Forall_forall in Hperm. apply Hperm in Hin as [_ Hx]. done.
    + intros x Hx Hn. rewrite Forall_forall in Hatt. specialize (Hatt x Hx).
      unfold attempted in Hatt. by rewrite decide_False in Hatt.
Qed.

(** C5. A list call that fails ends the pagination of its resource
    type: the failure is appended to the errors and the loop returns
    with that one call in the trace, whatever bound is left, so there
    is no retry.  The inner loop goes on with the entries that follow;
    and a run of [DiscoverObjects] that returns has attempted every
    entry of the discovery result, whichever list calls failed. *)
Theorem failed_list_call_abandons_type_only :
  (∀ fuel dynClient (cb : Callback W U) batchSize res key errors
     (s : State) err w1,
      List dynClient res {| Limit := batchSize; Continue := key |} s.1
      = (inl err, w1) →
      paginate (S fuel) dynClient cb batchSize res key errors s
      = (Returned (errors ++ [listError res err]),
         (w1, s.2 ++ [EvList res {| Limit := batchSize; Continue := key |}
                        (inl err)]))) ∧
  (∀ fuel dynClient (cb : Callback W U) batchSize logWriter re r rs errors
     (s : State) err w1,
      listable r →
      List dynClient (resourceOf re r)
        {| Limit := batchSize; Continue := "" |} s.1 = (inl err, w1) →
      rangeAPIResources (S fuel) dynClient cb batchSize logWriter re
        (r :: rs) errors s
      = rangeAPIResources (S fuel) dynClient cb batchSize logWriter re rs
          (errors ++ [listError (resourceOf re r) err])
          (w1, s.2 ++ [EvList (resourceOf re r)
                         {| Limit := batchSize; Continue := "" |}
                         (inl err)])) ∧
  (∀ fuel conf (cb : Callback W U) opts (s : State) dc dynClient sprl w1
     ret s',
      NewDiscoveryClientForConfig conf = inr dc →
      NewForConfig conf = inr dynClient →
      ServerPreferredResources dc s.1 = (inr sprl, w1) →
      DiscoverObjects fuel conf cb opts s = (Returned ret, s') →
      ∃ evs,
        s'.2 = s.2 ++ EvServerPreferredResources (inr sprl)
                      :: listing (GetLogWriter opts) sprl ++ evs ∧
        ∀ x, x ∈ entries sprl →
             attempted (GetBatchSize opts) (GetLogWriter opts) evs x).
Proof.
  split_and!.
  - intros fuel dynClient cb batchSize res key errors s err w1 HL.
    simpl. by rewrite HL.
  - intros fuel dynClient cb batchSize logWriter re r rs errors s err w1
      Hl HL.
    cbn [rangeAPIResources]. unfold discoverResource.
    apply Contains_spec in Hl. rewrite Hl. simpl. by rewrite HL.
  - intros fuel conf cb opts s dc dynClient sprl w1 ret s'
      Hdc Hdyn Hsprl Hrun.
    destruct (DiscoverObjects_spec fuel conf cb opts s _ _ _ _ Hdc Hdyn Hsprl)
      as (w' & evs & errs & Htr & Hacc & Hperm & Hret).
    rewrite Hrun in Htr, Hret. simpl in *. exists evs.
    split; [by rewrite Htr|].
    destruct (Hret ret eq_refl) as [_ Hatt].
    by rewrite Forall_forall in Hatt.
Qed.

Lemma accumulated_wrapped (evs : list (Event U)) errs :
  accumulated evs errs →
  Forall (λ e, ∃ format args cause, e = Errorf format args cause) errs.
Proof.
  induction 1; try done; constructor; try done;
    unfold listError, dumpError; eauto.
Qed.

Lemma accumulated_reported (evs : list (Event U)) errs e :
  accumulated evs errs → e ∈ errs →
  dumper_spec.reported (multierr.Combine errs) e.
Proof.
  intros Hacc He. rewrite (accumulated_Combine _ _ Hacc).
  pose proof (accumulated_wrapped _ _ Hacc) as Hw.
  destruct errs as [|e1 [|e2 errs]].
  - by apply elem_of_nil in He.
  - apply list_elem_of_singleton in He as ->.
    apply Forall_inv in Hw as (format & args & cause & ->). done.
  - done.
Qed.

Lemma accumulated_callback_failure (evs : list (Event U)) errs l err :
  accumulated evs errs →
  EvCallback l (Some err) ∈ evs →
  ∃ res, dumpError res err ∈ errs.
Proof.
  induction 1 as [|w t evs errs _ IH|r evs errs _ IH|res o err' evs errs _ IH
                  |res o l' evs errs _ IH|res o l' err' evs errs _ IH];
    intros Hin.
  - by apply elem_of_nil in Hin.
  - apply elem_of_cons in Hin as [?|Hin]; [done|]. by apply IH.
  - apply elem_of_cons in Hin as [?|Hin]; [done|]. by apply IH.
  - apply elem_of_cons in Hin as [?|Hin]; [done|].
    destruct (IH Hin) as [res' Hres]. exists res'.
    apply elem_of_cons. by right.
  - apply elem_of_cons in Hin as [?|Hin]; [done|].
    apply elem_of_cons in Hin as [?|Hin]; [done|]. by apply IH.
  - apply elem_of_cons in Hin as [?|Hin]; [done|].
    apply elem_of_cons in Hin as [Heq|Hin].
    + injection Heq as -> ->. exists res. apply elem_of_cons. by left.
    + destruct (IH Hin) as [res' Hres]. exists res'.
      apply elem_of_cons. by right.
Qed.

(** C6. After a list call that succeeds the callback is called with the
    page it returned, whatever the page holds, and so with an empty
    page too.  When the callback fails and the page has a cursor, the
    failure is appended to the errors and the next event is the list
    call with that cursor.  One iteration of the loop, whatever the
    callback returns: its failure, if any, is appended to the errors;
    with an empty cursor the loop returns those errors, and otherwise
    it goes on from the cursor of the page with them.  In a run of
    [DiscoverObjects], whatever the bound, every list call that
    succeeded is directly followed by the callback on its page; and
    when the run returns, the error it returns holds the failure of
    every callback that failed, on a last page as on any other.  And
    the run does return, with these two properties, when the pagination
    of every resource ends. *)
Theorem callback_after_every_page :
  (∀ fuel dynClient (cb : Callback W U) batchSize res key errors
     (s : State) l w1,
      List dynClient res {| Limit := batchSize; Continue := key |} s.1
      = (inr l, w1) →
      ∃ w' evs',
        (paginate (S fuel) dynClient cb batchSize res key errors s).2
        = (w', s.2 ++ EvList res {| Limit := batchSize; Continue := key |}
                        (inr l)
                      :: EvCallback l (cb l w1).1 :: evs')) ∧
  (∀ fuel dynClient (cb : Callback W U) batchSize res key errors
     (s : State) l w1 err w2,
      List dynClient res {| Limit := batchSize; Continue := key |} s.1
      = (inr l, w1) →
      cb l w1 = (Some err, w2) →
      GetContinue l ≠ "" →
      ∃ w' r' evs',
        (paginate (S (S fuel)) dynClient cb batchSize res key errors s).2
        = (w', s.2 ++ EvList res {| Limit := batchSize; Continue := key |}
                        (inr l)
                      :: EvCallback l (Some err)
                      :: EvList res {| Limit := batchSize;
                                       Continue := GetContinue l |} r'
                      :: evs') ∧
        ∀ e', (paginate (S (S fuel)) dynClient cb batchSize res key errors
                 s).1 = Returned e' →
              ∃ more, e' = errors ++ dumpError res err :: more) ∧
  (∀ fuel dynClient (cb : Callback W U) batchSize res key errors
     (s : State) l w1 rc w2,
      List dynClient res {| Limit := batchSize; Continue := key |} s.1
      = (inr l, w1) →
      cb l w1 = (rc, w2) →
      paginate (S fuel) dynClient cb batchSize res key errors s
      = let errors' := match rc with
                       | Some err => errors ++ [dumpError res err]
                       | None => errors
                       end in
        let s2 : State :=
          (w2, s.2 ++ [EvList res {| Limit := batchSize; Continue := key |}
                         (inr l);
                       EvCallback l rc]) in
        if decide (GetContinue l = "") then (Returned errors', s2)
        else paginate fuel dynClient cb batchSize res (GetContinue l)
               errors' s2) ∧
  (∀ fuel conf (cb : Callback W U) opts (s : State) dc dynClient sprl w1,
      NewDiscoveryClientForConfig conf = inr dc →
      NewForConfig conf = inr dynClient →
      ServerPreferredResources dc s.1 = (inr sprl, w1) →
      ∃ w' evs,
        (DiscoverObjects fuel conf cb opts s).2
          = (w', s.2 ++ EvServerPreferredResources (inr sprl)
                        :: listing (GetLogWriter opts) sprl ++ evs) ∧
        (∀ i res o l, evs !! i = Some (EvList res o (inr l)) →
                      ∃ rc, evs !! S i = Some (EvCallback l rc)) ∧
        (∀ ret, (DiscoverObjects fuel conf cb opts s).1 = Returned ret →
                ∀ l err, EvCallback l (Some err) ∈ evs →
                         ∃ res, dumper_spec.reported ret
                                  (dumpError res err))) ∧
  (∀ conf (cb : Callback W U) opts (s : State) dc dynClient sprl w1,
      NewDiscoveryClientForConfig conf = inr dc →
      NewForConfig conf = inr dynClient →
      ServerPreferredResources dc s.1 = (inr sprl, w1) →
      drains dynClient cb (GetBatchSize opts) →
      ∃ fuel ret w' evs,
        DiscoverObjects fuel conf cb opts s
        = (Returned ret,
           (w', s.2 ++ EvServerPreferredResources (inr sprl)
                       :: listing (GetLogWriter opts) sprl ++ evs)) ∧
        (∀ i res o l, evs !! i = Some (EvList res o (inr l)) →
                      ∃ rc, evs !! S i = Some (EvCallback l rc)) ∧
        (∀ l err, EvCallback l (Some err) ∈ evs →
                  ∃ res, dumper_spec.reported ret (dumpError res err))).
Proof.
  split_and!.
  - intros fuel dynClient cb batchSize res key errors s l w1 HL.
    cbn [paginate]. rewrite HL. simpl.
    destruct (cb l w1) as [rc w2]. simpl.
    case_decide.
    + exists w2, []. simpl. by rewrite <- app_assoc.
    + match goal with
      | |- context [paginate fuel ?d ?c ?b ?r ?k ?e ?st] =>
          destruct (paginate_spec d c b fuel r k e st)
            as (w' & evs & _ & Htr & _)
      end.
      exists w', evs. rewrite Htr. simpl. by rewrite <- !app_assoc.
  - intros fuel dynClient cb batchSize res key errors s l w1 err w2
      HL Hcb Hc.
    remember (S fuel) as n eqn:Hn.
    cbn [paginate]. rewrite HL. simpl. rewrite Hcb. simpl.
    rewrite decide_False by done.
    match goal with
    | |- context [paginate n ?d ?c ?b ?r ?k ?e ?st] =>
        destruct (paginate_spec d c b n r k e st)
          as (w' & evs & errs & Htr & _ & Hret & _ & _ & Hfirst)
    end.
    destruct Hfirst as (r' & evs' & ->); [lia|].
    exists w', r', evs'. split.
    + rewrite Htr. simpl. by rewrite <- !app_assoc.
    + intros e' He'. exists errs. rewrite (Hret e' He').
      by rewrite <- app_assoc.
  - intros fuel dynClient cb batchSize res key errors s l w1 rc w2 HL Hcb.
    cbn [paginate]. rewrite HL. cbn [fst snd]. rewrite Hcb. cbn [fst snd].
    by rewrite <- !app_assoc.
  - intros fuel conf cb opts s dc dynClient sprl w1 Hdc Hdyn Hsprl.
    destruct (DiscoverObjects_spec fuel conf cb opts s _ _ _ _ Hdc Hdyn Hsprl)
      as (w' & evs & errs & Htr & Hacc & Hperm & Hret).
    exists w', evs. split_and!; [done| |].
    + intros i res o l Hi. by eapply accumulated_callback.
    + intros ret Hr l err Hin. destruct (Hret ret Hr) as [-> _].
      destruct (accumulated_callback_failure _ _ _ _ Hacc Hin) as [res Hres].
      exists res. by eapply accumulated_reported.
  - intros conf cb opts s dc dynClient sprl w1 Hdc Hdyn Hsprl Hd.
    assert (∃ fuel ret s', DiscoverObjects fuel conf cb opts s
                           = (Returned ret, s')) as (fuel & ret & s' & Hrun).
    { unfold DiscoverObjects. rewrite Hdc, Hdyn, Hsprl.
      match goal with
      | |- context [rangeLists _ ?d ?c ?b ?lw ?l ?e ?st] =>
          destruct (rangeLists_returns d c b lw l e st Hd)
            as (n & e1 & s1 & Hn)
      end.
      exists n. rewrite Hn. eauto. }
    destruct (DiscoverObjects_spec fuel conf cb opts s _ _ _ _ Hdc Hdyn Hsprl)
      as (w' & evs & errs & Htr & Hacc & Hperm & Hret).
    rewrite Hrun in Htr, Hret. cbn [fst snd] in Htr, Hret.
    destruct (Hret ret eq_refl) as [-> Hatt].
    exists fuel, (multierr.Combine errs), w', evs. rewrite Hrun, Htr.
    split_and!; [done| |].
    + intros i res o l Hi. by eapply accumulated_callback.
    + intros l err Hin.
      destruct (accumulated_callback_failure _ _ _ _ Hacc Hin) as [res Hres].
      exists res. by eapply accumulated_reported.
Qed.

(** C7. A run of [DiscoverObjects] that got its discovery result and
    returns has attempted every entry of that result, and what it
    returns is the combination of the errors of all the list calls and
    callbacks that failed, in the order of the calls: nil when there is
    none, the error itself when there is one, one error holding all of
    them otherwise.  So it returns nil exactly when no call failed.
    And the run does return when the pagination of every resource
    ends. *)
Theorem DiscoverObjects_returns_combined_errors conf (cb : Callback W U)
  opts (s : State) dc dynClient sprl w1 :
  NewDiscoveryClientForConfig conf = inr dc →
  NewForConfig conf = inr dynClient →
  ServerPreferredResources dc s.1 = (inr sprl, w1) →
  (∀ fuel ret s',
      DiscoverObjects fuel conf cb opts s = (Returned ret, s') →
      ∃ evs errs,
        s'.2 = s.2 ++ EvServerPreferredResources (inr sprl)
                      :: listing (GetLogWriter opts) sprl ++ evs ∧
        accumulated evs errs ∧
        (∀ x, x ∈ entries sprl →
              attempted (GetBatchSize opts) (GetLogWriter opts) evs x) ∧
        ret = match errs with
              | [] => None
              | [e] => Some e
              | _ => Some (multiError errs)
              end ∧
        length errs = length (filter (λ e, failed e) evs) ∧
        (ret = None ↔ errs = []) ∧
        (ret = None ↔ ∀ e, e ∈ evs → failed e = false)) ∧
  (drains dynClient cb (GetBatchSize opts) →
   ∃ fuel ret s', DiscoverObjects fuel conf cb opts s = (Returned ret, s')).
Proof.
  intros Hdc Hdyn Hsprl. split.
  - intros fuel ret s' Hrun.
    destruct (DiscoverObjects_spec fuel conf cb opts s _ _ _ _ Hdc Hdyn Hsprl)
      as (w' & evs & errs & Htr & Hacc & Hperm & Hret).
    rewrite Hrun in Htr, Hret. simpl in *.
    destruct (Hret ret eq_refl) as [-> Hatt].
    exists evs, errs. split_and!.
    + by rewrite Htr.
    + done.
    + by rewrite Forall_forall in Hatt.
    + by apply (accumulated_Combine evs).
    + by apply accumulated_count.
    + apply Combine_None.
    + rewrite Combine_None. by apply accumulated_no_error.
  - intros Hd. unfold DiscoverObjects. rewrite Hdc, Hdyn, Hsprl.
    match goal with
    | |- context [rangeLists _ ?d ?c ?b ?lw ?l ?e ?st] =>
        destruct (rangeLists_returns d c b lw l e st Hd)
          as (n & e1 & s1 & Hn)
    end.
    exists n. rewrite Hn. eauto.
Qed.

End run.

(** *** The theorems on the example cluster *)
Section on_example.
Import examples.
#[local] Existing Instance cluster.

Lemma failed_list_call_abandons_type_only_witness :
  paginate 4 () sink 2 (resourceOf apps deployments) "" [] start
  = (Returned
       ([] ++ [listError (resourceOf apps deployments)
                 (ErrExternal "deployments.apps is forbidden")]),
     ([], start.2 ++ [EvList (resourceOf apps deployments)
                        {| Limit := 2; Continue := "" |}
                        (inl (ErrExternal "deployments.apps is forbidden"))]))
  ∧ ∃ evs,
      (DiscoverObjects 5 () sink options start).2.2
      = start.2 ++ EvServerPreferredResources (inr discovered)
                   :: listing (GetLogWriter options) discovered ++ evs ∧
      ∀ x, x ∈ entries discovered →
           attempted (GetBatchSize options) (GetLogWriter options) evs x.
Proof.
  destruct (@failed_list_call_abandons_type_only _ _ cluster)
    as (H1 & H2 & H3).
  split.
  - apply (H1 3 () sink 2%Z (resourceOf apps deployments) "" [] start).
    reflexivity.
  - eapply (H3 5 () sink options start () () discovered []);
      [reflexivity..|].
    vm_compute. reflexivity.
Defined.

End on_example.

End discovery_driver.

(** ** Pagination against the paginating server *)
Module pagination.
Import schema metav1 unstructured discovery discovery_spec apiserver.

Lemma token_length n : String.length (token n) = n.
Proof. induction n as [|n IH]; simpl; [done|]. by rewrite IH. Qed.

Lemma token_empty n : token n = "" ↔ n = 0.
Proof. destruct n; simpl; split; done. Qed.

Lemma servePage_Items {U : Type} (coll : list U) limit k :
  (1 ≤ limit)%Z →
  Items (servePage coll limit (token k))
  = take (Z.to_nat limit) (drop k coll).
Proof.
  intros Hl. unfold servePage, position. rewrite token_length.
  by rewrite decide_False by lia.
Qed.

Lemma servePage_GetContinue {U : Type} (coll : list U) limit k :
  (1 ≤ limit)%Z →
  GetContinue (servePage coll limit (token k))
  = if decide (k + Z.to_nat limit < length coll)
    then token (k + Z.to_nat limit) else "".
Proof.
  intros Hl. unfold servePage, position. rewrite token_length.
  by rewrite decide_False by lia.
Qed.

Lemma callsFor_last n b : 0 < b → n ≤ b → callsFor n b = 1.
Proof.
  intros Hb Hn. unfold callsFor, ceilDiv.
  destruct (decide (n = 0)) as [->|Hn0].
  - rewrite Nat.div_small by lia. done.
  - assert ((n + b - 1) / b = 1) as ->; [|done].
    symmetry. apply Nat.div_unique with (r := n - 1); lia.
Qed.

Lemma callsFor_step n b : 0 < b → b < n → callsFor n b = S (callsFor (n - b) b).
Proof.
  intros Hb Hn. unfold callsFor, ceilDiv.
  replace (n + b - 1) with ((n - b + b - 1) + 1 * b) by lia.
  rewrite Nat.div_add by lia.
  assert (1 ≤ (n - b + b - 1) / b).
  { apply Nat.div_le_lower_bound; lia. }
  lia.
Qed.

Lemma callsFor_pos n b : 1 ≤ callsFor n b.
Proof. unfold callsFor. lia. Qed.

Section paged.
Context {W U : Type}.
Variable sprl : error + list APIResourceList.
Variable backing : GroupVersionResource → error + list U.
Variable cb : Callback W U.
Variable res : GroupVersionResource.
Variable coll : list U.
Variable batchSize : Z.
Hypothesis Hbacking : backing res = inr coll.
Hypothesis Hbatch : (1 ≤ batchSize)%Z.

(** The loop started at the position [k] of the collection. *)
Lemma paginate_from fuel k errors (s : @State W U) :
  k = 0 ∨ k < length coll →
  callsFor (length coll - k) (Z.to_nat batchSize) ≤ fuel →
  ∃ errs' w' evs,
    @paginate W U (pagedCluster W U sprl backing) fuel () cb batchSize res
      (token k) errors s = (Returned errs', (w', s.2 ++ evs)) ∧
    length (listCalls evs)
      = callsFor (length coll - k) (Z.to_nat batchSize) ∧
    length (listedPages evs)
      = callsFor (length coll - k) (Z.to_nat batchSize) ∧
    concat (Items <$> listedPages evs) = drop k coll ∧
    deliveredPages evs = listedPages evs ∧
    (∀ i l, listedPages evs !! i = Some l →
            GetContinue l = "" ↔
            S i = callsFor (length coll - k) (Z.to_nat batchSize)).
Proof.
  set (b := Z.to_nat batchSize). assert (0 < b) as Hb by lia.
  revert k errors s.
  induction fuel as [|fuel IH]; intros k errors [w tr] Hk Hfuel.
  { pose proof (callsFor_pos (length coll - k) b). lia. }
  cbn [paginate]. unfold pagedCluster at 1. cbn [List].
  rewrite Hbacking. cbn [fst snd].
  cbn [Limit Continue].
  pose proof (servePage_Items coll batchSize k Hbatch) as Hitems.
  pose proof (servePage_GetContinue coll batchSize k Hbatch) as Hcont.
  fold b in Hitems, Hcont.
  set (page := servePage coll batchSize (token k)) in *.
  destruct (cb page w) as [rc w2] eqn:Hcb. cbn [fst snd].
  rewrite Hcont.
  destruct (decide (k + b < length coll)) as [Hmore|Hlast].
  - rewrite decide_False by (rewrite token_empty; lia).
    rewrite (callsFor_step (length coll - k) b) in * by lia.
    replace (length coll - k - b) with (length coll - (k + b)) in * by lia.
    match goal with
    | |- context [paginate fuel _ _ _ _ _ ?e ?st] =>
        destruct (IH (k + b) e st) as
          (errs' & w' & evs & Hrun & Hcalls & Hpages & Hcat & Hdel & Hcur);
          [lia|lia|]
    end.
    rewrite Hrun. eexists _, _, (_ :: _ :: evs). split.
    { cbn [snd]. rewrite <- !app_assoc. reflexivity. }
    unfold listCalls, listedPages, deliveredPages in *.
    cbn [omap list_omap].
    cbn [fmap list_fmap concat length].
    split_and!.
    + by rewrite Hcalls.
    + by rewrite Hpages.
    + rewrite Hcat, Hitems.
      rewrite <- drop_drop. apply take_drop.
    + by rewrite Hdel.
    + intros [|i] l Hl; simplify_eq/=.
      * rewrite Hcont, token_empty.
        pose proof (callsFor_pos (length coll - (k + b)) b). lia.
      * rewrite (Hcur i l Hl). lia.
  - rewrite decide_True by done.
    rewrite (callsFor_last (length coll - k) b) in * by lia.
    eexists _, _, [_; _]. split.
    { cbn [snd]. rewrite <- !app_assoc. reflexivity. }
    unfold listCalls, listedPages, deliveredPages.
    cbn [omap list_omap].
    cbn [fmap list_fmap concat length].
    split_and!; [done|done| |done|].
    + rewrite app_nil_r, Hitems. apply take_ge. rewrite length_drop. lia.
    + intros [|i] l Hl; simplify_eq/=.
      by rewrite Hcont.
Qed.

(** With less fuel than there are calls to make the loop has not
    returned. *)
Lemma paginate_from_short fuel k errors (s : @State W U) :
  k = 0 ∨ k < length coll →
  fuel < callsFor (length coll - k) (Z.to_nat batchSize) →
  (@paginate W U (pagedCluster W U sprl backing) fuel () cb batchSize res
     (token k) errors s).1 = OutOfFuel.
Proof.
  set (b := Z.to_nat batchSize). assert (0 < b) as Hb by lia.
  revert k errors s.
  induction fuel as [|fuel IH]; intros k errors [w tr] Hk Hfuel; [done|].
  cbn [paginate]. unfold pagedCluster at 1. cbn [List].
  rewrite Hbacking. cbn [fst snd].
  cbn [Limit Continue].
  pose proof (servePage_Items coll batchSize k Hbatch) as Hitems.
  pose proof (servePage_GetContinue coll batchSize k Hbatch) as Hcont.
  fold b in Hitems, Hcont.
  set (page := servePage coll batchSize (token k)) in *.
  destruct (cb page w) as [rc w2] eqn:Hcb. cbn [fst snd].
  rewrite Hcont.
  destruct (decide (k + b < length coll)) as [Hmore|Hlast].
  - rewrite decide_False by (rewrite token_empty; lia).
    rewrite (callsFor_step (length coll - k) b) in * by lia.
    replace (length coll - k - b) with (length coll - (k + b)) in * by lia.
    apply IH; lia.
  - rewrite (callsFor_last (length coll - k) b) in * by lia. lia.
Qed.

End paged.

Lemma callsFor_least n b :
  0 < b →
  n ≤ callsFor n b * b ∧ ∀ c, 1 ≤ c → n ≤ c * b → callsFor n b ≤ c.
Proof.
  intros Hb. unfold callsFor, ceilDiv.
  pose proof (Nat.div_mod (n + b - 1) b ltac:(lia)) as Hdm.
  pose proof (Nat.mod_upper_bound (n + b - 1) b ltac:(lia)) as Hm.
  split; [nia|]. intros c Hc Hn.
  assert ((n + b - 1) / b ≤ c); [|lia].
  apply Nat.lt_succ_r, Nat.Div0.div_lt_upper_bound; nia.
Qed.

(** C4. Against a server that pages a collection of [N] objects, and
    for a batch size [B >= 1], the pagination loop started with the
    empty cursor returns after [max 1 (ceil (N / B))] list calls, all
    of which succeed: with that much fuel or more it returns, with less
    it is still running.  The pages, in call order, are handed to the
    callback as they come and their items concatenate to the collection,
    so none is left out and none comes twice; and the page of the last
    call, and of no call before it, has the empty cursor.  The number
    of calls is the least [c >= 1] with [N <= c * B]. *)
Theorem pagination_drains_collection {W U : Type}
  (sprl : error + list APIResourceList)
  (backing : GroupVersionResource → error + list U)
  (cb : Callback W U) (res : GroupVersionResource) (coll : list U)
  (batchSize : Z) (errors : list error) (s : @State W U) :
  backing res = inr coll →
  (1 ≤ batchSize)%Z →
  let calls := max 1 (ceilDiv (length coll) (Z.to_nat batchSize)) in
  (∀ fuel, calls ≤ fuel →
     ∃ errs' w' evs,
       @paginate W U (pagedCluster W U sprl backing) fuel () cb batchSize
         res "" errors s = (Returned errs', (w', s.2 ++ evs)) ∧
       length (listCalls evs) = calls ∧
       length (listedPages evs) = calls ∧
       concat (Items <$> listedPages evs) = coll ∧
       deliveredPages evs = listedPages evs ∧
       (∀ i l, listedPages evs !! i = Some l →
               GetContinue l = "" ↔ S i = calls)) ∧
  (∀ fuel, fuel < calls →
     (@paginate W U (pagedCluster W U sprl backing) fuel () cb batchSize
        res "" errors s).1 = OutOfFuel) ∧
  (length coll ≤ calls * Z.to_nat batchSize ∧
   ∀ c, 1 ≤ c → length coll ≤ c * Z.to_nat batchSize → calls ≤ c).
Proof.
  intros Hbacking Hbatch calls.
  assert (calls = callsFor (length coll - 0) (Z.to_nat batchSize)) as Hcalls.
  { by rewrite Nat.sub_0_r. }
  split_and!.
  - intros fuel Hfuel. rewrite Hcalls in *.
    destruct (paginate_from sprl backing cb res coll batchSize Hbacking
                Hbatch fuel 0 errors s (or_introl eq_refl) Hfuel)
      as (errs' & w' & evs & Hrun & H1 & H2 & H3 & H4 & H5).
    exists errs', w', evs. done.
  - intros fuel Hfuel. rewrite Hcalls in Hfuel.
    apply (paginate_from_short sprl backing cb res coll batchSize Hbacking
             Hbatch fuel 0 errors s (or_introl eq_refl) Hfuel).
  - apply callsFor_least. lia.
  - apply callsFor_least. lia.
Qed.

Lemma pagination_drains_collection_witness :
  max 1 (ceilDiv (length examples.many) (Z.to_nat 500)) = 3 ∧
  ∃ errs' w' evs,
    @paginate _ _ examples.bigCluster 3 () examples.sink 500
      (resourceOf examples.core examples.pods) "" [] examples.start
    = (Returned errs', (w', examples.start.2 ++ evs)) ∧
    length (listCalls evs)
    = max 1 (ceilDiv (length examples.many) (Z.to_nat 500)) ∧
    length (listedPages evs)
    = max 1 (ceilDiv (length examples.many) (Z.to_nat 500)) ∧
    concat (Items <$> listedPages evs) = examples.many ∧
    deliveredPages evs = listedPages evs ∧
    (∀ i l, listedPages evs !! i = Some l →
            GetContinue l = ""
            ↔ S i = max 1 (ceilDiv (length examples.many) (Z.to_nat 500))).
Proof.
  split; [vm_compute; reflexivity|].
  refine (proj1 (pagination_drains_collection (inr examples.discovered)
                   (λ _, inr examples.many) examples.sink
                   (resourceOf examples.core examples.pods) examples.many
                   500 [] examples.start eq_refl _) 3 _).
  - done.
  - vm_compute. lia.
Defined.

(** Against the paginating server every pagination loop ends, whatever
    the batch size and the callback. *)
Lemma pagedCluster_drains {W U : Type} sprl backing (cb : Callback W U)
  batchSize :
  @drains W U (pagedCluster W U sprl backing) () cb batchSize.
Proof.
  intros res errors s. destruct (backing res) as [e|coll] eqn:Hb.
  { exists 1. cbn [paginate]. unfold pagedCluster at 1. cbn [List].
    by rewrite Hb. }
  destruct (decide (1 ≤ batchSize)%Z) as [Hbatch|Hbatch].
  - destruct (paginate_from sprl backing cb res coll batchSize Hb Hbatch
                (callsFor (length coll - 0) (Z.to_nat batchSize)) 0 errors s
                (or_introl eq_refl) (le_n _))
      as (errs' & w' & evs & Hrun & _).
    exists (callsFor (length coll - 0) (Z.to_nat batchSize)).
    change (token 0) with "" in Hrun. by rewrite Hrun.
  - exists 1. cbn [paginate]. unfold pagedCluster at 1. cbn [List].
    rewrite Hb. cbn [Limit Continue fst snd].
    destruct (cb _ _) as [rc w2]. unfold servePage.
    rewrite !(decide_True (P := (batchSize < 1)%Z)) by lia.
    cbn [GetContinue]. by rewrite decide_True.
Qed.

Section on_example.
Import examples.
#[local] Existing Instance cluster.

Lemma DiscoverObjects_returns_combined_errors_witness :
  (∃ ret s',
      DiscoverObjects 5 () sink options start = (Returned ret, s') ∧
      ∃ evs errs,
        s'.2 = start.2 ++ EvServerPreferredResources (inr discovered)
                          :: listing (GetLogWriter options) discovered
                             ++ evs ∧
        accumulated evs errs ∧
        (∀ x, x ∈ entries discovered →
              attempted (GetBatchSize options) (GetLogWriter options) evs x) ∧
        ret = match errs with
              | [] => None
              | [e] => Some e
              | _ => Some (multiError errs)
              end ∧
        length errs = length (filter (λ e, failed e) evs) ∧
        (ret = None ↔ errs = []) ∧
        (ret = None ↔ ∀ e, e ∈ evs → failed e = false)) ∧
  (∃ fuel ret s',
      DiscoverObjects fuel () sink options start = (Returned ret, s')) ∧
  (DiscoverObjects 5 () sink options start).1
  = Returned
      (Some (multiError
               [dumpError (resourceOf core pods) (ErrExternal "sink failed");
                listError (resourceOf apps deployments)
                  (ErrExternal "deployments.apps is forbidden")])).
Proof.
  destruct (@discovery_driver.DiscoverObjects_returns_combined_errors
              _ _ cluster () sink options start () () discovered []
              eq_refl eq_refl eq_refl) as [Hret Hends].
  refine (conj _ (conj _ _)).
  - eexists _, _. split; [vm_compute; reflexivity|].
    eapply (Hret 5). vm_compute. reflexivity.
  - apply Hends. apply pagedCluster_drains.
  - vm_compute. reflexivity.
Defined.

(** The bindings, which cannot be listed, on the example cluster. *)
Lemma skips_resources_without_list_verb_witness :
  discoverResource 3 () sink 2 (io_Stream 2) core bindings [] start
  = (Returned [],
     (start.1,
      start.2 ++ [EvLog (io_Stream 2) (skipNotice (resourceOf core bindings))]))
  ∧ (∃ w' evs,
      (DiscoverObjects 5 () sink options start).2
      = (w', start.2 ++ EvServerPreferredResources (inr discovered)
                       :: listing (GetLogWriter options) discovered ++ evs) ∧
      (∀ res o r, EvList res o r ∈ evs →
                  ∃ x, x ∈ entries discovered ∧ listable x.2 ∧
                       res = resourceOf x.1 x.2) ∧
      (∀ ret, (DiscoverObjects 5 () sink options start).1 = Returned ret →
              ∀ x, x ∈ entries discovered → ¬ listable x.2 →
                   EvLog (GetLogWriter options)
                     (skipNotice (resourceOf x.1 x.2)) ∈ evs))
  ∧ ∃ fuel w' evs errs,
      DiscoverObjects fuel () sink options start
      = (Returned (multierr.Combine errs),
         (w', start.2 ++ EvServerPreferredResources (inr discovered)
                         :: listing (GetLogWriter options) discovered
                            ++ evs)) ∧
      accumulated evs errs ∧
      (∀ res o r, EvList res o r ∈ evs →
                  ∃ x, x ∈ entries discovered ∧ listable x.2 ∧
                       res = resourceOf x.1 x.2) ∧
      (∀ x, x ∈ entries discovered → ¬ listable x.2 →
            EvLog (GetLogWriter options)
              (skipNotice (resourceOf x.1 x.2)) ∈ evs).
Proof.
  destruct (@discovery_driver.skips_resources_without_list_verb _ _ cluster)
    as (H1 & H2 & H3).
  split_and!.
  - apply H1. intros Hin. cbv [listable bindings Verbs] in Hin.
    by elem_cases Hin.
  - apply (H2 5 () sink options start () () discovered []); reflexivity.
  - apply (H3 () sink options start () () discovered []);
      [reflexivity..|]. apply pagedCluster_drains.
Defined.

(** The pods in pages of two: the second page holds one object and
    is the last, and the callback fails on it. *)
Lemma callback_after_every_page_witness :
  (∃ w' r' evs',
      (paginate 2 () sink 1 (resourceOf core pods) "c" [] start).2
      = (w', start.2 ++ EvList (resourceOf core pods)
                          {| Limit := 1; Continue := "c" |}
                          (inr {| Items := [2]; GetContinue := "cc" |})
                        :: EvCallback {| Items := [2]; GetContinue := "cc" |}
                             (Some (ErrExternal "sink failed"))
                        :: EvList (resourceOf core pods)
                             {| Limit := 1; Continue := "cc" |} r'
                        :: evs') ∧
      ∀ e', (paginate 2 () sink 1 (resourceOf core pods) "c" [] start).1
            = Returned e' →
            ∃ more, e' = [] ++ dumpError (resourceOf core pods)
                                 (ErrExternal "sink failed") :: more)
  ∧ paginate 1 () sink 2 (resourceOf core pods) "cc" [] start
    = (Returned ([] ++ [dumpError (resourceOf core pods)
                          (ErrExternal "sink failed")]),
       ([{| Items := [3]; GetContinue := "" |}],
        start.2 ++ [EvList (resourceOf core pods)
                      {| Limit := 2; Continue := "cc" |}
                      (inr {| Items := [3]; GetContinue := "" |});
                    EvCallback {| Items := [3]; GetContinue := "" |}
                      (Some (ErrExternal "sink failed"))]))
  ∧ (∃ w' evs,
      (DiscoverObjects 5 () sink options start).2
      = (w', start.2 ++ EvServerPreferredResources (inr discovered)
                       :: listing (GetLogWriter options) discovered ++ evs) ∧
      (∀ i res o l, evs !! i = Some (EvList res o (inr l)) →
                    ∃ rc, evs !! S i = Some (EvCallback l rc)) ∧
      (∀ ret, (DiscoverObjects 5 () sink options start).1 = Returned ret →
              ∀ l err, EvCallback l (Some err) ∈ evs →
                       ∃ res, dumper_spec.reported ret (dumpError res err)))
  ∧ (∃ fuel ret w' evs,
      DiscoverObjects fuel () sink options start
      = (Returned ret,
         (w', start.2 ++ EvServerPreferredResources (inr discovered)
                         :: listing (GetLogWriter options) discovered
                            ++ evs)) ∧
      (∀ i res o l, evs !! i = Some (EvList res o (inr l)) →
                    ∃ rc, evs !! S i = Some (EvCallback l rc)) ∧
      (∀ l err, EvCallback l (Some err) ∈ evs →
                ∃ res, dumper_spec.reported ret (dumpError res err)))
  ∧ ∃ ret, (DiscoverObjects 5 () sink options start).1 = Returned ret ∧
           dumper_spec.reported ret
             (dumpError (resourceOf core pods) (ErrExternal "sink failed")).
Proof.
  destruct (@discovery_driver.callback_after_every_page _ _ cluster)
    as (H1 & H2 & H3 & H4 & H5).
  split_and!.
  - apply (H2 0 () sink 1%Z (resourceOf core pods) "c" [] start
             {| Items := [2]; GetContinue := "cc" |} []
             (ErrExternal "sink failed")
             [{| Items := [2]; GetContinue := "cc" |}]);
      [reflexivity|reflexivity|done].
  - apply (H3 0 () sink 2%Z (resourceOf core pods) "cc" [] start
             {| Items := [3]; GetContinue := "" |} []
             (Some (ErrExternal "sink failed"))
             [{| Items := [3]; GetContinue := "" |}]);
      reflexivity.
  - apply (H4 5 () sink options start () () discovered []); reflexivity.
  - apply (H5 () sink options start () () discovered []);
      [reflexivity..|]. apply pagedCluster_drains.
  - eexists. split; [vm_compute; reflexivity|].
    apply list_elem_of_here.
Defined.

End on_example.

End pagination.

(** ** The directory sink *)
Module dumper_facts.
Import unstructured dumper dumper_spec.

Lemma received_app evs1 evs2 :
  received (evs1 ++ evs2) = received evs1 ++ received evs2.
Proof. apply omap_app. Qed.

Lemma created_app evs1 evs2 :
  created (evs1 ++ evs2) = created evs1 ++ created evs2.
Proof. apply omap_app. Qed.

Lemma closed_app evs1 evs2 :
  closed (evs1 ++ evs2) = closed evs1 ++ closed evs2.
Proof. apply omap_app. Qed.

Lemma grows_refl d : cache_named d → grows d d [].
Proof.
  intros Hd. unfold grows. split_and!; [done..| |done].
  by rewrite app_nil_r.
Qed.

Lemma grows_trans d1 d2 d3 evs1 evs2 :
  grows d1 d2 evs1 → grows d2 d3 evs2 → grows d1 d3 (evs1 ++ evs2).
Proof.
  intros (Hdir1 & _ & Hsub1 & Hperm1 & Hcl1) (Hdir2 & Hn2 & Hsub2 & Hperm2 & Hcl2).
  unfold grows. split_and!.
  - congruence.
  - done.
  - by etrans.
  - rewrite Hperm2, Hperm1, created_app. by rewrite <- app_assoc.
  - by rewrite closed_app, Hcl1, Hcl2.
Qed.

Lemma grows_sharedBuf_l d d' evs buf :
  grows (set_sharedBuf buf d) d' evs → grows d d' evs.
Proof. done. Qed.

Lemma grows_sharedBuf_r d d' evs buf :
  grows d d' evs → grows d (set_sharedBuf buf d') evs.
Proof. done. Qed.

(** The three destination paths of an object are three paths, unless
    its kind is the name of the file for all kinds. *)
Lemma destinations_distinct dir namespace kind :
  kind ≠ "__all__" →
  NoDup [objectsPath dir kind; allPath dir namespace;
         kindPath dir namespace kind].
Proof.
  intros Hkind. unfold objectsPath, allPath, kindPath.
  apply NoDup_cons. split.
  - intros Hin. by elem_cases Hin.
  - apply NoDup_cons. split; [|apply NoDup_singleton].
    intros Hin. apply list_elem_of_singleton in Hin.
    apply (inj (String.app dir)), (inj (String.app "/split/")),
      (inj (String.app namespace)) in Hin.
    change "/__all__.json" with ("/" +:+ "__all__" +:+ ".json") in Hin.
    apply (inj (String.app "/")), string_app_inv_tail in Hin. done.
Qed.

Lemma remove_dups_NoDup (l : list string) : NoDup l → remove_dups l = l.
Proof.
  induction 1 as [|x l Hx _ IH]; simpl; [done|].
  destruct (decide_rel (∈) x l); [done|]. by rewrite IH.
Qed.

Section sink.
Context {O U : Type} `{!OS O} `{!Object U}.

(** [file]: a cached path is answered from the cache without a call;
    a path that is not cached is created, after its directory, and
    cached when that succeeds. *)
Lemma file_cached path (d : dirDumper) (y : Sys) f :
  openFiles d !! path = Some f → file path (d, y) = (inr f, (d, y)).
Proof. intros H. unfold file. by rewrite H. Qed.

Lemma file_fresh path (d : dirDumper) (o : O) tr :
  openFiles d !! path = None →
  ∃ r d' o' evs,
    file path (d, (o, tr)) = (r, (d', (o', tr ++ evs))) ∧
    dir d' = dir d ∧ sharedBuf d' = sharedBuf d ∧
    received evs = [] ∧ closed evs = [] ∧
    match r with
    | inr f =>
        evs = [EvMkdirAll (filepath_Dir path) None; EvCreate path (inr f)] ∧
        name f = path ∧
        openFiles d' = <[path := f]> (openFiles d)
    | inl _ =>
        (∃ e, evs = [EvMkdirAll (filepath_Dir path) (Some e)]
              ∨ evs = [EvMkdirAll (filepath_Dir path) None;
                       EvCreate path (inl e)]) ∧
        openFiles d' = openFiles d
    end.
Proof.
  intros Hnone. unfold file. rewrite Hnone.
  unfold os_MkdirAll. simpl.
  destruct (MkdirAll (filepath_Dir path) o) as [[e|] o1].
  { eexists _, d, o1, [_]. split_and!; [done..|]. split; [|done]. eauto. }
  unfold os_Create. simpl.
  destruct (open_create path o1) as [[e|n] o2].
  { eexists _, d, o2, [_; _]. rewrite <- app_assoc.
    split_and!; [done..|]. split; [|done]. eauto. }
  eexists _, _, o2, [_; _]. rewrite <- app_assoc.
  split_and!; done.
Qed.

Lemma writeToFile_spec path b (d : dirDumper) (o : O) tr :
  cache_named d →
  ∃ r d' o' evs,
    writeToFile path b (d, (o, tr)) = (r, (d', (o', tr ++ evs))) ∧
    wrapped r ∧
    grows d d' evs ∧
    received evs = match r with
                   | None => [(path, b)]
                   | Some _ => []
                   end.
Proof.
  intros Hnamed. unfold writeToFile.
  destruct (openFiles d !! path) as [f|] eqn:Hlook.
  - rewrite (file_cached _ _ _ _ Hlook).
    unfold File_Write. simpl.
    destruct (write f b o) as [[e|] o1].
    + eexists _, d, o1, [_]. split_and!; [done..| |done].
      unfold grows. split_and!; [done..| |done]. by rewrite app_nil_r.
    + eexists _, d, o1, [_]. split_and!; [done..| |].
      * unfold grows. split_and!; [done..| |done]. by rewrite app_nil_r.
      * simpl. by rewrite (Hnamed _ _ Hlook).
  - destruct (file_fresh path d o tr Hlook)
      as (r & d' & o' & evs & -> & Hdir & Hbuf & Hrec & Hcl & Hr).
    destruct r as [e|f].
    + destruct Hr as [[e' Hevs] Hcache].
      eexists _, d', o', evs. split_and!; [done..| |by rewrite Hrec].
      unfold grows. split_and!; [done| |by rewrite Hcache| |done].
      * intros p f. rewrite Hcache. apply Hnamed.
      * rewrite Hcache. destruct Hevs as [-> | ->]; by rewrite app_nil_r.
    + destruct Hr as (-> & Hname & Hcache).
      assert (grows d d' [EvMkdirAll (filepath_Dir path) None;
                          EvCreate path (inr f)]) as Hg.
      { unfold grows. split_and!; [done| | | |done].
        - intros p f'. rewrite Hcache.
          rewrite lookup_insert. case_decide; [|by apply Hnamed].
          intros [= <-]. by subst.
        - rewrite Hcache. by apply insert_subseteq.
        - rewrite Hcache. simpl. rewrite map_to_list_insert by done.
          by rewrite Permutation_cons_append. }
      unfold File_Write. simpl.
      destruct (write f b o') as [[e|] o1].
      * eexists _, d', o1, [_; _; _]. rewrite <- app_assoc.
        split_and!; [done..| |done].
        apply (grows_trans _ _ _ _ [_] Hg).
        apply grows_refl. by destruct Hg as (_ & ? & _).
      * eexists _, d', o1, [_; _; _]. rewrite <- app_assoc.
        split_and!; [done..| |].
        -- apply (grows_trans _ _ _ _ [_] Hg).
           apply grows_refl. by destruct Hg as (_ & ? & _).
        -- simpl. by rewrite Hname.
Qed.

Lemma appendErr_app errs r : appendErr errs r = errs ++ option_list r.
Proof. destruct r; simpl; by rewrite ?app_nil_r. Qed.

(** The body of the loop of [Dump], for one object: each attempted
    write has a result, the failures are appended to the errors in the
    order of the writes, and the writes that succeeded are in the
    trace. *)
Lemma dumpObject_spec (x : U) errs (d : dirDumper) (o : O) tr :
  cache_named d →
  ∃ outs d' o' evs,
    dumpObject x errs (d, (o, tr))
    = (errs ++ itemErrors x outs, (d', (o', tr ++ evs))) ∧
    length outs = length (attempts (dir d) x) ∧
    Forall wrapped outs ∧
    received evs = itemReceived (dir d) x outs ∧
    grows d d' evs.
Proof.
  intros Hnamed. unfold dumpObject, Encode, attempts, itemErrors,
    itemReceived, serialized.
  destruct (MarshalJSON x) as [e|b] eqn:Hm.
  { exists [], (set_sharedBuf "" d), o, []. rewrite app_nil_r.
    split_and!; [done..|]. by apply grows_sharedBuf_r, grows_refl. }
  change ("" +:+ b +:+ nl) with (b +:+ nl).
  set (p := b +:+ nl). set (d0 := set_sharedBuf p d).
  assert (cache_named d0) as Hnamed0 by done.
  change (dir d0) with (dir d). unfold State, Sys in *.
  destruct (writeToFile_spec (objectsPath (dir d) (GetKind x)) p d0 o tr
              Hnamed0) as (r1 & d1 & o1 & evs1 & -> & Hw1 & Hg1 & Hrec1).
  unfold destinations. case_decide as Hns.
  { exists [r1], d1, o1, evs1. rewrite appendErr_app.
    split_and!; [by destruct r1|done|by constructor|
                 |by apply (grows_sharedBuf_l _ _ _ p)].
    rewrite Hrec1. by destruct r1. }
  assert (cache_named d1) as Hnamed1 by (by destruct Hg1 as (_ & ? & _)).
  destruct (writeToFile_spec (allPath (dir d) (GetNamespace x)) p d1 o1
              (tr ++ evs1) Hnamed1)
    as (r2 & d2 & o2 & evs2 & -> & Hw2 & Hg2 & Hrec2).
  assert (cache_named d2) as Hnamed2 by (by destruct Hg2 as (_ & ? & _)).
  destruct (writeToFile_spec
              (kindPath (dir d) (GetNamespace x) (GetKind x)) p d2 o2
              ((tr ++ evs1) ++ evs2) Hnamed2)
    as (r3 & d3 & o3 & evs3 & -> & Hw3 & Hg3 & Hrec3).
  exists [r1; r2; r3], d3, o3, (evs1 ++ evs2 ++ evs3).
  rewrite !appendErr_app, <- !app_assoc.
  split_and!.
  - do 2 f_equal. destruct r1, r2, r3; done.
  - done.
  - by repeat constructor.
  - rewrite !received_app, Hrec1, Hrec2, Hrec3.
    destruct r1, r2, r3; done.
  - apply (grows_sharedBuf_l _ _ _ p).
    apply (grows_trans _ _ _ _ _ Hg1), (grows_trans _ _ _ _ _ Hg2), Hg3.
Qed.

(** The loop of [Dump] over the objects of a page. *)
Lemma rangeItems_spec (items : list U) errs (d : dirDumper) (o : O) tr :
  cache_named d →
  ∃ outss d' o' evs,
    rangeItems items errs (d, (o, tr))
    = (errs ++ concat (zip_with itemErrors items outss),
       (d', (o', tr ++ evs))) ∧
    Forall2 (λ x outs, length outs = length (attempts (dir d) x))
      items outss ∧
    Forall (Forall wrapped) outss ∧
    received evs = concat (zip_with (itemReceived (dir d)) items outss) ∧
    grows d d' evs.
Proof.
  revert errs d o tr.
  induction items as [|x items IH]; intros errs d o tr Hnamed.
  { exists [], d, o, []. simpl. rewrite !app_nil_r.
    split_and!; [done|constructor|constructor|done|by apply grows_refl]. }
  cbn [rangeItems].
  destruct (dumpObject_spec x errs d o tr Hnamed)
    as (outs & d1 & o1 & evs1 & -> & Hlen & Hws & Hrec1 & Hg1).
  assert (cache_named d1) as Hnamed1 by (by destruct Hg1 as (_ & ? & _)).
  assert (dir d1 = dir d) as Hdir by (by destruct Hg1 as (? & _)).
  destruct (IH (errs ++ itemErrors x outs) d1 o1 (tr ++ evs1) Hnamed1)
    as (outss & d2 & o2 & evs2 & -> & Hlens & Hwss & Hrec2 & Hg2).
  exists (outs :: outss), d2, o2, (evs1 ++ evs2).
  rewrite <- !app_assoc. rewrite Hdir in *.
  split_and!.
  - done.
  - by constructor.
  - by constructor.
  - rewrite received_app, Hrec1, Hrec2. done.
  - by apply (grows_trans _ _ _ _ _ Hg1).
Qed.

(** *** Combining the errors of a page *)

Lemma Combine_single errs :
  Forall single errs →
  multierr.Combine errs = match errs with
                          | [] => None
                          | [e] => Some e
                          | _ => Some (multiError errs)
                          end.
Proof.
  intros Hs. assert (concat (multierr.flatten <$> errs) = errs) as Hflat.
  { induction Hs as [|e errs He _ IH]; [done|].
    change (multierr.flatten e ++ concat (multierr.flatten <$> errs)
            = e :: errs).
    rewrite IH. by destruct e. }
  destruct errs as [|e1 [|e2 errs]]; [done..|].
  unfold multierr.Combine. by rewrite Hflat.
Qed.

Lemma reported_Combine errs e :
  Forall single errs → e ∈ errs → reported (multierr.Combine errs) e.
Proof.
  intros Hs He. rewrite (Combine_single _ Hs).
  destruct errs as [|e1 [|e2 errs]].
  - by apply elem_of_nil in He.
  - apply list_elem_of_singleton in He as ->.
    apply Forall_inv in Hs. by destruct e1.
  - done.
Qed.

Lemma itemErrors_single (x : U) outs :
  Forall wrapped outs → Forall single (itemErrors x outs).
Proof.
  intros Hw. unfold itemErrors. destruct (MarshalJSON x); [by repeat constructor|].
  induction Hw as [|[e|] outs He _ IH]; simpl; [done| |done].
  by constructor.
Qed.

Lemma pageErrors_single (items : list U) outss :
  Forall (Forall wrapped) outss →
  Forall single (concat (zip_with itemErrors items outss)).
Proof.
  intros Hw. revert items.
  induction Hw as [|outs outss Ho _ IH]; intros [|x items]; simpl; [done..|].
  apply Forall_app. split; [by apply itemErrors_single|apply IH].
Qed.

Lemma elem_of_concat_lookup {A} (ls : list (list A)) i l (a : A) :
  ls !! i = Some l → a ∈ l → a ∈ concat ls.
Proof.
  intros Hl Ha. apply list_elem_of_In, in_concat. exists l.
  split; apply list_elem_of_In; [by eapply list_elem_of_lookup_2|done].
Qed.

(** *** An object that does not encode *)

Lemma writeToFile_wrapped path b (st : State) :
  wrapped (writeToFile path b st).1.
Proof.
  unfold writeToFile, file. destruct st as [d y].
  destruct (openFiles d !! path).
  - destruct (File_Write _ _ _) as [[?|] ?]; done.
  - destruct (os_MkdirAll _ _) as [[?|] ?]; [done|].
    destruct (os_Create _ _) as [[?|?] ?]; [done|].
    destruct (File_Write _ _ _) as [[?|] ?]; done.
Qed.

Lemma appendErr_single errs r :
  wrapped r → ∃ new, appendErr errs r = errs ++ new ∧ Forall single new.
Proof.
  intros Hw. rewrite appendErr_app. exists (option_list r).
  split; [done|]. destruct r; by repeat constructor.
Qed.

Lemma dumpObject_errors (x : U) errs (st : State) :
  ∃ new, (dumpObject x errs st).1 = errs ++ new ∧ Forall single new ∧
         ∀ e, MarshalJSON x = inl e → new = [encodeError e].
Proof.
  unfold dumpObject, Encode. destruct st as [d y].
  destruct (MarshalJSON x) as [e|b].
  { exists [encodeError e]. split_and!; [done|by repeat constructor|].
    by intros ? [= <-]. }
  pose proof (writeToFile_wrapped
                (objectsPath (dir (set_sharedBuf ("" +:+ b +:+ nl) d))
                   (GetKind x))
                ("" +:+ b +:+ nl) (set_sharedBuf ("" +:+ b +:+ nl) d, y)) as H1.
  destruct (writeToFile _ _ _) as [r1 st1]. simpl in H1.
  destruct (appendErr_single errs r1 H1) as (n1 & -> & Hn1).
  case_decide; [by exists n1|].
  pose proof (writeToFile_wrapped
                (allPath (dir (set_sharedBuf ("" +:+ b +:+ nl) d))
                   (GetNamespace x))
                ("" +:+ b +:+ nl) st1) as H2.
  destruct (writeToFile _ _ st1) as [r2 st2]. simpl in H2.
  destruct (appendErr_single (errs ++ n1) r2 H2) as (n2 & -> & Hn2).
  pose proof (writeToFile_wrapped
                (kindPath (dir (set_sharedBuf ("" +:+ b +:+ nl) d))
                   (GetNamespace x) (GetKind x))
                ("" +:+ b +:+ nl) st2) as H3.
  destruct (writeToFile _ _ st2) as [r3 st3]. simpl in H3.
  destruct (appendErr_single ((errs ++ n1) ++ n2) r3 H3) as (n3 & -> & Hn3).
  exists (n1 ++ n2 ++ n3). rewrite <- !app_assoc.
  split_and!; [done| |done]. by rewrite !Forall_app.
Qed.

Lemma rangeItems_errors (items : list U) errs (st : State) :
  ∃ new, (rangeItems items errs st).1 = errs ++ new ∧ Forall single new ∧
         ∀ x e, x ∈ items → MarshalJSON x = inl e → encodeError e ∈ new.
Proof.
  revert errs st. induction items as [|x items IH]; intros errs st.
  { exists []. rewrite app_nil_r. split_and!; [done..|].
    by intros ?? ?%elem_of_nil. }
  cbn [rangeItems].
  destruct (dumpObject_errors x errs st) as (n1 & H1 & Hs1 & Henc).
  destruct (dumpObject x errs st) as [errs1 st1]. simpl in H1. subst errs1.
  destruct (IH (errs ++ n1) st1) as (n2 & H2 & Hs2 & Hin).
  exists (n1 ++ n2). rewrite H2, <- app_assoc.
  split_and!; [done|by rewrite Forall_app|].
  intros y e Hy Hm. apply elem_of_app.
  apply elem_of_cons in Hy as [->|Hy].
  - left. rewrite (Henc e Hm). apply elem_of_cons. by left.
  - right. by eapply Hin.
Qed.

Lemma rangeItems_app (pre post : list U) errs (st : State) :
  rangeItems (pre ++ post) errs st
  = let '(errs1, st1) := rangeItems pre errs st in rangeItems post errs1 st1.
Proof.
  revert errs st. induction pre as [|x pre IH]; intros errs st; simpl; [done|].
  destruct (dumpObject x errs st) as [errs1 st1]. apply IH.
Qed.

(** *** The sink against the words of the spec *)

Lemma dumpObject_by_spec (x : U) errs (st : State) :
  dumpObject x errs st = sink_by_spec.recordBySpec x errs st.
Proof.
  unfold dumpObject, Encode, sink_by_spec.recordBySpec.
  destruct st as [d y]. destruct (MarshalJSON x) as [e|b]; [done|].
  change ("" +:+ b +:+ nl) with (b +:+ nl).
  change (dir (set_sharedBuf (b +:+ nl) d)) with (dir d).
  unfold destinations. cbn [sink_by_spec.writeEach].
  destruct (writeToFile (objectsPath (dir d) (GetKind x)) (b +:+ nl)
              (set_sharedBuf (b +:+ nl) d, y)) as [r1 st1].
  case_decide.
  { cbn [sink_by_spec.writeEach]. rewrite appendErr_app. by destruct r1. }
  cbn [sink_by_spec.writeEach].
  destruct (writeToFile (allPath (dir d) (GetNamespace x)) (b +:+ nl) st1)
    as [r2 st2].
  destruct (writeToFile (kindPath (dir d) (GetNamespace x) (GetKind x))
              (b +:+ nl) st2) as [r3 st3].
  rewrite !appendErr_app, <- !app_assoc. by destruct r1, r2, r3.
Qed.

Lemma rangeItems_by_spec (items : list U) errs (st : State) :
  rangeItems items errs st = sink_by_spec.pageBySpec items errs st.
Proof.
  revert errs st. induction items as [|x items IH]; intros errs st; [done|].
  cbn [rangeItems sink_by_spec.pageBySpec]. rewrite dumpObject_by_spec.
  destruct (sink_by_spec.recordBySpec x errs st) as [errs1 st1]. apply IH.
Qed.

Lemma errorsOf_Combine errs :
  Forall single errs →
  sink_by_spec.errorsOf (multierr.Combine errs) = errs.
Proof.
  intros Hs. rewrite (Combine_single _ Hs).
  destruct errs as [|e1 [|e2 errs]]; [done| |done].
  apply Forall_inv in Hs. by destruct e1.
Qed.

Lemma writeToFile_healthy path b (d : dirDumper) (o : O) tr :
  cache_named d → sink_by_spec.healthy path →
  (writeToFile path b (d, (o, tr))).1 = None.
Proof.
  intros Hnamed (Hm & Hc & Hw). unfold writeToFile, file.
  destruct (openFiles d !! path) as [f|] eqn:Hf.
  - unfold File_Write. cbn [fst snd].
    specialize (Hw f b o (Hnamed _ _ Hf)).
    by destruct (write f b o) as [[e|] o1].
  - unfold os_MkdirAll. cbn [fst snd]. specialize (Hm o).
    destruct (MkdirAll (filepath_Dir path) o) as [[e|] o1]; [done|].
    unfold os_Create. cbn [fst snd]. destruct (Hc o1) as [n Hn].
    destruct (open_create path o1) as [[e|n'] o2]; [done|].
    unfold File_Write. cbn [fst snd].
    specialize (Hw {| fd := n'; name := path |} b o2 eq_refl).
    by destruct (write _ b o2) as [[e|] o3].
Qed.

Section isolation.
Variable ok : string → bool.
Hypothesis Hok : ∀ path, ok path → sink_by_spec.healthy path.

Lemma writeEach_isolated paths p (d : dirDumper) (o : O) tr :
  cache_named d →
  ∃ rs d' o' evs,
    sink_by_spec.writeEach paths p (d, (o, tr))
    = (rs, (d', (o', tr ++ evs))) ∧
    grows d d' evs ∧
    received evs `sublist_of` ((λ path, (path, p)) <$> paths) ∧
    filter (λ w, ok w.1) (received evs)
    = filter (λ w, ok w.1) ((λ path, (path, p)) <$> paths).
Proof.
  revert d o tr. induction paths as [|path paths IH]; intros d o tr Hnamed.
  { exists [], d, o, []. rewrite app_nil_r.
    split_and!; [done|by apply grows_refl|done..]. }
  cbn [sink_by_spec.writeEach].
  pose proof (writeToFile_healthy path p d o tr Hnamed) as Hh.
  destruct (writeToFile_spec path p d o tr Hnamed)
    as (r & d1 & o1 & evs1 & Hw & _ & Hg1 & Hrec1).
  unfold State, Sys in *. rewrite Hw in Hh |- *. cbn [fst] in Hh.
  assert (cache_named d1) as Hnamed1 by (by destruct Hg1 as (_ & ? & _)).
  destruct (IH d1 o1 (tr ++ evs1) Hnamed1)
    as (rs & d2 & o2 & evs2 & -> & Hg2 & Hsub & Hfil).
  exists (r :: rs), d2, o2, (evs1 ++ evs2). rewrite <- app_assoc.
  split_and!; [done|by eapply grows_trans| |].
  - rewrite received_app, Hrec1, fmap_cons.
    destruct r; [by apply sublist_cons|by apply sublist_skip].
  - rewrite received_app, filter_app, Hrec1, Hfil, fmap_cons.
    destruct r as [e|]; [|by rewrite <- filter_app].
    rewrite filter_cons. cbn [fst app filter list_filter].
    destruct (decide (ok path)) as [Hp|Hp]; [|done].
    by specialize (Hh (Hok _ Hp)).
Qed.

Lemma pageBySpec_isolated (items : list U) errs (d : dirDumper) (o : O) tr :
  cache_named d →
  ∃ errs' d' o' evs,
    sink_by_spec.pageBySpec items errs (d, (o, tr))
    = (errs', (d', (o', tr ++ evs))) ∧
    grows d d' evs ∧
    received evs `sublist_of` (items ≫= fanout (dir d)) ∧
    filter (λ w, ok w.1) (received evs)
    = filter (λ w, ok w.1) (items ≫= fanout (dir d)).
Proof.
  revert errs d o tr. induction items as [|x items IH];
    intros errs d o tr Hnamed.
  { exists errs, d, o, []. rewrite app_nil_r.
    split_and!; [done|by apply grows_refl|done..]. }
  cbn [sink_by_spec.pageBySpec]. rewrite bind_cons.
  assert (∃ errs1 d1 o1 evs1,
            sink_by_spec.recordBySpec x errs (d, (o, tr))
            = (errs1, (d1, (o1, tr ++ evs1))) ∧
            grows d d1 evs1 ∧
            received evs1 `sublist_of` fanout (dir d) x ∧
            filter (λ w, ok w.1) (received evs1)
            = filter (λ w, ok w.1) (fanout (dir d) x))
    as (errs1 & d1 & o1 & evs1 & -> & Hg1 & Hsub1 & Hfil1).
  { unfold sink_by_spec.recordBySpec, fanout, serialized.
    destruct (MarshalJSON x) as [e|b].
    { eexists _, _, o, []. rewrite app_nil_r.
      split_and!; [done| |done..]. by apply grows_sharedBuf_r, grows_refl. }
    destruct (writeEach_isolated (destinations (dir d) x) (b +:+ nl)
                (set_sharedBuf (b +:+ nl) d) o tr Hnamed)
      as (rs & d1 & o1 & evs1 & Hrun & Hg & Hsub & Hfil).
    unfold State, Sys in *. rewrite Hrun.
    eexists _, d1, o1, evs1. split_and!; [done| |done..].
    by apply (grows_sharedBuf_l _ _ _ (b +:+ nl)). }
  assert (cache_named d1) as Hnamed1 by (by destruct Hg1 as (_ & ? & _)).
  assert (dir d1 = dir d) as Hdir by (by destruct Hg1).
  destruct (IH errs1 d1 o1 (tr ++ evs1) Hnamed1)
    as (errs2 & d2 & o2 & evs2 & -> & Hg2 & Hsub2 & Hfil2).
  rewrite Hdir in Hsub2, Hfil2.
  exists errs2, d2, o2, (evs1 ++ evs2). rewrite <- app_assoc.
  split_and!; [done|by eapply grows_trans| |].
  - rewrite received_app. by apply sublist_app.
  - by rewrite received_app, !filter_app, Hfil1, Hfil2.
Qed.

End isolation.

(** C2. [Dump] does what the spec words: for every record of the page
    in order, and for every destination of the record in order, it
    attempts the write whatever the attempts before it returned, and
    it records each failure.  The loop body is [recordBySpec], which
    gives every destination its attempt, and [Dump] is the combination
    of the errors of [pageBySpec], which gives every record its turn;
    the combined error that [Dump] returns holds exactly the failures
    of those attempts, in their order.  An attempt either returns no
    error and the destination has received the bytes, or returns one
    error and nothing is received.  So a failure at one destination or
    record costs no other its write: on every set of paths on which
    the system does not fail, the writes received are exactly the
    fan-out of the page at those paths, in order, whatever fails
    elsewhere, and nothing is written but a part of the fan-out. *)
Theorem Dump_isolates_write_failures :
  (∀ (x : U) errs (st : State),
      dumpObject x errs st = sink_by_spec.recordBySpec x errs st) ∧
  (∀ (l : UnstructuredList U) (st : State),
      Dump l st
      = (multierr.Combine (sink_by_spec.pageBySpec (Items l) [] st).1,
         (sink_by_spec.pageBySpec (Items l) [] st).2) ∧
      sink_by_spec.errorsOf (Dump l st).1
      = (sink_by_spec.pageBySpec (Items l) [] st).1) ∧
  (∀ path p (d : dirDumper) (o : O) tr,
      cache_named d →
      ∃ r d' o' evs,
        writeToFile path p (d, (o, tr)) = (r, (d', (o', tr ++ evs))) ∧
        wrapped r ∧ cache_named d' ∧
        received evs = match r with
                       | None => [(path, p)]
                       | Some _ => []
                       end) ∧
  (∀ (l : UnstructuredList U) (d : dirDumper) (o : O) tr
     (ok : string → bool),
      cache_named d →
      (∀ path, ok path → sink_by_spec.healthy path) →
      ∃ d' o' evs,
        (Dump l (d, (o, tr))).2 = (d', (o', tr ++ evs)) ∧
        received evs `sublist_of` (Items l ≫= fanout (dir d)) ∧
        filter (λ w, ok w.1) (received evs)
        = filter (λ w, ok w.1) (Items l ≫= fanout (dir d))).
Proof.
  split_and!.
  - apply dumpObject_by_spec.
  - intros l st. unfold Dump. rewrite rangeItems_by_spec.
    pose proof (rangeItems_errors (Items l) [] st) as (new & Hnew & Hs & _).
    rewrite rangeItems_by_spec in Hnew.
    destruct (sink_by_spec.pageBySpec (Items l) [] st) as [errs st'].
    cbn [fst snd] in *. subst errs. split; [done|].
    by apply errorsOf_Combine.
  - intros path p d o tr Hnamed.
    destruct (writeToFile_spec path p d o tr Hnamed)
      as (r & d' & o' & evs & Hw & Hwr & Hg & Hrec).
    exists r, d', o', evs. split_and!; [done..| |done].
    by destruct Hg as (_ & ? & _).
  - intros l d o tr ok Hnamed Hok. unfold Dump. rewrite rangeItems_by_spec.
    destruct (pageBySpec_isolated ok Hok (Items l) [] d o tr Hnamed)
      as (errs & d' & o' & evs & Hrun & _ & Hsub & Hfil).
    unfold State, Sys in *. rewrite Hrun. by exists d', o', evs.
Qed.

(** C10. An object that does not encode makes no call into the
    operating system: the loop body leaves the system, the trace and
    the cache as they were, so it writes to no file, [objects-<kind>]
    included, and appends the encoding failure to the errors.  The loop
    runs the objects after it from that state; and the combined error
    that [Dump] returns holds the encoding failure of every object of
    the page that does not encode. *)
Theorem unencodable_object_is_skipped :
  (∀ (x : U) e errs (d : dirDumper) (y : Sys),
      MarshalJSON x = inl e →
      dumpObject x errs (d, y)
      = (errs ++ [encodeError e], (set_sharedBuf "" d, y))) ∧
  (∀ (pre : list U) x post e errs (st : State),
      MarshalJSON x = inl e →
      rangeItems (pre ++ x :: post) errs st
      = let '(errs1, (d1, y1)) := rangeItems pre errs st in
        rangeItems post (errs1 ++ [encodeError e]) (set_sharedBuf "" d1, y1)) ∧
  (∀ (l : UnstructuredList U) x e (st : State),
      x ∈ Items l → MarshalJSON x = inl e →
      reported (Dump l st).1 (encodeError e)).
Proof.
  assert (∀ (x : U) e errs (d : dirDumper) (y : Sys),
            MarshalJSON x = inl e →
            dumpObject x errs (d, y)
            = (errs ++ [encodeError e], (set_sharedBuf "" d, y))) as Hone.
  { intros x e errs d y Hm. unfold dumpObject, Encode. by rewrite Hm. }
  split_and!.
  - exact Hone.
  - intros pre x post e errs st Hm. rewrite rangeItems_app.
    destruct (rangeItems pre errs st) as [errs1 [d1 y1]].
    cbn [rangeItems]. by rewrite (Hone x e errs1 d1 y1 Hm).
  - intros l x e st Hx Hm. unfold Dump.
    destruct (rangeItems_errors (Items l) [] st) as (new & Hnew & Hs & Hin).
    destruct (rangeItems (Items l) [] st) as [errs st']. simpl in *.
    subst errs. apply reported_Combine; [done|]. by eapply Hin.
Qed.

(** *** A page that is dumped without error *)

Lemma itemReceived_clean dir (x : U) outs :
  itemErrors x outs = [] →
  length outs = length (attempts dir x) →
  is_Some (serialized x) ∧ itemReceived dir x outs = fanout dir x.
Proof.
  unfold itemErrors, attempts, itemReceived, fanout, serialized.
  destruct (MarshalJSON x) as [e|b]; [done|].
  intros Hnil Hlen. split; [by eexists|].
  revert outs Hnil Hlen.
  induction (destinations dir x) as [|path dests IH];
    intros [|[e|] outs] Hnil Hlen; simplify_eq/=; [done|].
  f_equal. by apply IH.
Qed.

Lemma page_clean dir (items : list U) outss :
  Forall2 (λ x outs, length outs = length (attempts dir x)) items outss →
  concat (zip_with itemErrors items outss) = [] →
  Forall (λ x, is_Some (serialized x)) items ∧
  concat (zip_with (itemReceived dir) items outss) = items ≫= fanout dir.
Proof.
  induction 1 as [|x outs items outss Hlen _ IH]; simpl; [done|].
  intros [Hx Hrest]%app_eq_nil.
  destruct (itemReceived_clean dir x outs Hx Hlen) as [Hs ->].
  destruct (IH Hrest) as [Hall ->]. split; [by constructor|done].
Qed.

(** C1, amended. A record of a page for which the call records no
    failure, whatever becomes of the records before and after it: the
    record [x] stands in the page between the records [pre] and the
    records [post], and the loop body, run on it from the state that
    the records before it leave, adds nothing to the errors.  Then the
    record was encoded, and the writes that reached a file while it
    was processed, a part of the trace of the whole call, are these.
    For a record with the empty namespace: its bytes to the one path
    [objects-<kind>].  For a record with a namespace whose kind is not
    ["__all__"]: its bytes to the paths [objects-<kind>],
    [split/<namespace>/__all__] and [split/<namespace>/<kind>], which
    are three different paths, so that exactly three paths receive the
    record. *)
Theorem Dump_fans_out (l : UnstructuredList U) (pre post : list U) (x : U)
  (d : dirDumper) (o : O) (tr : list Event) (errs0 : list error)
  (st0 : State) :
  cache_named d →
  Items l = pre ++ x :: post →
  rangeItems pre [] (d, (o, tr)) = (errs0, st0) →
  (dumpObject x errs0 st0).1 = errs0 →
  ∃ p evs0 evs evs2 ret d' o',
    serialized x = Some p ∧
    st0.2.2 = tr ++ evs0 ∧
    (dumpObject x errs0 st0).2.2.2 = tr ++ evs0 ++ evs ∧
    Dump l (d, (o, tr)) = (ret, (d', (o', tr ++ evs0 ++ evs ++ evs2))) ∧
    (GetNamespace x = "" →
     received evs = [(objectsPath (dir d) (GetKind x), p)]) ∧
    (GetNamespace x ≠ "" → GetKind x ≠ "__all__" →
     received evs
     = [(objectsPath (dir d) (GetKind x), p);
        (allPath (dir d) (GetNamespace x), p);
        (kindPath (dir d) (GetNamespace x) (GetKind x), p)] ∧
     NoDup (received evs).*1 ∧
     length (received evs).*1 = 3).
Proof.
  intros Hnamed Hitems Hpre Hclean.
  destruct (rangeItems_spec pre [] d o tr Hnamed)
    as (outss0 & d0 & o0 & evs0 & Hspec0 & _ & _ & _ & Hg0).
  unfold State, Sys in *. rewrite Hspec0 in Hpre.
  injection Hpre as <- <-.
  assert (cache_named d0) as Hnamed0 by (by destruct Hg0 as (_ & ? & _)).
  assert (dir d0 = dir d) as Hdir0 by (by destruct Hg0).
  destruct (dumpObject_spec x (concat (zip_with itemErrors pre outss0))
              d0 o0 (tr ++ evs0) Hnamed0)
    as (outs & d1 & o1 & evs & Hone & Hlen & _ & Hrec & Hg1).
  cbn [app] in Hclean, Hone. unfold State, Sys in *.
  rewrite Hone in Hclean. cbn [fst] in Hclean.
  assert (itemErrors x outs = []) as Hnil.
  { apply (app_inv_head (concat (zip_with itemErrors pre outss0))).
    by rewrite app_nil_r. }
  destruct (itemReceived_clean (dir d0) x outs Hnil Hlen) as [[p Hp] Hfan].
  assert (cache_named d1) as Hnamed1 by (by destruct Hg1 as (_ & ? & _)).
  destruct (rangeItems_spec post
              (concat (zip_with itemErrors pre outss0) ++ itemErrors x outs)
              d1 o1 ((tr ++ evs0) ++ evs) Hnamed1)
    as (outss2 & d2 & o2 & evs2 & Hspec2 & _).
  assert (received evs = fanout (dir d) x) as Hall
    by (by rewrite Hrec, Hfan, Hdir0).
  exists p, evs0, evs, evs2. eexists _, d2, o2.
  split_and!.
  - done.
  - done.
  - rewrite Hone. cbn [snd]. by rewrite <- app_assoc.
  - unfold Dump. rewrite Hitems, rangeItems_app.
    unfold State, Sys in *. rewrite Hspec0. cbn [rangeItems app].
    rewrite Hone, Hspec2. by rewrite <- !app_assoc.
  - intros Hns. rewrite Hall. unfold fanout, destinations. rewrite Hp.
    by rewrite decide_True.
  - intros Hns Hkind. rewrite Hall. unfold fanout, destinations.
    rewrite Hp. rewrite decide_False by done. split; [done|].
    split; [|done].
    exact (destinations_distinct (dir d) (GetNamespace x) (GetKind x) Hkind).
Qed.

(** *** The cache of open files *)

Lemma closeFiles_spec (fs : list File) errs (o : O) tr :
  ∃ rs o',
    length rs = length fs ∧
    closeFiles fs errs (o, tr)
    = (errs ++ omap id rs, (o', tr ++ zip_with EvClose fs rs)).
Proof.
  revert errs o tr. induction fs as [|f fs IH]; intros errs o tr.
  { exists [], o. by rewrite !app_nil_r. }
  cbn [closeFiles]. unfold File_Close. simpl.
  destruct (close f o) as [r o1].
  destruct (IH (appendErr errs r) o1 (tr ++ [EvClose f r]))
    as (rs & o' & Hlen & ->).
  exists (r :: rs), o'. split; [simpl; by rewrite Hlen|].
  rewrite appendErr_app, <- !app_assoc. by destruct r.
Qed.

Lemma closed_zip_with_EvClose (fs : list File) rs :
  length rs = length fs → closed (zip_with EvClose fs rs) = fs.
Proof.
  revert rs. induction fs as [|f fs IH]; intros [|r rs] Hlen;
    simplify_eq/=; [done|].
  unfold closed in *. simpl. f_equal. by apply IH.
Qed.

Lemma one_handle_per_path_grows d d' tr evs :
  grows d d' evs → one_handle_per_path d tr →
  one_handle_per_path d' (tr ++ evs).
Proof.
  intros (_ & _ & _ & Hperm & _) Hinv. unfold one_handle_per_path in *.
  by rewrite created_app, Hperm, Hinv.
Qed.

(** C3. The cache of open files.  A path that is cached is answered
    with the cached file, without a call and without a change.  A path
    that is not cached has its directory made and its file created,
    and the file is cached under the path when both succeed; when one
    fails the cache is as it was.  A call of [Dump] only adds to the
    cache and closes nothing, and it keeps the cache equal to the
    files created so far, as does the making of a sink, whose cache is
    empty.  Under that equality at most one file was ever created for
    a path, and the files created are the files cached.  [Close]
    closes each cached file once, in the order of its loop, and
    returns the combination of the failures. *)
Theorem handle_cache_lifecycle :
  (∀ path (d : dirDumper) (y : Sys) f,
      openFiles d !! path = Some f → file path (d, y) = (inr f, (d, y))) ∧
  (∀ path (d : dirDumper) (o : O) tr,
      openFiles d !! path = None →
      ∃ r d' o' evs,
        file path (d, (o, tr)) = (r, (d', (o', tr ++ evs))) ∧
        match r with
        | inr f =>
            evs = [EvMkdirAll (filepath_Dir path) None;
                   EvCreate path (inr f)] ∧
            name f = path ∧
            openFiles d' = <[path := f]> (openFiles d)
        | inl _ => created evs = [] ∧ openFiles d' = openFiles d
        end) ∧
  (∀ (l : UnstructuredList U) (d : dirDumper) (o : O) tr,
      cache_named d →
      ∃ ret d' o' evs,
        Dump l (d, (o, tr)) = (ret, (d', (o', tr ++ evs))) ∧
        openFiles d ⊆ openFiles d' ∧
        cache_named d' ∧
        closed evs = [] ∧
        (one_handle_per_path d tr → one_handle_per_path d' (tr ++ evs))) ∧
  (∀ dir (o : O) tr d y,
      created tr = [] →
      newDirDumper dir (o, tr) = (inr d, y) →
      openFiles d = ∅ ∧ cache_named d ∧ one_handle_per_path d y.2) ∧
  (∀ (d : dirDumper) tr,
      one_handle_per_path d tr →
      NoDup (created tr).*1 ∧
      ∀ path f, (path, f) ∈ created tr ↔ openFiles d !! path = Some f) ∧
  (∀ order (d : dirDumper) (o : O) tr,
      order ≡ₚ map_to_list (openFiles d) →
      ∃ rs o',
        length rs = length order ∧
        Close order (d, (o, tr))
        = (multierr.Combine (omap id rs),
           (d, (o', tr ++ zip_with EvClose order.*2 rs))) ∧
        closed (zip_with EvClose order.*2 rs) = order.*2 ∧
        order.*2 ≡ₚ (map_to_list (openFiles d)).*2).
Proof.
  split_and!.
  - apply file_cached.
  - intros path d o tr Hnone.
    destruct (file_fresh path d o tr Hnone)
      as (r & d' & o' & evs & Hrun & _ & _ & _ & _ & Hr).
    exists r, d', o', evs. split; [done|].
    destruct r as [e|f]; [|done].
    destruct Hr as [[e' [-> | ->]] Hcache]; done.
  - intros l d o tr Hnamed. unfold Dump.
    destruct (rangeItems_spec (Items l) [] d o tr Hnamed)
      as (outss & d' & o' & evs & Hrun & _ & _ & _ & Hg).
    unfold State, Sys in *. rewrite Hrun.
    eexists _, d', o', evs. split; [done|].
    pose proof Hg as (_ & Hnamed' & Hsub & _ & Hcl).
    split_and!; [done..|]. by apply one_handle_per_path_grows.
  - intros dir o tr d y Hcr. unfold newDirDumper, os_MkdirAll. simpl.
    destruct (MkdirAll dir o) as [[e|] o1]; [done|].
    intros [= <- <-]. simpl. split_and!; [done|done|].
    unfold one_handle_per_path. simpl.
    by rewrite map_to_list_empty, created_app, Hcr.
  - intros d tr Hinv. unfold one_handle_per_path in Hinv. split.
    + rewrite <- Hinv. apply NoDup_fst_map_to_list.
    + intros path f. rewrite <- Hinv. apply elem_of_map_to_list.
  - intros order d o tr Hperm. unfold Close.
    destruct (closeFiles_spec (order.*2) [] o tr) as (rs & o' & Hlen & Hrun).
    unfold State, Sys in *. rewrite Hrun. simpl.
    exists rs, o'. rewrite length_fmap in Hlen.
    split_and!; [done|done| |by rewrite Hperm].
    apply closed_zip_with_EvClose. by rewrite length_fmap.
Qed.

End sink.

(** *** The theorems on the file system in memory *)
Section on_example.
Import memfs examples more_examples.

Lemma freshSink_named : cache_named freshSink.
Proof.
  intros path f H. unfold freshSink, openFiles in H.
  by rewrite lookup_empty in H.
Qed.

(** The pod, the pod of the other namespace and the node, dumped on
    the disk where [split/ns1/Pod.json] cannot be created: the call
    returns an error, for the third write of the first pod, and the
    bytes of the second pod, for which no failure is recorded, reach
    its three paths. *)
Lemma Dump_fans_out_witness :
  (@Dump Disk Obj (memOS unwritable) _ (page [pod; elsewhere; node])
     (freshSink, freshDisk)).1 ≠ None ∧
  received
    (@dumpObject Disk Obj (memOS unwritable) _ elsewhere
       afterPod.1 afterPod.2).2.2.2
  = received afterPod.2.2.2
    ++ [("out/objects-Pod.json", "Pod ns2 db" +:+ nl);
        ("out/split/ns2/__all__.json", "Pod ns2 db" +:+ nl);
        ("out/split/ns2/Pod.json", "Pod ns2 db" +:+ nl)] ∧
  ∃ p evs0 evs evs2 ret d' o',
    serialized elsewhere = Some p ∧
    afterPod.2.2.2 = [] ++ evs0 ∧
    (@dumpObject Disk Obj (memOS unwritable) _ elsewhere
       afterPod.1 afterPod.2).2.2.2 = [] ++ evs0 ++ evs ∧
    @Dump Disk Obj (memOS unwritable) _ (page [pod; elsewhere; node])
      (freshSink, (memfs.empty, []))
    = (ret, (d', (o', [] ++ evs0 ++ evs ++ evs2))) ∧
    (GetNamespace elsewhere = "" →
     received evs
     = [(objectsPath (dir freshSink) (GetKind elsewhere), p)]) ∧
    (GetNamespace elsewhere ≠ "" → GetKind elsewhere ≠ "__all__" →
     received evs
     = [(objectsPath (dir freshSink) (GetKind elsewhere), p);
        (allPath (dir freshSink) (GetNamespace elsewhere), p);
        (kindPath (dir freshSink) (GetNamespace elsewhere)
           (GetKind elsewhere), p)] ∧
     NoDup (received evs).*1 ∧
     length (received evs).*1 = 3).
Proof.
  split; [by vm_compute|].
  split; [vm_compute; reflexivity|].
  apply (@Dump_fans_out Disk Obj (memOS unwritable) _
           (page [pod; elsewhere; node]) [pod] [node] elsewhere
           freshSink memfs.empty [] afterPod.1 afterPod.2).
  - exact freshSink_named.
  - reflexivity.
  - vm_compute. reflexivity.
  - vm_compute. reflexivity.
Defined.

(** Three records with a namespace that do not reach three paths.  An
    object whose kind is ["__all__"]: the dump returns no error, and
    the object's bytes reach two paths, the second of them twice, since
    its second and third destination are the same path.  The pod, on a
    disk where its third file cannot be created: the dump returns the
    failure, and the pod's bytes reach two paths.  The object that
    cannot be encoded: the dump returns the failure and nothing is
    written. *)
Lemma namespaced_records_short_of_three_paths :
  GetNamespace reserved ≠ "" ∧
  reservedRun.1 = None ∧
  received reservedRun.2.2.2
  = [("out/objects-__all__.json", "__all__ ns1 x" +:+ nl);
     ("out/split/ns1/__all__.json", "__all__ ns1 x" +:+ nl);
     ("out/split/ns1/__all__.json", "__all__ ns1 x" +:+ nl)] ∧
  received reservedRun.2.2.2 = fanout "out" reserved ∧
  receivers "out" reserved
  = ["out/objects-__all__.json"; "out/split/ns1/__all__.json"] ∧
  length (receivers "out" reserved) ≠ 3 ∧
  ¬ NoDup [objectsPath "out" (GetKind reserved);
           allPath "out" (GetNamespace reserved);
           kindPath "out" (GetNamespace reserved) (GetKind reserved)] ∧
  files reservedRun.2.2.1 !! "out/split/ns1/__all__.json"
  = Some (("__all__ ns1 x" +:+ nl) +:+ "__all__ ns1 x" +:+ nl) ∧
  GetNamespace pod ≠ "" ∧ GetKind pod ≠ "__all__" ∧
  hinderedRun.1
  = Some (Errorf "failed to open file for copying: %w" []
            (Errorf "failed to create file %q: %w" ["out/split/ns1/Pod.json"]
               (ErrExternal "open: permission denied"))) ∧
  received hinderedRun.2.2.2
  = [("out/objects-Pod.json", "Pod ns1 web" +:+ nl);
     ("out/split/ns1/__all__.json", "Pod ns1 web" +:+ nl)] ∧
  GetNamespace broken ≠ "" ∧ GetKind broken ≠ "__all__" ∧
  brokenRun.1 ≠ None ∧
  received brokenRun.2.2.2 = [].
Proof.
  split_and!; try (vm_compute; reflexivity); try done.
  intros Hnd. apply NoDup_cons in Hnd as [_ Hnd].
  apply NoDup_cons in Hnd as [Hnotin _].
  apply Hnotin. apply elem_of_cons. by left.
Qed.

Lemma others_healthy path :
  others path → @sink_by_spec.healthy Disk (memOS firstUnwritable) path.
Proof.
  intros Hp. unfold sink_by_spec.healthy. split_and!; [done| |done].
  intros o. cbn [open_create memOS firstUnwritable]. unfold others in Hp.
  destruct (bool_decide (path = "out/objects-Pod.json")); [done|].
  by eexists.
Qed.

(** The file [objects-Pod.json] cannot be created, so the first write
    of the pod fails: the returned error is that one failure, the two
    other destinations of the pod receive it, and so does the
    destination of the node after it. *)
Lemma Dump_isolates_write_failures_witness :
  (@Dump Disk Obj (memOS firstUnwritable) _ (page [pod; node])
     (freshSink, freshDisk)).1
  = Some (Errorf "failed to open file for copying: %w" []
            (Errorf "failed to create file %q: %w" ["out/objects-Pod.json"]
               (ErrExternal "open: permission denied")))
  ∧ sink_by_spec.errorsOf
      (@Dump Disk Obj (memOS firstUnwritable) _ (page [pod; node])
         (freshSink, freshDisk)).1
    = (@sink_by_spec.pageBySpec Disk Obj (memOS firstUnwritable) _
         (Items (page [pod; node])) [] (freshSink, freshDisk)).1
  ∧ (∃ d' o' evs,
        (@Dump Disk Obj (memOS firstUnwritable) _ (page [pod; node])
           (freshSink, freshDisk)).2 = (d', (o', [] ++ evs)) ∧
        received evs
          `sublist_of` (Items (page [pod; node]) ≫= fanout (dir freshSink)) ∧
        filter (λ w, others w.1) (received evs)
        = filter (λ w, others w.1)
            (Items (page [pod; node]) ≫= fanout (dir freshSink)))
  ∧ received
      (@Dump Disk Obj (memOS firstUnwritable) _ (page [pod; node])
         (freshSink, freshDisk)).2.2.2
    = [("out/split/ns1/__all__.json", "Pod ns1 web" +:+ nl);
       ("out/split/ns1/Pod.json", "Pod ns1 web" +:+ nl);
       ("out/objects-Node.json", "Node  n1" +:+ nl)].
Proof.
  destruct (@Dump_isolates_write_failures Disk Obj (memOS firstUnwritable) _)
    as (_ & H2 & _ & H4).
  split_and!.
  - vm_compute. reflexivity.
  - apply (proj2 (H2 (page [pod; node]) (freshSink, freshDisk))).
  - apply (H4 (page [pod; node]) freshSink memfs.empty [] others
             freshSink_named others_healthy).
  - vm_compute. reflexivity.
Defined.

(** The object that does not encode, between the pod and the node. *)
Lemma unencodable_object_is_skipped_witness :
  @dumpObject Disk Obj (memOS never) _ broken [] (freshSink, freshDisk)
  = ([] ++ [encodeError (ErrExternal "json: unsupported value")],
     (set_sharedBuf "" freshSink, freshDisk))
  ∧ reported
      (@Dump Disk Obj (memOS never) _ (page [pod; broken; node])
         (freshSink, freshDisk)).1
      (encodeError (ErrExternal "json: unsupported value"))
  ∧ received
      (@Dump Disk Obj (memOS never) _ (page [pod; broken; node])
         (freshSink, freshDisk)).2.2.2
    = [pod; node] ≫= fanout "out".
Proof.
  destruct (@unencodable_object_is_skipped Disk Obj (memOS never) _)
    as (H1 & H2 & H3).
  split_and!.
  - apply H1. reflexivity.
  - apply (H3 (page [pod; broken; node]) broken).
    + apply elem_of_cons. right. apply elem_of_cons. by left.
    + reflexivity.
  - vm_compute. reflexivity.
Defined.

(** A sink made on the empty disk, one page dumped, then closed while
    closing [objects-Pod.json] fails. *)
Lemma handle_cache_lifecycle_witness :
  @newDirDumper Disk (memOS uncloseable) "out" (memfs.empty, [])
  = (inr freshSink, (memfs.empty, madeTrace)) ∧
  (openFiles freshSink = ∅ ∧ cache_named freshSink ∧
   one_handle_per_path freshSink madeTrace) ∧
  (∃ ret d' o' evs,
      dumpedTwo = (ret, (d', (o', madeTrace ++ evs))) ∧
      openFiles freshSink ⊆ openFiles d' ∧
      cache_named d' ∧
      closed evs = [] ∧
      (one_handle_per_path freshSink madeTrace →
       one_handle_per_path d' (madeTrace ++ evs))) ∧
  (∃ rs o',
      length rs = length closeOrder ∧
      @Close Disk (memOS uncloseable) closeOrder
        (dumpedTwo.2.1, (dumpedTwo.2.2.1, dumpedTwo.2.2.2))
      = (multierr.Combine (omap id rs),
         (dumpedTwo.2.1,
          (o', dumpedTwo.2.2.2 ++ zip_with EvClose closeOrder.*2 rs))) ∧
      closed (zip_with EvClose closeOrder.*2 rs) = closeOrder.*2 ∧
      closeOrder.*2 ≡ₚ (map_to_list (openFiles dumpedTwo.2.1)).*2) ∧
  (@Close Disk (memOS uncloseable) closeOrder dumpedTwo.2).1
  = Some (ErrExternal "close: input/output error").
Proof.
  destruct (@handle_cache_lifecycle Disk Obj (memOS uncloseable) _)
    as (_ & _ & H3 & H4 & _ & H6).
  refine (conj _ (conj _ (conj _ (conj _ _)))).
  - reflexivity.
  - apply (H4 "out" memfs.empty [] freshSink (memfs.empty, madeTrace));
      reflexivity.
  - apply (H3 (page [pod; node]) freshSink memfs.empty madeTrace).
    exact freshSink_named.
  - apply (H6 closeOrder dumpedTwo.2.1 dumpedTwo.2.2.1 dumpedTwo.2.2.2).
    reflexivity.
  - vm_compute. reflexivity.
Defined.

End on_example.

End dumper_facts.

(** ** More on the pagination driver *)
Module driver_more.
Import schema metav1 unstructured discovery discovery_spec driver_shape.
Import discovery_driver.

Section more.
Context {W U : Type} `{!Cluster W U}.

(** A pagination that returned is a chain of pages. *)
Lemma paginate_pages fuel dynClient (cb : Callback W U) batchSize res key
  errors (s : State) e s' :
  paginate fuel dynClient cb batchSize res key errors s = (Returned e, s') →
  ∃ evs, s'.2 = s.2 ++ evs ∧ pages batchSize res key evs.
Proof.
  revert key errors s. induction fuel as [|fuel IH]; intros key errors s;
    [done|].
  cbn [paginate].
  destruct (List dynClient res _ s.1) as [[err|l] w1]; simpl.
  { intros [= <- <-]. eexists. split; [done|]. constructor. }
  destruct (cb l w1) as [rc w2]; simpl. case_decide as Hc.
  { intros [= <- <-]. eexists [_; _]. split; [by rewrite <- app_assoc|].
    by constructor. }
  intros Hrun. destruct (IH _ _ _ Hrun) as (evs & -> & Hp). simpl.
  eexists (_ :: _ :: evs). split; [by rewrite <- !app_assoc|].
  by constructor.
Qed.

Lemma rangeAPIResources_segments fuel dynClient (cb : Callback W U)
  batchSize logWriter re rs errors (s : State) e s' :
  rangeAPIResources fuel dynClient cb batchSize logWriter re rs errors s
  = (Returned e, s') →
  ∃ segs, s'.2 = s.2 ++ concat segs ∧
          Forall2 (segment batchSize logWriter) (pair re <$> rs) segs.
Proof.
  revert errors s. induction rs as [|r rs IH]; intros errors s; simpl.
  { intros [= <- <-]. exists []. simpl. by rewrite app_nil_r. }
  destruct (discoverResource fuel _ _ _ _ _ _ _ _) as [[e1|] s1] eqn:Hd;
    [|done].
  intros Hrun. destruct (IH _ _ Hrun) as (segs & -> & Hsegs).
  assert (∃ seg, s1.2 = s.2 ++ seg ∧ segment batchSize logWriter (re, r) seg)
    as (seg & -> & Hseg).
  { unfold discoverResource in Hd.
    destruct (Contains (Verbs r) "list") eqn:Hv; simpl in Hd.
    - apply Contains_spec in Hv.
      destruct (paginate_pages _ _ _ _ _ _ _ _ _ _ Hd) as (seg & Htr & Hp).
      exists seg. split; [done|]. unfold segment. simpl.
      by rewrite decide_True.
    - assert (¬ listable r) as Hn.
      { unfold listable. rewrite <- Contains_spec. by rewrite Hv. }
      injection Hd as <- <-. eexists. split; [done|].
      unfold segment. simpl. by rewrite decide_False. }
  exists (seg :: segs). simpl. split; [by rewrite <- app_assoc|].
  by constructor.
Qed.

Lemma rangeLists_segments fuel dynClient (cb : Callback W U)
  batchSize logWriter sprl errors (s : State) e s' :
  rangeLists fuel dynClient cb batchSize logWriter sprl errors s
  = (Returned e, s') →
  ∃ segs, s'.2 = s.2 ++ concat segs ∧
          Forall2 (segment batchSize logWriter) (entries sprl) segs.
Proof.
  revert errors s. induction sprl as [|re sprl IH]; intros errors s; simpl.
  { intros [= <- <-]. exists []. simpl. by rewrite app_nil_r. }
  destruct (rangeAPIResources fuel _ _ _ _ _ _ _ _) as [[e1|] s1] eqn:Hd;
    [|done].
  intros Hrun. destruct (IH _ _ Hrun) as (segs2 & -> & Hsegs2).
  destruct (rangeAPIResources_segments _ _ _ _ _ _ _ _ _ _ _ Hd)
    as (segs1 & -> & Hsegs1).
  exists (segs1 ++ segs2). rewrite concat_app, <- app_assoc.
  split; [done|].
  change (entries (re :: sprl))
    with ((pair re <$> APIResources re) ++ entries sprl).
  by apply Forall2_app.
Qed.

Lemma pages_logged batchSize res key (evs : list (Event U)) :
  pages batchSize res key evs → logged evs = [].
Proof. induction 1; done. Qed.

Lemma logged_app (evs1 evs2 : list (Event U)) :
  logged (evs1 ++ evs2) = logged evs1 ++ logged evs2.
Proof. apply omap_app. Qed.

Lemma started_app (evs1 evs2 : list (Event U)) :
  started (evs1 ++ evs2) = started evs1 ++ started evs2.
Proof. apply omap_app. Qed.

Lemma started_none (rest : list (Event U)) :
  (∀ e, e ∈ rest → ∀ res' o r', e ≠ EvList res' o r') → started rest = [].
Proof.
  induction rest as [|e rest IH]; intros Hrest; [done|].
  change (e :: rest) with ([e] ++ rest). rewrite started_app, IH.
  - destruct e as [| |res' o r'|]; try done.
    exfalso. eapply (Hrest (EvList res' o r')); [apply elem_of_cons; by left|].
    done.
  - intros e' He'. apply Hrest. apply elem_of_cons. by right.
Qed.

Lemma started_page batchSize res key r (rest : list (Event U)) :
  (∀ e, e ∈ rest → ∀ res' o r', e ≠ EvList res' o r') →
  started (EvList res {| Limit := batchSize; Continue := key |} r :: rest)
  = if decide (key = "") then [res] else [].
Proof.
  intros Hrest.
  change (EvList res {| Limit := batchSize; Continue := key |} r :: rest)
    with ([EvList res {| Limit := batchSize; Continue := key |} r] ++ rest).
  rewrite started_app, (started_none rest Hrest), app_nil_r.
  unfold started. simpl. by case_decide.
Qed.

Lemma pages_started batchSize res key (evs : list (Event U)) :
  pages batchSize res key evs →
  started evs = if decide (key = "") then [res] else [].
Proof.
  induction 1 as [key err|key l rc Hc|key l rc evs Hc _ IH].
  - apply started_page. by intros ? ?%elem_of_nil.
  - apply started_page. intros e He ???. by elem_cases He.
  - change (EvList res {| Limit := batchSize; Continue := key |} (inr l)
            :: EvCallback l rc :: evs)
      with ([EvList res {| Limit := batchSize; Continue := key |} (inr l);
             EvCallback l rc] ++ evs).
    rewrite started_app, IH. rewrite decide_False by done.
    rewrite app_nil_r. apply started_page.
    intros e He ???. by elem_cases He.
Qed.

Lemma segments_logged_started batchSize logWriter xs
  (segs : list (list (Event U))) :
  Forall2 (segment batchSize logWriter) xs segs →
  logged (concat segs)
  = (λ x, (logWriter, skipNotice (resourceOf x.1 x.2)))
      <$> filter (λ x, ¬ listable x.2) xs ∧
  started (concat segs)
  = (λ x, resourceOf x.1 x.2) <$> filter (λ x, listable x.2) xs.
Proof.
  induction 1 as [|x seg xs segs Hseg _ [IHl IHs]]; simpl; [done|].
  rewrite logged_app, started_app, IHl, IHs, !filter_cons.
  unfold segment in Hseg. destruct (decide (listable x.2)) as [Hl|Hl].
  - rewrite (pages_logged _ _ _ _ Hseg), (pages_started _ _ _ _ Hseg).
    rewrite (decide_True (P := "" = "")) by done.
    destruct (decide (¬ listable x.2)); done.
  - subst seg. destruct (decide (¬ listable x.2)); done.
Qed.

(** The four ways a run of [DiscoverObjects] can go. *)
Lemma DiscoverObjects_cases fuel conf (cb : Callback W U) opts (s : State) :
  (∃ err, NewDiscoveryClientForConfig conf = inl err ∧
          DiscoverObjects fuel conf cb opts s
          = (Returned (Some (Errorf "failed to create discovery client: %w"
                               [] err)), s)) ∨
  (∃ dc err, NewDiscoveryClientForConfig conf = inr dc ∧
             NewForConfig conf = inl err ∧
             DiscoverObjects fuel conf cb opts s
             = (Returned (Some (Errorf "failed to create dynamic client: %w"
                                  [] err)), s)) ∨
  (∃ dc dynClient err w1,
      NewDiscoveryClientForConfig conf = inr dc ∧
      NewForConfig conf = inr dynClient ∧
      ServerPreferredResources dc s.1 = (inl err, w1) ∧
      DiscoverObjects fuel conf cb opts s
      = (Returned
           (Some (Errorf "failed to get server preferred resources: %w"
                    [] err)),
         (w1, s.2 ++ [EvServerPreferredResources (inl err)]))) ∨
  ready conf s.1.
Proof.
  unfold DiscoverObjects, ready.
  destruct (NewDiscoveryClientForConfig conf) as [err|dc] eqn:Hdc;
    [left; eauto|].
  destruct (NewForConfig conf) as [err|dynClient] eqn:Hdyn;
    [right; left; eauto|].
  destruct (ServerPreferredResources dc s.1) as [[err|sprl] w1] eqn:Hs.
  - right. right. left. eauto 10.
  - right. right. right. eauto 10.
Qed.

Lemma accumulated_delivered (evs : list (Event U)) errs :
  accumulated evs errs → deliveredPages evs = listedPages evs.
Proof.
  induction 1; unfold deliveredPages, listedPages in *; simpl; auto;
    by f_equal.
Qed.

(** X1. A step before the loops that fails ends the run at once,
    whatever the bound: [DiscoverObjects] returns the error of the
    step, wrapped and not combined, and the run has issued no list
    call, called the callback on no page and written no log line. *)
Theorem setup_failure_aborts fuel conf (cb : Callback W U) opts
  (s : State) :
  ¬ ready conf s.1 →
  ∃ e w' evs,
    DiscoverObjects fuel conf cb opts s
    = (Returned (Some e), (w', s.2 ++ evs)) ∧
    setupError e ∧
    listCalls evs = [] ∧ deliveredPages evs = [] ∧ logged evs = [].
Proof.
  intros Hn.
  destruct (DiscoverObjects_cases fuel conf cb opts s)
    as [(err & _ & ->)|[(dc & err & _ & _ & ->)
       |[(dc & dyn & err & w1 & _ & _ & _ & ->)|Hr]]]; [..|done].
  - eexists _, s.1, []. rewrite app_nil_r. destruct s.
    split_and!; [done| |done..]. exists err. auto.
  - eexists _, s.1, []. rewrite app_nil_r. destruct s.
    split_and!; [done| |done..]. exists err. auto.
  - eexists _, w1, [_]. split_and!; [done| |done..]. exists err. auto.
Qed.

(** X2. Every list call of a run carries [GetBatchSize opts] as its
    limit: 500 when [BatchSize] is 0 and [BatchSize] itself otherwise,
    a negative one included; so no list call carries the limit 0. *)
Theorem list_calls_carry_batch_size fuel conf (cb : Callback W U) opts
  (s : State) :
  ∃ w' evs,
    (DiscoverObjects fuel conf cb opts s).2 = (w', s.2 ++ evs) ∧
    ∀ res o r, EvList res o r ∈ evs →
      Limit o = GetBatchSize opts ∧
      Limit o ≠ 0%Z ∧
      (BatchSize opts = 0%Z → Limit o = 500%Z) ∧
      (BatchSize opts ≠ 0%Z → Limit o = BatchSize opts).
Proof.
  destruct (DiscoverObjects_cases fuel conf cb opts s)
    as [(err & _ & ->)|[(dc & err & _ & _ & ->)
       |[(dc & dyn & err & w1 & _ & _ & _ & ->)
        |(dc & dyn & sprl & w1 & Hdc & Hdyn & Hs)]]].
  - exists s.1, []. rewrite app_nil_r. destruct s. split; [done|].
    by intros ??? ?%elem_of_nil.
  - exists s.1, []. rewrite app_nil_r. destruct s. split; [done|].
    by intros ??? ?%elem_of_nil.
  - eexists w1, [_]. split; [done|]. intros ??? Hin. by elem_cases Hin.
  - destruct (DiscoverObjects_spec fuel conf cb opts s _ _ _ _ Hdc Hdyn Hs)
      as (w' & evs & errs & -> & _ & Hperm & _).
    eexists w', _. split; [done|]. intros res o r Hin.
    apply elem_of_cons in Hin as [Hin|Hin]; [done|].
    apply elem_of_app in Hin as [Hin|Hin].
    { unfold listing in Hin. apply elem_of_cons in Hin as [Hin|Hin]; [done|].
      apply list_elem_of_bind in Hin as (re & Hin & _).
      apply elem_of_cons in Hin as [Hin|Hin]; [done|].
      by apply list_elem_of_fmap in Hin as (? & ? & _). }
    rewrite Forall_forall in Hperm. apply Hperm in Hin as [-> _].
    unfold GetBatchSize. case_decide; split_and!; try done; lia.
Qed.

(** X3. The shape of a run that returns.  After the discovery query
    and the listing, the trace is one segment for each entry of the
    discovery result, in the order of the result: the skip notice alone
    for an entry without the verb "list", and for a listable entry
    the chain of its pages, begun with the empty cursor, each list call
    carrying the cursor of the page before it, ended by a failed call
    or an empty cursor.  So the only lines logged after the listing are
    the skip notices, no failure among them, and the list calls with
    the empty cursor are one for each listable entry, in order. *)
Theorem returned_run_shape fuel conf (cb : Callback W U) opts (s : State)
  dc dynClient sprl w1 ret s' :
  NewDiscoveryClientForConfig conf = inr dc →
  NewForConfig conf = inr dynClient →
  ServerPreferredResources dc s.1 = (inr sprl, w1) →
  DiscoverObjects fuel conf cb opts s = (Returned ret, s') →
  ∃ segs,
    s'.2 = s.2 ++ EvServerPreferredResources (inr sprl)
                  :: listing (GetLogWriter opts) sprl ++ concat segs ∧
    Forall2 (segment (GetBatchSize opts) (GetLogWriter opts))
      (entries sprl) segs ∧
    logged (concat segs)
    = (λ x, (GetLogWriter opts, skipNotice (resourceOf x.1 x.2)))
        <$> filter (λ x, ¬ listable x.2) (entries sprl) ∧
    started (concat segs)
    = (λ x, resourceOf x.1 x.2) <$> filter (λ x, listable x.2) (entries sprl).
Proof.
  intros Hdc Hdyn Hs. unfold DiscoverObjects. rewrite Hdc, Hdyn, Hs.
  rewrite logDiscovered_trace. simpl.
  destruct (rangeLists fuel _ _ _ _ _ _ _) as [[e|] s4] eqn:Hrun; [|done].
  intros [= <- <-].
  destruct (rangeLists_segments _ _ _ _ _ _ _ _ _ _ Hrun)
    as (segs & -> & Hsegs).
  exists segs. simpl. split; [by rewrite <- !app_assoc|].
  split; [done|].
  by apply (segments_logged_started (GetBatchSize opts)).
Qed.

(** X4. In every run, whatever the bound and however it ends, the
    pages the callback is called with are the pages the list calls
    returned, in the same order, each once: the callback is never
    called on anything else, and no page is passed by. *)
Theorem callback_sees_the_listed_pages fuel conf (cb : Callback W U) opts
  (s : State) :
  ∃ w' evs,
    (DiscoverObjects fuel conf cb opts s).2 = (w', s.2 ++ evs) ∧
    deliveredPages evs = listedPages evs.
Proof.
  destruct (DiscoverObjects_cases fuel conf cb opts s)
    as [(err & _ & ->)|[(dc & err & _ & _ & ->)
       |[(dc & dyn & err & w1 & _ & _ & _ & ->)
        |(dc & dyn & sprl & w1 & Hdc & Hdyn & Hs)]]].
  - exists s.1, []. rewrite app_nil_r. by destruct s.
  - exists s.1, []. rewrite app_nil_r. by destruct s.
  - by eexists w1, [_].
  - destruct (DiscoverObjects_spec fuel conf cb opts s _ _ _ _ Hdc Hdyn Hs)
      as (w' & evs & errs & -> & Hacc & _ & _).
    eexists w', _. split; [done|].
    apply (accumulated_delivered _ ([] ++ errs)).
    constructor. apply accumulated_app; [apply accumulated_listing|done].
Qed.

Lemma accumulated_names batchSize logWriter xs (evs : list (Event U)) errs :
  accumulated evs errs →
  Forall (permitted batchSize logWriter xs) evs →
  Forall (λ e, ∃ x, x ∈ xs ∧ listable x.2 ∧ names (resourceOf x.1 x.2) e)
    errs.
Proof.
  induction 1 as [|w t evs errs _ IH|r evs errs _ IH|res o err evs errs _ IH
                  |res o l evs errs _ IH|res o l err evs errs _ IH];
    intros Hperm.
  - constructor.
  - apply IH. by apply Forall_inv_tail in Hperm.
  - apply IH. by apply Forall_inv_tail in Hperm.
  - constructor; [|apply IH; by apply Forall_inv_tail in Hperm].
    apply Forall_inv in Hperm as [_ (x & Hx & Hl & ->)].
    exists x. split_and!; [done..|]. exists err. by left.
  - apply IH. by do 2 apply Forall_inv_tail in Hperm.
  - constructor; [|apply IH; by do 2 apply Forall_inv_tail in Hperm].
    apply Forall_inv in Hperm as [_ (x & Hx & Hl & ->)].
    exists x. split_and!; [done..|]. exists err. by right.
Qed.

(** X5. Every error that a run combines into its result names a
    resource: it is the error of a failed list call or of a failed
    callback, made with the resource of a listable entry of the
    discovery result. *)
Theorem returned_errors_name_their_resource fuel conf (cb : Callback W U)
  opts (s : State) dc dynClient sprl w1 ret s' :
  NewDiscoveryClientForConfig conf = inr dc →
  NewForConfig conf = inr dynClient →
  ServerPreferredResources dc s.1 = (inr sprl, w1) →
  DiscoverObjects fuel conf cb opts s = (Returned ret, s') →
  ∃ errs,
    ret = multierr.Combine errs ∧
    Forall (λ e, ∃ x, x ∈ entries sprl ∧ listable x.2 ∧
                      names (resourceOf x.1 x.2) e) errs.
Proof.
  intros Hdc Hdyn Hs Hrun.
  destruct (DiscoverObjects_spec fuel conf cb opts s _ _ _ _ Hdc Hdyn Hs)
    as (w' & evs & errs & Htr & Hacc & Hperm & Hret).
  rewrite Hrun in Htr, Hret. simpl in *.
  destruct (Hret ret eq_refl) as [-> _]. exists errs.
  split; [done|].
  by apply (accumulated_names (GetBatchSize opts) (GetLogWriter opts) _ evs).
Qed.

End more.

(** *** On the example cluster *)
Section on_example.
Import examples more_examples apiserver.

Lemma setup_failure_aborts_witness :
  ∃ e w' evs,
    @DiscoverObjects _ _ downCluster 3 () sink options start
    = (Returned (Some e), (w', start.2 ++ evs)) ∧
    setupError e ∧
    listCalls evs = [] ∧ deliveredPages evs = [] ∧ logged evs = [].
Proof.
  apply (@setup_failure_aborts _ _ downCluster 3 () sink options start).
  intros (dc & dyn & sprl & w1 & _ & _ & H). discriminate H.
Defined.

Lemma returned_run_shape_witness :
  ∃ segs,
    (@DiscoverObjects _ _ cluster 5 () sink options start).2.2
    = start.2 ++ EvServerPreferredResources (inr discovered)
                 :: listing (GetLogWriter options) discovered
                    ++ concat segs ∧
    Forall2 (segment (GetBatchSize options) (GetLogWriter options))
      (entries discovered) segs ∧
    logged (concat segs)
    = (λ x, (GetLogWriter options, skipNotice (resourceOf x.1 x.2)))
        <$> filter (λ x, ¬ listable x.2) (entries discovered) ∧
    started (concat segs)
    = (λ x, resourceOf x.1 x.2)
        <$> filter (λ x, listable x.2) (entries discovered).
Proof.
  eapply (@returned_run_shape _ _ cluster 5 () sink options start
            () () discovered []); [reflexivity..|].
  vm_compute. reflexivity.
Defined.

Lemma returned_errors_name_their_resource_witness :
  ∃ errs,
    (@DiscoverObjects _ _ cluster 5 () sink options start).1
    = Returned (multierr.Combine errs) ∧
    Forall (λ e, ∃ x, x ∈ entries discovered ∧ listable x.2 ∧
                      names (resourceOf x.1 x.2) e) errs.
Proof.
  destruct (@returned_errors_name_their_resource _ _ cluster 5 () sink
              options start () () discovered []
              (multierr.Combine
                 [dumpError (resourceOf core pods)
                    (ErrExternal "sink failed");
                  listError (resourceOf apps deployments)
                    (ErrExternal "deployments.apps is forbidden")])
              (@DiscoverObjects _ _ cluster 5 () sink options start).2
              eq_refl eq_refl eq_refl)
    as (errs & Hret & Hnames).
  { vm_compute. reflexivity. }
  exists errs. split; [|done]. rewrite <- Hret. vm_compute. reflexivity.
Defined.

End on_example.

End driver_more.

(** ** More on the directory sink *)
Module sink_more.
Import unstructured dumper dumper_spec sink_shape dumper_facts.

Section more.
Context {O U : Type} `{!OS O} `{!Object U}.

(** *** A system that does not fail *)

Lemma writeToFile_reliable path b (st : State) :
  reliable O → (writeToFile path b st).1 = None.
Proof.
  intros (Hm & Hc & Hw). unfold writeToFile, file. destruct st as [d [o tr]].
  destruct (openFiles d !! path) as [f|].
  - unfold File_Write. simpl. specialize (Hw f b o).
    by destruct (write f b o) as [[e|] o1].
  - unfold os_MkdirAll. simpl. specialize (Hm (filepath_Dir path) o).
    destruct (MkdirAll (filepath_Dir path) o) as [[e|] o1]; [done|].
    unfold os_Create. simpl. destruct (Hc path o1) as [n Hn].
    destruct (open_create path o1) as [[e|n'] o2]; [done|].
    unfold File_Write. simpl.
    specialize (Hw {| fd := n'; name := path |} b o2).
    by destruct (write _ b o2) as [[e|] o3].
Qed.

Lemma rangeItems_reliable (items : list U) errs (st : State) :
  reliable O →
  Forall (λ x, is_Some (serialized x)) items →
  (rangeItems items errs st).1 = errs.
Proof.
  intros Hrel Hall. revert errs st.
  induction Hall as [|x items [p Hp] _ IH]; intros errs st; [done|].
  cbn [rangeItems].
  assert ((dumpObject x errs st).1 = errs) as Hone.
  { unfold dumpObject, Encode. destruct st as [d y].
    unfold serialized in Hp. destruct (MarshalJSON x) as [e|b]; [done|].
    pose proof (writeToFile_reliable
                  (objectsPath (dir (set_sharedBuf ("" +:+ b +:+ nl) d))
                     (GetKind x)) ("" +:+ b +:+ nl)
                  (set_sharedBuf ("" +:+ b +:+ nl) d, y) Hrel) as H1.
    destruct (writeToFile _ _ _) as [r1 st1]. simpl in H1. subst r1.
    case_decide; [done|].
    pose proof (writeToFile_reliable
                  (allPath (dir (set_sharedBuf ("" +:+ b +:+ nl) d))
                     (GetNamespace x)) ("" +:+ b +:+ nl) st1 Hrel) as H2.
    destruct (writeToFile _ _ st1) as [r2 st2]. simpl in H2. subst r2.
    pose proof (writeToFile_reliable
                  (kindPath (dir (set_sharedBuf ("" +:+ b +:+ nl) d))
                     (GetNamespace x) (GetKind x)) ("" +:+ b +:+ nl) st2 Hrel)
      as H3.
    destruct (writeToFile _ _ st2) as [r3 st3]. simpl in H3. by subst r3. }
  destruct (dumpObject x errs st) as [errs1 st1]. simpl in Hone. subst errs1.
  apply IH.
Qed.

(** X6. On a system where making directories, creating files and
    writing do not fail, a call of [Dump] on a page whose objects all
    encode returns no error, and the writes that reach a file are,
    object after object in the order of the page, the object's bytes to
    each of its destinations. *)
Theorem Dump_succeeds_on_reliable_system (l : UnstructuredList U)
  (d : dirDumper) (o : O) (tr : list Event) :
  reliable O →
  cache_named d →
  Forall (λ x, is_Some (serialized x)) (Items l) →
  ∃ d' o' evs,
    Dump l (d, (o, tr)) = (None, (d', (o', tr ++ evs))) ∧
    received evs = Items l ≫= fanout (dir d) ∧
    cache_named d'.
Proof.
  intros Hrel Hnamed Hall. unfold Dump.
  pose proof (rangeItems_reliable (Items l) [] (d, (o, tr)) Hrel Hall) as Hnone.
  destruct (rangeItems_spec (Items l) [] d o tr Hnamed)
    as (outss & d' & o' & evs & Hspec & Hlens & _ & Hrec & Hg).
  unfold State, Sys in *. rewrite Hspec in Hnone |- *. simpl in *.
  destruct (page_clean (dir d) (Items l) outss Hlens Hnone) as [_ Hfan].
  rewrite Hnone. exists d', o', evs.
  split_and!; [done|by rewrite Hrec|]. by destruct Hg as (_ & ? & _).
Qed.

(** *** Accounting for every attempt *)

Lemma item_accounted dir (x : U) outs :
  length outs = length (attempts dir x) →
  length (itemErrors x outs) + length (itemReceived dir x outs)
  = accounted dir x.
Proof.
  unfold itemErrors, itemReceived, attempts, accounted, serialized.
  destruct (MarshalJSON x) as [e|b]; [done|].
  generalize (destinations dir x). intros dests. revert dests.
  induction outs as [|[e|] outs IH]; intros [|path dests] Hlen;
    simplify_eq/=; [done|..].
  - specialize (IH dests Hlen). lia.
  - specialize (IH dests Hlen). lia.
Qed.

(** X7. Every attempt of a call of [Dump] is accounted for once: the
    number of errors it combines and the number of writes that reached
    a file add up to one for each object that does not encode and one
    for each destination of each object that does.  So a page of [n]
    objects gives at most [3 * n] errors.  The errors counted are the
    ones the call returns: none of them is itself a combined error, so
    that combining them keeps each of them as it is. *)
Theorem Dump_accounts_for_every_attempt (l : UnstructuredList U)
  (d : dirDumper) (o : O) (tr : list Event) :
  cache_named d →
  ∃ errs d' o' evs,
    Dump l (d, (o, tr)) = (multierr.Combine errs, (d', (o', tr ++ evs))) ∧
    Forall single errs ∧
    sink_by_spec.errorsOf (Dump l (d, (o, tr))).1 = errs ∧
    length errs + length (received evs)
    = sum_list (accounted (dir d) <$> Items l) ∧
    length errs ≤ 3 * length (Items l).
Proof.
  intros Hnamed. unfold Dump.
  destruct (rangeItems_spec (Items l) [] d o tr Hnamed)
    as (outss & d' & o' & evs & Hspec & Hlens & Hwr & Hrec & _).
  unfold State, Sys in *. rewrite Hspec. simpl.
  exists (concat (zip_with itemErrors (Items l) outss)), d', o', evs.
  split; [done|].
  split; [by apply pageErrors_single|].
  split; [by apply errorsOf_Combine, pageErrors_single|].
  rewrite Hrec. clear Hspec Hrec Hwr.
  induction Hlens as [|x outs items outss Hlen _ [IH1 IH2]]; simpl; [done|].
  rewrite !length_app.
  pose proof (item_accounted (dir d) x outs Hlen) as Hone.
  assert (accounted (dir d) x ≤ 3) as Hle.
  { unfold accounted, destinations. destruct (serialized x); [|lia].
    case_decide; simpl; lia. }
  simpl in *.
  change (list_fmap U nat (accounted (dir d)) items)
    with (accounted (dir d) <$> items).
  split; lia.
Qed.

(** *** Files are created when first written to, and then reused *)

Lemma NoDup_app_fst {A B} (l1 l2 : list (A * B)) :
  NoDup ((l1 ++ l2).*1) →
  NoDup l2.*1 ∧ ∀ a b, (a, b) ∈ l2 → a ∉ l1.*1.
Proof.
  rewrite fmap_app. intros (_ & Hdisj & Hnd)%NoDup_app. split; [done|].
  intros a b Hin Ha. apply (Hdisj a Ha).
  apply list_elem_of_fmap. by exists (a, b).
Qed.

Lemma writeToFile_cached path b (d : dirDumper) (o : O) tr f :
  openFiles d !! path = Some f →
  ∃ r r' o',
    writeToFile path b (d, (o, tr)) = (r', (d, (o', tr ++ [EvWrite f b r]))).
Proof.
  intros Hf. unfold writeToFile, file. rewrite Hf.
  unfold File_Write. simpl. destruct (write f b o) as [[e|] o1]; eauto.
Qed.

Lemma dumpObject_cached (x : U) errs (d : dirDumper) (o : O) tr :
  (∀ path, path ∈ attempts (dir d) x → is_Some (openFiles d !! path)) →
  ∃ errs' buf o' evs,
    dumpObject x errs (d, (o, tr))
    = (errs', (set_sharedBuf buf d, (o', tr ++ evs))) ∧
    Forall (λ e, makes e = false) evs ∧
    (writes evs).*2 = (fanout (dir d) x).*2 ∧
    (∀ f b, (f, b) ∈ writes evs → ∃ path, openFiles d !! path = Some f).
Proof.
  intros Hc. unfold dumpObject, Encode. unfold attempts, fanout, serialized in *.
  destruct (MarshalJSON x) as [e|b].
  { exists (errs ++ [encodeError e]), "", o, []. rewrite app_nil_r.
    split_and!; [done..|]. by intros ?? ?%elem_of_nil. }
  change ("" +:+ b +:+ nl) with (b +:+ nl).
  set (p := b +:+ nl). set (d0 := set_sharedBuf p d).
  change (dir d0) with (dir d). unfold destinations in *.
  destruct (Hc (objectsPath (dir d) (GetKind x))) as [f1 Hf1];
    [apply elem_of_cons; by left|].
  destruct (writeToFile_cached (objectsPath (dir d) (GetKind x)) p d0 o tr
              f1 Hf1) as (r1 & r1' & o1 & Hw1).
  unfold State, Sys in *. rewrite Hw1.
  case_decide as Hns.
  { eexists _, p, o1, [_]. split_and!; [done|by repeat constructor|done|].
    intros f b' Hin. unfold writes in Hin. simpl in Hin.
    apply list_elem_of_singleton in Hin. simplify_eq. eauto. }
  destruct (Hc (allPath (dir d) (GetNamespace x))) as [f2 Hf2];
    [apply elem_of_cons; right; apply elem_of_cons; by left|].
  destruct (Hc (kindPath (dir d) (GetNamespace x) (GetKind x))) as [f3 Hf3];
    [do 2 (apply elem_of_cons; right); apply elem_of_cons; by left|].
  destruct (writeToFile_cached (allPath (dir d) (GetNamespace x)) p d0 o1
              (tr ++ [EvWrite f1 p r1]) f2 Hf2) as (r2 & r2' & o2 & Hw2).
  rewrite Hw2.
  destruct (writeToFile_cached
              (kindPath (dir d) (GetNamespace x) (GetKind x)) p d0 o2
              ((tr ++ [EvWrite f1 p r1]) ++ [EvWrite f2 p r2]) f3 Hf3)
    as (r3 & r3' & o3 & Hw3).
  rewrite Hw3.
  eexists _, p, o3, [_; _; _]. rewrite <- !app_assoc.
  split_and!; [done|by repeat constructor|done|].
  intros f b' Hin. unfold writes in Hin. simpl in Hin.
  elem_cases Hin; eauto.
Qed.

Lemma rangeItems_cached (items : list U) errs (d : dirDumper) (o : O) tr :
  (∀ x path, x ∈ items → path ∈ attempts (dir d) x →
             is_Some (openFiles d !! path)) →
  ∃ errs' buf o' evs,
    rangeItems items errs (d, (o, tr))
    = (errs', (set_sharedBuf buf d, (o', tr ++ evs))) ∧
    Forall (λ e, makes e = false) evs ∧
    (writes evs).*2 = (items ≫= fanout (dir d)).*2 ∧
    (∀ f b, (f, b) ∈ writes evs → ∃ path, openFiles d !! path = Some f).
Proof.
  revert errs d o tr. induction items as [|x items IH]; intros errs d o tr Hc.
  { exists errs, (sharedBuf d), o, []. rewrite app_nil_r.
    split_and!; [by destruct d|done..|]. by intros ?? ?%elem_of_nil. }
  cbn [rangeItems].
  destruct (dumpObject_cached x errs d o tr) as
    (errs1 & buf1 & o1 & evs1 & Hone & Hm1 & Hw1 & Hf1).
  { intros path Hp. apply (Hc x path); [apply elem_of_cons; by left|done]. }
  unfold State, Sys in *. rewrite Hone.
  destruct (IH errs1 (set_sharedBuf buf1 d) o1 (tr ++ evs1)) as
    (errs2 & buf2 & o2 & evs2 & Hrest & Hm2 & Hw2 & Hf2).
  { intros y path Hy Hp. apply (Hc y path); [apply elem_of_cons; by right|done]. }
  rewrite Hrest. exists errs2, buf2, o2, (evs1 ++ evs2).
  rewrite <- app_assoc. split_and!.
  - done.
  - by apply Forall_app.
  - unfold writes in *. rewrite omap_app, bind_cons, !fmap_app.
    by rewrite Hw1, Hw2.
  - intros f b Hin. unfold writes in Hin. rewrite omap_app in Hin.
    apply elem_of_app in Hin as [Hin|Hin]; [by eapply Hf1|by eapply Hf2].
Qed.

(** X8. A call of [Dump] creates a file only for a path that the
    cache did not hold, at most once for a path, and the file it
    created is in the cache afterwards. *)
Theorem files_are_created_once (l : UnstructuredList U) (d : dirDumper)
  (o : O) (tr : list Event) :
  cache_named d →
  ∃ ret d' o' evs,
    Dump l (d, (o, tr)) = (ret, (d', (o', tr ++ evs))) ∧
    NoDup (created evs).*1 ∧
    ∀ path f, (path, f) ∈ created evs →
              openFiles d !! path = None ∧ openFiles d' !! path = Some f.
Proof.
  intros Hnamed. unfold Dump.
  destruct (rangeItems_spec (Items l) [] d o tr Hnamed)
    as (outss & d' & o' & evs & Hspec & _ & _ & _ & Hg).
  unfold State, Sys in *. rewrite Hspec.
  eexists _, d', o', evs. split; [done|].
  destruct Hg as (_ & _ & _ & Hperm & _).
  pose proof (NoDup_fst_map_to_list (openFiles d')) as Hnd.
  rewrite Hperm in Hnd.
  destruct (NoDup_app_fst _ _ Hnd) as [Hnd2 Hdisj]. split; [done|].
  intros path f Hin. split.
  - destruct (openFiles d !! path) as [f0|] eqn:Hl; [|done].
    exfalso. apply (Hdisj path f Hin).
    apply list_elem_of_fmap. exists (path, f0).
    split; [done|]. by apply elem_of_map_to_list.
  - apply elem_of_map_to_list. rewrite Hperm.
    apply elem_of_app. by right.
Qed.

(** X9. When the cache already holds every path that a page writes
    to, a call of [Dump] makes no directory and creates no file: it
    leaves the cache as it was and writes, in the order of the page,
    each object's bytes once for each of its destinations, every time
    to a file of the cache. *)
Theorem cached_files_are_reused (l : UnstructuredList U) (d : dirDumper)
  (o : O) (tr : list Event) :
  (∀ x path, x ∈ Items l → path ∈ attempts (dir d) x →
             is_Some (openFiles d !! path)) →
  ∃ ret buf o' evs,
    Dump l (d, (o, tr)) = (ret, (set_sharedBuf buf d, (o', tr ++ evs))) ∧
    Forall (λ e, makes e = false) evs ∧
    (writes evs).*2 = (Items l ≫= fanout (dir d)).*2 ∧
    ∀ f b, (f, b) ∈ writes evs → ∃ path, openFiles d !! path = Some f.
Proof.
  intros Hc. unfold Dump.
  destruct (rangeItems_cached (Items l) [] d o tr Hc)
    as (errs' & buf & o' & evs & Hrun & Hm & Hw & Hf).
  unfold State, Sys in *. rewrite Hrun.
  by eexists _, buf, o', evs.
Qed.

(** *** After [Close] *)

Lemma Close_trace order (d : dirDumper) (o : O) tr :
  ∃ ret o' evs,
    Close order (d, (o, tr)) = (ret, (d, (o', tr ++ evs))) ∧
    closed evs = order.*2 ∧ writes evs = [] ∧ created evs = [].
Proof.
  unfold Close.
  destruct (closeFiles_spec (order.*2) [] o tr) as (rs & o' & Hlen & Hrun).
  unfold State, Sys in *. rewrite Hrun.
  eexists _, o', _. split; [done|].
  split; [by apply closed_zip_with_EvClose|].
  clear Hrun. revert rs Hlen.
  induction (order.*2) as [|f fs IH]; intros [|r rs] Hlen; simplify_eq/=;
    [done|]. by apply IH.
Qed.

(** X10. [Close] does not empty the cache: it closes the files and
    leaves the sink as it was, so a second [Close] closes every file a
    second time. *)
Theorem second_Close_closes_again order order' (d : dirDumper) (o : O)
  (tr : list Event) :
  ∃ ret o' evs,
    Close order' (Close order (d, (o, tr))).2 = (ret, (d, (o', tr ++ evs))) ∧
    closed evs = order.*2 ++ order'.*2.
Proof.
  destruct (Close_trace order d o tr) as (ret1 & o1 & evs1 & H1 & Hc1 & _).
  destruct (Close_trace order' d o1 (tr ++ evs1))
    as (ret2 & o2 & evs2 & H2 & Hc2 & _).
  unfold State, Sys in *. rewrite H1. cbn [snd]. rewrite H2.
  exists ret2, o2, (evs1 ++ evs2). rewrite <- app_assoc.
  split; [done|]. by rewrite closed_app, Hc1, Hc2.
Qed.

(** X11. A write to a cached path after [Close] creates nothing: it
    goes to the file of the cache, which [Close] has closed. *)
Theorem write_after_Close_goes_to_closed_file order path b (d : dirDumper)
  (o : O) (tr : list Event) f :
  order ≡ₚ map_to_list (openFiles d) →
  openFiles d !! path = Some f →
  ∃ ret r o' evs,
    writeToFile path b (Close order (d, (o, tr))).2
    = (ret, (d, (o', tr ++ evs ++ [EvWrite f b r]))) ∧
    closed evs = order.*2 ∧ f ∈ closed evs ∧ created evs = [].
Proof.
  intros Hperm Hf.
  destruct (Close_trace order d o tr)
    as (ret1 & o1 & evs1 & H1 & Hc1 & _ & Hcr).
  destruct (writeToFile_cached path b d o1 (tr ++ evs1) f Hf)
    as (r & r' & o2 & H2).
  unfold State, Sys in *. rewrite H1. cbn [snd]. rewrite H2.
  exists r', r, o2, evs1. rewrite <- app_assoc.
  split_and!; [done..| |done].
  rewrite Hc1, Hperm. apply list_elem_of_fmap. exists (path, f).
  split; [done|]. by apply elem_of_map_to_list.
Qed.

End more.

Section on_example.
Import memfs examples more_examples.

Lemma never_reliable : @reliable Disk (memOS never).
Proof.
  split_and!; [done| |done]. intros path o. by eexists.
Qed.

Lemma warmSink_cached x path :
  x ∈ Items (page [pod; pod]) → path ∈ attempts (dir warmSink) x →
  is_Some (openFiles warmSink !! path).
Proof.
  intros Hx Hp. simpl in Hx. elem_cases Hx.
  all: unfold attempts in Hp; simpl in Hp.
  all: let l := eval vm_compute in (destinations (dir warmSink) pod) in
       change (path ∈ l) in Hp.
  all: elem_cases Hp; vm_compute; by eexists.
Qed.

(** The pod and the node on a disk where nothing fails. *)
Lemma Dump_succeeds_on_reliable_system_witness :
  ∃ d' o' evs,
    @Dump Disk Obj (memOS never) _ (page [pod; node]) (freshSink, freshDisk)
    = (None, (d', (o', [] ++ evs))) ∧
    received evs = Items (page [pod; node]) ≫= fanout (dir freshSink) ∧
    cache_named d'.
Proof.
  apply (@Dump_succeeds_on_reliable_system Disk Obj (memOS never) _
           (page [pod; node]) freshSink memfs.empty []).
  - exact never_reliable.
  - exact freshSink_named.
  - simpl. repeat (apply Forall_cons; split; [by eexists|]).
    by apply Forall_nil.
Defined.

(** A page of the pod, the object that does not encode and the node,
    where [split/ns1/Pod.json] cannot be created: two errors and four
    writes, for seven attempts in all. *)
Lemma Dump_accounts_for_every_attempt_witness :
  ∃ errs d' o' evs,
    @Dump Disk Obj (memOS unwritable) _ (page [pod; broken; node])
      (freshSink, freshDisk)
    = (multierr.Combine errs, (d', (o', [] ++ evs))) ∧
    Forall single errs ∧
    sink_by_spec.errorsOf
      (@Dump Disk Obj (memOS unwritable) _ (page [pod; broken; node])
         (freshSink, (memfs.empty, []))).1 = errs ∧
    length errs + length (received evs)
    = sum_list (accounted (dir freshSink)
                  <$> Items (page [pod; broken; node])) ∧
    length errs ≤ 3 * length (Items (page [pod; broken; node])).
Proof.
  apply (@Dump_accounts_for_every_attempt Disk Obj (memOS unwritable) _
           (page [pod; broken; node]) freshSink memfs.empty []).
  exact freshSink_named.
Defined.

(** The pod dumped twice on one page into a fresh sink. *)
Lemma files_are_created_once_witness :
  ∃ ret d' o' evs,
    @Dump Disk Obj (memOS never) _ (page [pod; pod]) (freshSink, freshDisk)
    = (ret, (d', (o', [] ++ evs))) ∧
    NoDup (created evs).*1 ∧
    ∀ path f, (path, f) ∈ created evs →
              openFiles freshSink !! path = None ∧
              openFiles d' !! path = Some f.
Proof.
  apply (@files_are_created_once Disk Obj (memOS never) _ (page [pod; pod])
           freshSink memfs.empty []).
  exact freshSink_named.
Defined.

(** The pod dumped twice into the sink that holds the pod and the node
    already. *)
Lemma cached_files_are_reused_witness :
  ∃ ret buf o' evs,
    @Dump Disk Obj (memOS never) _ (page [pod; pod]) (warmSink, warm.2)
    = (ret, (set_sharedBuf buf warmSink, (o', warm.2.2 ++ evs))) ∧
    Forall (λ e, makes e = false) evs ∧
    (writes evs).*2 = (Items (page [pod; pod]) ≫= fanout (dir warmSink)).*2 ∧
    ∀ f b, (f, b) ∈ writes evs → ∃ path, openFiles warmSink !! path = Some f.
Proof.
  apply (@cached_files_are_reused Disk Obj (memOS never) _ (page [pod; pod])
           warmSink warm.2.1 warm.2.2).
  exact warmSink_cached.
Defined.

(** The sink that holds the pod and the node, closed, and then the
    file of all pods written to. *)
Lemma write_after_Close_goes_to_closed_file_witness :
  ∃ ret r o' evs,
    @writeToFile Disk (memOS never) "out/objects-Pod.json" "late"
      (@Close Disk (memOS never) warmOrder (warmSink, warm.2)).2
    = (ret, (warmSink,
             (o', warm.2.2 ++ evs
                  ++ [EvWrite {| fd := 3; name := "out/objects-Pod.json" |}
                        "late" r]))) ∧
    closed evs = warmOrder.*2 ∧
    {| fd := 3; name := "out/objects-Pod.json" |} ∈ closed evs ∧
    created evs = [].
Proof.
  apply (@write_after_Close_goes_to_closed_file Disk (memOS never) warmOrder
           "out/objects-Pod.json" "late" warmSink warm.2.1 warm.2.2
           {| fd := 3; name := "out/objects-Pod.json" |}).
  - reflexivity.
  - vm_compute. reflexivity.
Defined.

End on_example.

End sink_more.

(** ** The driver with the directory sink as its callback *)
Module whole_run.
Import schema metav1 unstructured discovery discovery_spec driver_shape.
Import callback_world discovery_driver.

Section replaying.
Context {L U : Type}.
Variable cbL : Callback L U.

Lemma replay_app evs1 evs2 (x : L) :
  replay cbL (evs1 ++ evs2) x = replay cbL evs2 (replay cbL evs1 x).
Proof.
  revert x. induction evs1 as [|e evs1 IH]; intros x; [done|].
  destruct e; simpl; auto.
Qed.

Lemma answered_app evs1 evs2 (x : L) :
  answered cbL (evs1 ++ evs2) x
  ↔ answered cbL evs1 x ∧ answered cbL evs2 (replay cbL evs1 x).
Proof.
  revert x. induction evs1 as [|e evs1 IH]; intros x; [simpl; tauto|].
  destruct e; simpl; rewrite ?IH; tauto.
Qed.

Lemma replay_logs (evs : list (Event U)) (x : L) :
  deliveredPages evs = [] → replay cbL evs x = x ∧ answered cbL evs x.
Proof.
  revert x. induction evs as [|e evs IH]; intros x Hd; [done|].
  destruct e; simpl in *; try done; by apply IH.
Qed.

Context {W : Type} `{!Cluster W U}.
Variable view : W → L.
Variable cb : Callback W U.
Hypothesis Hkept : kept view.
Hypothesis Hthrough : through view cb cbL.

Lemma replays_refl (s : @State W U) : replays cbL view s s.
Proof. exists []. by rewrite app_nil_r. Qed.

Lemma replays_trans (s1 s2 s3 : @State W U) :
  replays cbL view s1 s2 → replays cbL view s2 s3 → replays cbL view s1 s3.
Proof.
  intros (evs1 & Ht1 & Hv1 & Ha1) (evs2 & Ht2 & Hv2 & Ha2).
  exists (evs1 ++ evs2). rewrite Ht2, Ht1, app_assoc. split; [done|].
  rewrite replay_app, <- Hv1. split; [done|].
  apply answered_app. by rewrite <- Hv1.
Qed.

Lemma replays_log (s : @State W U) w text :
  replays cbL view s (Fprintf w text s).
Proof. by exists [EvLog w text]. Qed.

Lemma paginate_replay fuel dynClient batchSize res key errors (s : @State W U) :
  replays cbL view s (paginate fuel dynClient cb batchSize res key errors s).2.
Proof.
  destruct Hkept as [_ HL].
  revert key errors s.
  induction fuel as [|fuel IH]; intros key errors [w tr]; simpl.
  { apply replays_refl. }
  pose proof (HL dynClient res {| Limit := batchSize; Continue := key |} w)
    as Hw.
  destruct (List dynClient res _ w) as [[err|l] w1]; simpl in Hw.
  { exists [EvList res {| Limit := batchSize; Continue := key |} (inl err)].
    split_and!; [done|exact Hw|done]. }
  simpl. destruct (Hthrough l w1) as [Hr Hv].
  destruct (cb l w1) as [rc w2]. simpl in Hr, Hv.
  assert (replays cbL view (w, tr)
            (w2, (tr ++ [EvList res {| Limit := batchSize; Continue := key |}
                           (inr l)]) ++ [EvCallback l rc])) as Hstep.
  { exists [EvList res {| Limit := batchSize; Continue := key |} (inr l);
            EvCallback l rc].
    cbn [fst snd replay answered]. rewrite <- app_assoc, Hv, Hr, Hw.
    done. }
  case_decide; [done|].
  eapply replays_trans; [exact Hstep|]. apply IH.
Qed.

Lemma rangeAPIResources_replay fuel dynClient batchSize logWriter re rs
  errors (s : @State W U) :
  replays cbL view s
    (rangeAPIResources fuel dynClient cb batchSize logWriter re rs errors s).2.
Proof.
  revert errors s. induction rs as [|r rs IH]; intros errors s; simpl.
  { apply replays_refl. }
  assert (replays cbL view s
    (discoverResource fuel dynClient cb batchSize logWriter re r errors s).2)
    as H1.
  { unfold discoverResource. destruct (negb _).
    - apply replays_log.
    - apply paginate_replay. }
  destruct (discoverResource fuel dynClient cb batchSize logWriter re r
              errors s) as [[errors1|] s1]; [|done].
  eapply replays_trans; [exact H1|]. apply IH.
Qed.

Lemma rangeLists_replay fuel dynClient batchSize logWriter sprl errors
  (s : @State W U) :
  replays cbL view s
    (rangeLists fuel dynClient cb batchSize logWriter sprl errors s).2.
Proof.
  revert errors s. induction sprl as [|re sprl IH]; intros errors s; simpl.
  { apply replays_refl. }
  pose proof (rangeAPIResources_replay fuel dynClient batchSize logWriter re
                (APIResources re) errors s) as H1.
  destruct (rangeAPIResources fuel dynClient cb batchSize logWriter re
              (APIResources re) errors s) as [[errors1|] s1]; [|done].
  eapply replays_trans; [exact H1|]. apply IH.
Qed.

Lemma listing_delivers_nothing logWriter sprl r :
  deliveredPages
    (EvServerPreferredResources (U := U) r :: listing logWriter sprl) = [].
Proof.
  unfold listing.
  change (deliveredPages (sprl ≫= λ re,
            EvLog (U := U) logWriter (GroupVersion re +:+ nl)
            :: ((λ r, EvLog logWriter ("  " +:+ " " +:+ Kind r +:+ nl))
                  <$> APIResources re)) = []).
  induction sprl as [|re sprl IH]; [done|].
  rewrite bind_cons. unfold deliveredPages in *. rewrite omap_app, IH, app_nil_r.
  change (omap (λ e : Event U, match e with
                               | EvCallback l _ => Some l
                               | _ => None
                               end)
            ((λ r, EvLog logWriter ("  " +:+ " " +:+ Kind r +:+ nl))
               <$> APIResources re) = []).
  by induction (APIResources re).
Qed.

(** The part [view] of the world at the end of a run is the part it
    started from after the callbacks of the run's trace. *)
Lemma DiscoverObjects_replay fuel conf opts (s : @State W U) :
  replays cbL view s (DiscoverObjects fuel conf cb opts s).2.
Proof.
  unfold DiscoverObjects.
  destruct (NewDiscoveryClientForConfig conf) as [err|dc];
    [apply replays_refl|].
  destruct (NewForConfig conf) as [err|dynClient]; [apply replays_refl|].
  pose proof (proj1 Hkept dc s.1) as Hw.
  destruct (ServerPreferredResources dc s.1) as [[err|sprl] w1]; simpl in Hw.
  { exists [EvServerPreferredResources (inl err)].
    split_and!; [done|exact Hw|done]. }
  rewrite logDiscovered_trace. cbn [fst snd].
  match goal with
  | |- context [rangeLists fuel dynClient cb _ _ sprl [] ?s3] =>
      pose proof (rangeLists_replay fuel dynClient (GetBatchSize opts)
                    (GetLogWriter opts) sprl [] s3) as Hrun;
      assert (replays cbL view s s3) as Hpre;
      [|destruct (rangeLists fuel dynClient cb (GetBatchSize opts)
                    (GetLogWriter opts) sprl [] s3) as [[errors|] s4];
        by eapply replays_trans]
  end.
  exists (EvServerPreferredResources (inr sprl)
          :: listing (GetLogWriter opts) sprl).
  cbn [fst snd]. rewrite <- app_assoc. split; [done|].
  destruct (replay_logs _ (view s.1)
              (listing_delivers_nothing (GetLogWriter opts) sprl (inr sprl)))
    as [Hrep Hans].
  split; [|done]. rewrite Hw. symmetry. exact Hrep.
Qed.

End replaying.

Lemma pagedCluster_kept {W U : Type} sprl backing :
  @kept W W U (apiserver.pagedCluster W U sprl backing) (λ w, w).
Proof. by split. Qed.

Lemma beside_kept {K U : Type} `{C : !Cluster K U} (L : Type) :
  @kept (K * L) L U (cmd.beside L) snd.
Proof.
  split.
  - intros dc w. cbn [ServerPreferredResources cmd.beside].
    by destruct (@ServerPreferredResources K U C dc w.1).
  - intros dynClient res opts w. cbn [List cmd.beside].
    by destruct (@List K U C dynClient res opts w.1).
Qed.

Lemma aside_through {K L U : Type} (df : Callback L U) :
  through snd (cmd.aside (K := K) df) df.
Proof. intros l w. unfold cmd.aside. by destruct (df l w.2). Qed.

Lemma id_through {W U : Type} (cb : Callback W U) :
  through (λ w : W, w) cb cb.
Proof. by intros l w. Qed.

Lemma returned_nil_no_failure {W U : Type} `{!Cluster W U} fuel conf
  (cb : Callback W U) opts (s s' : @State W U) evs :
  DiscoverObjects fuel conf cb opts s = (Returned None, s') →
  s'.2 = s.2 ++ evs →
  ∀ e, e ∈ evs → failed e = false.
Proof.
  intros Hrun Htr.
  destruct (driver_more.DiscoverObjects_cases fuel conf cb opts s)
    as [(err & _ & Hf)|[(dc & err & _ & _ & Hf)
                       |[(dc & dyn & err & w1 & _ & _ & _ & Hf)
                        |(dc & dyn & sprl & w1 & Hdc & Hdyn & Hs)]]];
    try (rewrite Hrun in Hf; discriminate Hf).
  destruct (DiscoverObjects_spec fuel conf cb opts s dc dyn sprl w1
              Hdc Hdyn Hs)
    as (w' & evs' & errs & Htr' & Hacc & _ & Hret).
  rewrite Hrun in Htr', Hret. cbn [fst snd] in Htr', Hret.
  destruct (Hret None eq_refl) as [Hnone _].
  symmetry in Hnone. apply Combine_None in Hnone. subst errs.
  assert (evs = EvServerPreferredResources (inr sprl)
                :: listing (GetLogWriter opts) sprl ++ evs') as ->.
  { rewrite Htr' in Htr. cbn [snd] in Htr. by apply app_inv_head in Htr. }
  apply (accumulated_no_error _ []); [|done].
  constructor.
  apply (accumulated_app _ _ [] []); [apply accumulated_listing|done].
Qed.

Section paged.
Import apiserver pagination.
Context {W U : Type}.
Variable backing : GroupVersionResource → error + list U.
Variable cb : Callback W U.
Variable batchSize : Z.
Variable fuel : nat.
Hypothesis Hbatch : (1 ≤ batchSize)%Z.
Hypothesis Hfuel : ∀ res,
  callsFor (length (stored backing res)) (Z.to_nat batchSize) ≤ fuel.

Lemma no_list_failure (evs : list (Event U)) :
  length (listCalls evs) = length (listedPages evs) → listFailures evs = [].
Proof.
  assert (∀ evs : list (Event U),
             length (listedPages evs) ≤ length (listCalls evs)) as Hle.
  { clear. induction evs as [|e evs IH]; [done|].
    destruct e as [| |res opts [err|l]|]; simpl in *; lia. }
  induction evs as [|e evs IH]; [done|].
  destruct e as [w t|r|res opts [err|l]|l r]; simpl; intros Hlen; auto.
  pose proof (Hle evs). lia.
Qed.

Lemma bind_concat {A B} (f : A → list B) (l : list A) :
  l ≫= f = concat (f <$> l).
Proof. induction l as [|x l IH]; [done|]. by rewrite bind_cons, fmap_cons, IH. Qed.

Lemma deliveredPages_app (evs1 evs2 : list (Event U)) :
  deliveredPages (evs1 ++ evs2) = deliveredPages evs1 ++ deliveredPages evs2.
Proof. apply omap_app. Qed.

Lemma listFailures_app (evs1 evs2 : list (Event U)) :
  listFailures (evs1 ++ evs2) = listFailures evs1 ++ listFailures evs2.
Proof. apply omap_app. Qed.

(** One resource, from the empty cursor. *)
Lemma paginate_paged sprl res errors (s : @State W U) :
  ∃ errs' w' evs,
    @paginate W U (pagedCluster W U sprl backing) fuel () cb batchSize res
      "" errors s = (Returned errs', (w', s.2 ++ evs)) ∧
    deliveredPages evs ≫= Items = stored backing res ∧
    listFailures evs = match backing res with
                       | inl err => [(res, err)]
                       | inr _ => []
                       end.
Proof.
  pose proof (Hfuel res) as Hf. unfold stored in *.
  destruct (backing res) as [err|coll] eqn:Hb.
  - pose proof (callsFor_pos (length (@nil U)) (Z.to_nat batchSize)).
    destruct fuel as [|n]; [lia|].
    cbn [paginate]. unfold pagedCluster at 1. cbn [List]. rewrite Hb.
    by eexists _, _, [_].
  - destruct (paginate_from sprl backing cb res coll batchSize Hb Hbatch
                fuel 0 errors s (or_introl eq_refl))
      as (errs' & w' & evs & Hrun & Hcalls & Hpages & Hitems & Hdel & _).
    { by rewrite Nat.sub_0_r. }
    exists errs', w', evs. change (token 0) with "" in Hrun.
    split_and!; [done| |].
    + by rewrite bind_concat, Hdel, Hitems.
    + apply no_list_failure. by rewrite Hcalls, Hpages.
Qed.

Lemma rangeAPIResources_paged sprl logWriter re rs errors (s : @State W U) :
  ∃ errs' w' evs,
    @rangeAPIResources W U (pagedCluster W U sprl backing) fuel () cb
      batchSize logWriter re rs errors s
    = (Returned errs', (w', s.2 ++ evs)) ∧
    deliveredPages evs ≫= Items
    = filter (λ x, listable x.2) (pair re <$> rs)
        ≫= (λ x, stored backing (resourceOf x.1 x.2)) ∧
    listFailures evs
    = omap (λ x, match backing (resourceOf x.1 x.2) with
                 | inl err => Some (resourceOf x.1 x.2, err)
                 | inr _ => None
                 end)
        (filter (λ x, listable x.2) (pair re <$> rs)).
Proof.
  revert errors s. induction rs as [|r rs IH]; intros errors s.
  { exists errors, s.1, []. rewrite app_nil_r. by destruct s. }
  cbn [rangeAPIResources]. unfold discoverResource.
  rewrite fmap_cons, filter_cons. cbn [snd].
  pose proof (Contains_spec (Verbs r) "list") as Hc.
  destruct (Contains (Verbs r) "list"); cbn [negb].
  - rewrite decide_True by (by apply Hc).
    destruct (paginate_paged sprl (resourceOf re r) errors s)
      as (errs1 & w1 & evs1 & -> & Hd1 & Hf1).
    destruct (IH errs1 (w1, s.2 ++ evs1))
      as (errs2 & w2 & evs2 & -> & Hd2 & Hf2).
    exists errs2, w2, (evs1 ++ evs2). cbn [snd]. rewrite <- app_assoc.
    rewrite deliveredPages_app, listFailures_app, bind_app, bind_cons.
    rewrite Hd1, Hd2, Hf1, Hf2. split_and!; [done..|].
    cbn [omap list_omap fst snd]. by destruct (backing (resourceOf re r)).
  - rewrite decide_False by (intros ?%Hc; done).
    destruct (IH errors (Fprintf logWriter (skipNotice (resourceOf re r)) s))
      as (errs2 & w2 & evs2 & -> & Hd2 & Hf2).
    exists errs2, w2, (EvLog logWriter (skipNotice (resourceOf re r)) :: evs2).
    unfold Fprintf. cbn [fst snd]. rewrite <- app_assoc.
    split_and!; done.
Qed.

Lemma rangeLists_paged sprl0 logWriter sprl errors (s : @State W U) :
  ∃ errs' w' evs,
    @rangeLists W U (pagedCluster W U sprl0 backing) fuel () cb
      batchSize logWriter sprl errors s
    = (Returned errs', (w', s.2 ++ evs)) ∧
    deliveredPages evs ≫= Items = listed sprl ≫= stored backing ∧
    listFailures evs = refused backing sprl.
Proof.
  revert errors s. induction sprl as [|re sprl IH]; intros errors s.
  { exists errors, s.1, []. rewrite app_nil_r. by destruct s. }
  cbn [rangeLists].
  destruct (rangeAPIResources_paged sprl0 logWriter re (APIResources re)
              errors s) as (errs1 & w1 & evs1 & -> & Hd1 & Hf1).
  destruct (IH errs1 (w1, s.2 ++ evs1))
    as (errs2 & w2 & evs2 & -> & Hd2 & Hf2).
  exists errs2, w2, (evs1 ++ evs2). cbn [snd]. rewrite <- app_assoc.
  rewrite deliveredPages_app, listFailures_app, bind_app.
  unfold listed, refused in *.
  change (entries (re :: sprl))
    with ((pair re <$> APIResources re) ++ entries sprl).
  rewrite filter_app, fmap_app, omap_app, bind_app.
  rewrite Hd1, Hd2, Hf1, Hf2. split_and!; [done| |done].
  f_equal. generalize (filter (λ x, listable x.2) (pair re <$> APIResources re)).
  intros xs. induction xs as [|x xs IHxs]; [done|].
  by rewrite fmap_cons, !bind_cons, IHxs.
Qed.

End paged.

Section sinking.
Import dumper_spec sink_shape.
Context {O U : Type} `{!dumper.OS O} `{!Object U}.

Lemma itemReceived_sublist dir (x : U) outs :
  itemReceived dir x outs `sublist_of` fanout dir x.
Proof.
  unfold itemReceived, fanout. destruct (serialized x) as [p|]; [|done].
  generalize (destinations dir x). intros dests. revert outs.
  induction dests as [|path dests IH]; intros [|[e|] outs]; simpl;
    try apply sublist_nil_l.
  - apply sublist_cons, IH.
  - apply sublist_skip, IH.
Qed.

(** One page: what reaches the files is part of the page's fan-out, in
    order, and all of it when [Dump] returns no error. *)
Lemma Dump_page (l : UnstructuredList U) (d : dumper.dirDumper) (o : O) tr :
  cache_named d →
  ∃ d' o' devs,
    (dumper.Dump l (d, (o, tr))).2 = (d', (o', tr ++ devs)) ∧
    grows d d' devs ∧
    received devs `sublist_of` (Items l ≫= fanout (dumper.dir d)) ∧
    ((dumper.Dump l (d, (o, tr))).1 = None →
     received devs = Items l ≫= fanout (dumper.dir d)).
Proof.
  intros Hnamed. unfold dumper.Dump.
  destruct (dumper_facts.rangeItems_spec (Items l) [] d o tr Hnamed)
    as (outss & d' & o' & devs & Hspec & Hlens & _ & Hrec & Hg).
  unfold dumper.State, dumper.Sys in *. rewrite Hspec. simpl.
  exists d', o', devs. split_and!; [done..| |].
  - rewrite Hrec. clear -Hlens.
    induction Hlens as [|x outs items outss _ _ IH]; simpl; [done|].
    apply sublist_app; [apply itemReceived_sublist|done].
  - intros Hnone%Combine_None. rewrite Hrec.
    by destruct (dumper_facts.page_clean (dumper.dir d) (Items l) outss
                   Hlens Hnone).
Qed.

(** The pages of a trace, dumped one after the other. *)
Lemma replay_Dump (evs : list (Event U)) (d : dumper.dirDumper) (o : O) tr :
  cache_named d →
  ∃ d' o' devs,
    replay dumper.Dump evs (d, (o, tr)) = (d', (o', tr ++ devs)) ∧
    grows d d' devs ∧
    received devs
      `sublist_of` ((deliveredPages evs ≫= Items) ≫= fanout (dumper.dir d)) ∧
    (answered dumper.Dump evs (d, (o, tr)) →
     (∀ l r, EvCallback l r ∈ evs → r = None) →
     received devs = (deliveredPages evs ≫= Items) ≫= fanout (dumper.dir d)).
Proof.
  revert d o tr. induction evs as [|e evs IH]; intros d o tr Hnamed.
  { exists d, o, []. rewrite app_nil_r.
    split_and!; [done|by apply dumper_facts.grows_refl|done..]. }
  assert (∀ e', (∀ l r, EvCallback l r ∈ e' :: evs → r = None) →
                ∀ l r, EvCallback l r ∈ evs → r = None) as Htail.
  { intros e' Hall l r Hin. apply (Hall l), elem_of_cons. by right. }
  destruct e as [w t|r|res opts r|l r]; cbn [replay answered];
    try (destruct (IH d o tr Hnamed)
           as (d' & o' & devs & Hrun & Hg & Hsub & Heq);
         exists d', o', devs; split_and!; [done..|];
         intros Hans Hall; apply Heq; [done|by eapply Htail]).
  destruct (Dump_page l d o tr Hnamed)
    as (d1 & o1 & devs1 & Hrun1 & Hg1 & Hsub1 & Heq1).
  destruct (dumper.Dump l (d, (o, tr))) as [r1 w1].
  cbn [fst snd] in *. subst w1.
  assert (dumper.dir d1 = dumper.dir d) as Hdir1 by (by destruct Hg1).
  assert (cache_named d1) as Hnamed1 by (by destruct Hg1 as (_ & ? & _)).
  destruct (IH d1 o1 (tr ++ devs1) Hnamed1)
    as (d2 & o2 & devs2 & Hrun2 & Hg2 & Hsub2 & Heq2).
  exists d2, o2, (devs1 ++ devs2).
  rewrite Hrun2, <- app_assoc. rewrite Hdir1 in Hsub2, Heq2.
  unfold received in *. rewrite omap_app.
  change (deliveredPages (EvCallback l r :: evs))
    with (l :: deliveredPages evs).
  rewrite !bind_cons, bind_app.
  split_and!; [done|by eapply dumper_facts.grows_trans
                |by apply sublist_app|].
  intros [-> Hans] Hall.
  rewrite Heq2; [|done|by eapply Htail]. f_equal. apply Heq1.
  apply (Hall l). apply elem_of_cons. by left.
Qed.

Lemma Dump_reliable (l : UnstructuredList U) (w : dumper.State) :
  reliable O →
  Forall (λ x, is_Some (serialized x)) (Items l) →
  (dumper.Dump l w).1 = None.
Proof.
  intros Hrel Hall. unfold dumper.Dump.
  pose proof (sink_more.rangeItems_reliable (Items l) [] w Hrel Hall) as Hr.
  destruct (dumper.rangeItems (Items l) [] w) as [errs w']. simpl in Hr.
  by subst errs.
Qed.

Lemma answered_reliable (evs : list (Event U)) (w : dumper.State) :
  reliable O →
  Forall (λ l, Forall (λ x, is_Some (serialized x)) (Items l))
    (deliveredPages evs) →
  answered dumper.Dump evs w →
  ∀ l r, EvCallback l r ∈ evs → r = None.
Proof.
  intros Hrel. revert w. induction evs as [|e evs IH]; intros w Hall Hans l r Hin.
  { by apply elem_of_nil in Hin. }
  apply elem_of_cons in Hin as [<-|Hin].
  - change (deliveredPages (EvCallback l r :: evs))
      with (l :: deliveredPages evs) in Hall.
    apply Forall_cons in Hall as [Hl _].
    simpl in Hans. destruct Hans as [-> _].
    by apply Dump_reliable.
  - destruct e as [w0 t|r0|res opts r0|l0 r0]; simpl in Hans;
      try (by eapply (IH w)).
    change (deliveredPages (EvCallback l0 r0 :: evs))
      with (l0 :: deliveredPages evs) in Hall.
    apply Forall_cons in Hall as [_ Hall]. destruct Hans as [_ Hans].
    by eapply IH.
Qed.

Context {W : Type} `{!Cluster W U}.

(** X12. The driver with a callback that acts as [Dump] on a part of
    the world, the sink and its files, that the cluster's calls leave
    as it is.  Whatever the run does, and whether it returns or not,
    what has reached the files is part of the fan-out of the objects of
    the pages the callback was given, in their order: nothing else is
    written, and nothing out of order.  When the run returns no error,
    all of it has reached the files, and no call of the run has
    failed. *)
Theorem files_hold_what_was_delivered (view : W → dumper.State)
  (cb : Callback W U) fuel conf opts (s : @State W U)
  (d : dumper.dirDumper) (o : O) tr r s' :
  kept view →
  through view cb dumper.Dump →
  view s.1 = (d, (o, tr)) →
  cache_named d →
  DiscoverObjects fuel conf cb opts s = (r, s') →
  ∃ evs d' o' devs,
    s'.2 = s.2 ++ evs ∧
    view s'.1 = (d', (o', tr ++ devs)) ∧
    received devs
      `sublist_of` ((deliveredPages evs ≫= Items) ≫= fanout (dumper.dir d)) ∧
    (r = Returned None →
     received devs = (deliveredPages evs ≫= Items) ≫= fanout (dumper.dir d) ∧
     ∀ e, e ∈ evs → failed e = false).
Proof.
  intros Hkept Hthrough Hview Hnamed Hrun.
  destruct (DiscoverObjects_replay dumper.Dump view cb Hkept Hthrough
              fuel conf opts s) as (evs & Htr & Hv & Hans).
  rewrite Hrun in Htr, Hv. cbn [snd] in Htr, Hv. rewrite Hview in Hv, Hans.
  destruct (replay_Dump evs d o tr Hnamed)
    as (d' & o' & devs & Hrep & _ & Hsub & Heq).
  exists evs, d', o', devs.
  split_and!; [done|by rewrite Hv|done|].
  intros ->.
  pose proof (returned_nil_no_failure fuel conf cb opts s s' evs Hrun Htr)
    as Hall.
  split; [|done]. apply Heq; [done|]. intros l rc Hin.
  specialize (Hall _ Hin). by destruct rc.
Qed.

(** X13. On a system where making directories, creating files and
    writing do not fail, and when every object of the pages that the
    callback is given encodes, no call of the callback in a run of the
    driver fails, and the files have received the whole fan-out of
    every object delivered, in order. *)
Theorem reliable_run_writes_every_object (view : W → dumper.State)
  (cb : Callback W U) fuel conf opts (s : @State W U)
  (d : dumper.dirDumper) (o : O) tr r s' :
  kept view →
  through view cb dumper.Dump →
  view s.1 = (d, (o, tr)) →
  reliable O →
  cache_named d →
  DiscoverObjects fuel conf cb opts s = (r, s') →
  ∃ evs d' o' devs,
    s'.2 = s.2 ++ evs ∧
    view s'.1 = (d', (o', tr ++ devs)) ∧
    (Forall (λ l, Forall (λ x, is_Some (serialized x)) (Items l))
       (deliveredPages evs) →
     (∀ l rc, EvCallback l rc ∈ evs → rc = None) ∧
     received devs = (deliveredPages evs ≫= Items) ≫= fanout (dumper.dir d)).
Proof.
  intros Hkept Hthrough Hview Hrel Hnamed Hrun.
  destruct (DiscoverObjects_replay dumper.Dump view cb Hkept Hthrough
              fuel conf opts s) as (evs & Htr & Hv & Hans).
  rewrite Hrun in Htr, Hv. cbn [snd] in Htr, Hv. rewrite Hview in Hv, Hans.
  destruct (replay_Dump evs d o tr Hnamed)
    as (d' & o' & devs & Hrep & _ & _ & Heq).
  exists evs, d', o', devs. split_and!; [done|by rewrite Hv|].
  intros Henc.
  pose proof (answered_reliable evs (d, (o, tr)) Hrel Henc Hans) as Hnone.
  split; [done|]. by apply Heq.
Qed.

Lemma accumulated_list_errors (evs : list (Event U)) errs :
  accumulated evs errs →
  (∀ l r, EvCallback l r ∈ evs → r = None) →
  errs = (λ p, listError p.1 p.2) <$> listFailures evs.
Proof.
  induction 1 as [|w t evs errs _ IH|r evs errs _ IH|res o' err evs errs _ IH
                  |res o' l evs errs _ IH|res o' l err evs errs _ IH];
    intros Hall; simpl.
  - done.
  - apply IH. intros l r Hin. apply (Hall l), elem_of_cons. by right.
  - apply IH. intros l r0 Hin. apply (Hall l), elem_of_cons. by right.
  - f_equal. apply IH. intros l r Hin. apply (Hall l), elem_of_cons. by right.
  - apply IH. intros l0 r Hin. apply (Hall l0).
    do 2 (apply elem_of_cons; right). done.
  - exfalso. specialize (Hall l (Some err)). discriminate Hall.
    apply elem_of_cons. right. apply elem_of_cons. by left.
Qed.

End sinking.

Section dumping_a_paged_cluster.
Import dumper_spec sink_shape apiserver.
Context {O U : Type} `{!dumper.OS O} `{!Object U}.

(** X14. The driver with [Dump] as its callback against a server that
    pages its collections, on a system where making directories,
    creating files and writing do not fail: with a batch size of at least 1 and every
    stored object encoding, a run whose bound covers the largest
    collection returns, the files have received, in order, the fan-out
    of every object the server holds of every resource that offers the
    verb "list", and the error returned combines one error for each
    such resource that the server refuses to list and nothing else. *)
Theorem paged_cluster_is_dumped_whole (sprl : list APIResourceList)
  (backing : GroupVersionResource → error + list U) opts fuel
  (d : dumper.dirDumper) (o : O) tr evs0 :
  reliable O →
  cache_named d →
  (1 ≤ GetBatchSize opts)%Z →
  (∀ res, callsFor (length (stored backing res))
            (Z.to_nat (GetBatchSize opts)) ≤ fuel) →
  (∀ res, Forall (λ x, is_Some (serialized x)) (stored backing res)) →
  ∃ evs d' o' devs,
    @DiscoverObjects _ _ (pagedCluster (@dumper.State O) U (inr sprl) backing)
      fuel () dumper.Dump opts ((d, (o, tr)), evs0)
    = (Returned
         (multierr.Combine
            ((λ p, listError p.1 p.2) <$> refused backing sprl)),
       ((d', (o', tr ++ devs)), evs0 ++ evs)) ∧
    received devs
    = (listed sprl ≫= stored backing) ≫= fanout (dumper.dir d).
Proof.
  intros Hrel Hnamed Hbatch Hfuel Henc.
  set (C := pagedCluster (@dumper.State O) U (inr sprl) backing).
  assert (@NewDiscoveryClientForConfig _ _ C () = inr ()) as Hdc by done.
  assert (@NewForConfig _ _ C () = inr ()) as Hdyn by done.
  assert (@ServerPreferredResources _ _ C () (d, (o, tr))
          = (inr sprl, (d, (o, tr)))) as Hs by done.
  unfold DiscoverObjects. rewrite Hdc, Hdyn. cbn [fst snd]. rewrite Hs.
  rewrite logDiscovered_trace. cbn [fst snd].
  match goal with
  | |- context [rangeLists fuel () dumper.Dump _ _ sprl [] ?s] =>
      set (s3 := s)
  end.
  destruct (rangeLists_paged backing dumper.Dump (GetBatchSize opts) fuel
              Hbatch Hfuel (inr sprl) (GetLogWriter opts) sprl [] s3)
    as (errs & w' & evs & Hrun & Hdel & Hfail).
  fold C in Hrun.
  destruct (@rangeLists_replay _ U dumper.Dump _ C (λ w, w) dumper.Dump
              (pagedCluster_kept _ _) (id_through _) fuel ()
              (GetBatchSize opts) (GetLogWriter opts) sprl [] s3)
    as (evs1 & Htr1 & Hrep & Hans).
  destruct (@rangeLists_spec _ U C () dumper.Dump (GetBatchSize opts)
              (GetLogWriter opts) fuel sprl [] s3)
    as (w2 & evs2 & errs2 & Htr2 & Hacc & Hret & _).
  unfold State in *. rewrite Hrun in Htr1, Hrep, Htr2, Hret |- *.
  cbn [fst snd] in *.
  assert (evs1 = evs) as -> by (by apply app_inv_head in Htr1).
  assert (evs2 = evs) as ->.
  { injection Htr2 as _ Happ. by apply app_inv_head in Happ. }
  destruct (Hret errs eq_refl) as [-> _]. cbn [app].
  assert (Forall (λ l, Forall (λ x, is_Some (serialized x)) (Items l))
            (deliveredPages evs)) as Hpages.
  { apply (proj1 (Forall_bind Items (λ x, is_Some (serialized x)) _)).
    rewrite Hdel. apply Forall_bind. apply Forall_forall. intros res _.
    apply Henc. }
  pose proof (answered_reliable evs (d, (o, tr)) Hrel Hpages Hans) as Hnone.
  destruct (replay_Dump evs d o tr Hnamed)
    as (d' & o' & devs & Hw & _ & _ & Heq).
  exists (EvServerPreferredResources (inr sprl)
          :: listing (GetLogWriter opts) sprl ++ evs), d', o', devs.
  split.
  - rewrite (accumulated_list_errors evs errs2 Hacc Hnone), Hfail.
    f_equal. rewrite Hrep. f_equal; [done|].
    unfold s3. cbn [snd]. by rewrite <- !app_assoc.
  - rewrite (Heq Hans Hnone). by rewrite Hdel.
Qed.

End dumping_a_paged_cluster.

Section on_example.
Import dumper_spec sink_shape apiserver memfs examples more_examples.

Lemma holdings_encode res :
  Forall (λ x, is_Some (serialized x)) (stored holdings res).
Proof.
  unfold stored, holdings. repeat case_decide; [|done..].
  repeat (apply Forall_cons; split; [by eexists|]). by apply Forall_nil.
Qed.

Lemma holdings_fit res :
  callsFor (length (stored holdings res)) (Z.to_nat (GetBatchSize options))
  ≤ 5.
Proof.
  unfold stored, holdings. repeat case_decide; vm_compute; lia.
Qed.

(** The server that refuses nothing, with the sink beside it: the run
    returns no error. *)
Lemma files_hold_what_was_delivered_witness :
  ∃ evs d' o' devs,
    calmBeside.2.2 = besideStart.2 ++ evs ∧
    calmBeside.2.1.2 = (d', (o', [] ++ devs)) ∧
    received devs
      `sublist_of` ((deliveredPages evs ≫= Items)
                      ≫= fanout (dumper.dir freshSink)) ∧
    received devs
    = (deliveredPages evs ≫= Items) ≫= fanout (dumper.dir freshSink) ∧
    ∀ e, e ∈ evs → failed e = false.
Proof.
  destruct (@files_hold_what_was_delivered Disk Obj (memOS never) _
              _ (@cmd.beside _ _ calmServer _) snd (cmd.aside toDisk)
              5 () options besideStart freshSink memfs.empty []
              (Returned None) calmBeside.2
              (beside_kept _) (aside_through _) eq_refl
              dumper_facts.freshSink_named)
    as (evs & d' & o' & devs & Hs & Hv & Hsub & Hnone).
  { vm_compute. reflexivity. }
  exists evs, d', o', devs.
  split_and!; [done|done|done|by apply Hnone..].
Defined.

(** The server that refuses to list deployments, with the sink beside
    it. *)
Lemma reliable_run_writes_every_object_witness :
  ∃ evs d' o' devs,
    objBeside.2.2 = besideStart.2 ++ evs ∧
    objBeside.2.1.2 = (d', (o', [] ++ devs)) ∧
    (∀ l rc, EvCallback l rc ∈ evs → rc = None) ∧
    received devs
    = (deliveredPages evs ≫= Items) ≫= fanout (dumper.dir freshSink).
Proof.
  destruct (@reliable_run_writes_every_object Disk Obj (memOS never) _
              _ (@cmd.beside _ _ objServer _) snd (cmd.aside toDisk)
              5 () options besideStart freshSink memfs.empty []
              objBeside.1 objBeside.2
              (beside_kept _) (aside_through _) eq_refl
              sink_more.never_reliable dumper_facts.freshSink_named)
    as (evs & d' & o' & devs & Hs & Hv & Hall).
  { vm_compute. reflexivity. }
  exists evs, d', o', devs. split; [done|]. split; [done|]. apply Hall.
  assert (evs = objBeside.2.2) as -> by (by rewrite Hs).
  let ps := eval vm_compute in (deliveredPages objBeside.2.2) in
  change (Forall (λ l, Forall (λ x, is_Some (serialized x)) (Items l)) ps).
  repeat (apply Forall_cons; split;
          [simpl; repeat (apply Forall_cons; split; [by eexists|]);
           by apply Forall_nil|]).
  by apply Forall_nil.
Defined.

(** The server that refuses to list deployments, batch size 2. *)
Lemma paged_cluster_is_dumped_whole_witness :
  ∃ evs d' o' devs,
    objRun
    = (Returned
         (multierr.Combine
            ((λ p, listError p.1 p.2) <$> refused holdings discovered)),
       ((d', (o', [] ++ devs)), [] ++ evs)) ∧
    received devs
    = (listed discovered ≫= stored holdings) ≫= fanout (dumper.dir freshSink).
Proof.
  apply (@paged_cluster_is_dumped_whole Disk Obj (memOS never) _
           discovered holdings options 5 freshSink memfs.empty [] []).
  - exact sink_more.never_reliable.
  - exact dumper_facts.freshSink_named.
  - vm_compute. discriminate.
  - exact holdings_fit.
  - exact holdings_encode.
Defined.

End on_example.

End whole_run.

(** ** More on [groupVersionFromString] *)
Module discovery_more.
Import schema metav1 unstructured discovery.

Lemma Split_parts_free s sep : Forall (λ p, free_of sep p) (Split s sep).
Proof.
  induction s as [|c s IH]; simpl.
  { by repeat constructor. }
  case_decide as Hc.
  - by constructor.
  - destruct (Split s sep) as [|p ps]; simpl.
    + repeat constructor. simpl. by rewrite bool_decide_false.
    + apply Forall_cons in IH as [Hp Hps]. constructor; [|done].
      simpl. by rewrite bool_decide_false.
Qed.

Lemma nth_free sep (parts : list string) i :
  Forall (λ p, free_of sep p) parts → free_of sep (nth i parts "").
Proof.
  intros Hall. revert i. induction Hall as [|p ps Hp _ IH]; intros [|i];
    simpl; auto.
Qed.

Lemma Split_Join s sep : Join (Split s sep) (String sep "") = s.
Proof.
  induction s as [|c s IH]; [done|]. simpl.
  case_decide as Hc.
  - subst c. destruct (Split s sep) as [|p ps] eqn:Hs.
    + by destruct (Split_not_nil s sep).
    + change (Join ("" :: p :: ps) (String sep ""))
        with ("" +:+ String sep "" +:+ Join (p :: ps) (String sep "")).
      by rewrite IH.
  - destruct (Split s sep) as [|p ps] eqn:Hs.
    + by destruct (Split_not_nil s sep).
    + destruct ps as [|q ps].
      * simpl in *. by rewrite IH.
      * change (Join (String c p :: q :: ps) (String sep ""))
          with (String c (p +:+ String sep "" +:+ Join (q :: ps) (String sep ""))).
        change (Join (p :: q :: ps) (String sep ""))
          with (p +:+ String sep "" +:+ Join (q :: ps) (String sep "")) in IH.
        by rewrite IH.
Qed.

(** X15. For every string, the group and the version that
    [groupVersionFromString] returns hold no slash, and the string is
    made of them: it is the version alone when the group is empty and
    the string holds no slash, and otherwise it starts with the group,
    a slash and the version, followed by nothing or by a slash and what
    the function drops. *)
Theorem groupVersionFromString_parts s :
  let gv := groupVersionFromString s in
  free_of "/" (Group gv) ∧ free_of "/" (Version gv) ∧
  ((Group gv = "" ∧ s = Version gv) ∨
   s = Group gv +:+ "/" +:+ Version gv ∨
   ∃ rest, s = Group gv +:+ "/" +:+ Version gv +:+ "/" +:+ rest).
Proof.
  simpl. unfold groupVersionFromString.
  pose proof (Split_parts_free s "/") as Hfree.
  pose proof (Split_Join s "/") as Hjoin.
  pose proof (Split_not_nil s "/") as Hnil.
  destruct (Split s "/") as [|p [|q ps]]; simpl in *.
  - done.
  - apply Forall_cons in Hfree as [Hp _]. split_and!; [done..|]. by left.
  - apply Forall_cons in Hfree as [Hp Hfree].
    apply Forall_cons in Hfree as [Hq _].
    split_and!; [done..|]. right.
    destruct ps as [|r ps]; [by left|]. right.
    exists (Join (r :: ps) "/"). by rewrite <- Hjoin.
Qed.

End discovery_more.

(** ** The loop of the older program *)
Module legacy_facts.
Import schema metav1 unstructured discovery discovery_spec legacy_spec.

Section program.
Context {W U : Type} `{!Cluster W U}.
Variable GetConfig : W → (error + Config) * W.
Variable errorText : error → string.
Variable dynClient : DynamicClient.
Variable dumper : Callback W U.
Variable batchSize : Z.
Variable logWriter : Writer.

Lemma listCalls_app (evs1 evs2 : list (Event U)) :
  listCalls (evs1 ++ evs2) = listCalls evs1 ++ listCalls evs2.
Proof. apply omap_app. Qed.

Lemma legacy_paginate_stuck res fuel (s : @State W U) :
  stuck dynClient batchSize res →
  (legacy.paginate errorText fuel dynClient dumper batchSize logWriter res
     "" s).1 = OutOfFuel.
Proof.
  intros Hstuck. revert s.
  induction fuel as [|fuel IH]; intros [w tr]; [done|].
  cbn [legacy.paginate fst snd].
  destruct (Hstuck w) as [err Herr].
  destruct (List dynClient res _ w) as [r w1]. simpl in Herr. subst r.
  apply IH.
Qed.

(** X16. In the loop of the older program, a list call that fails is
    followed by the same call: for a resource whose first list call
    always fails the loop does not end.  Within a bound of [n]
    iterations it is still running, having made [n] list calls, all
    with the empty cursor, and having called the callback on no page. *)
Theorem legacy_failed_list_call_is_retried res fuel (s : @State W U) :
  stuck dynClient batchSize res →
  ∃ w' evs,
    legacy.paginate errorText fuel dynClient dumper batchSize logWriter res
      "" s = (OutOfFuel, (w', s.2 ++ evs)) ∧
    listCalls evs
    = replicate fuel (res, {| Limit := batchSize; Continue := "" |}) ∧
    deliveredPages evs = [].
Proof.
  intros Hstuck. revert s.
  induction fuel as [|fuel IH]; intros [w tr].
  { exists w, []. by rewrite app_nil_r. }
  cbn [legacy.paginate fst snd].
  destruct (Hstuck w) as [err Herr].
  destruct (List dynClient res _ w) as [r w1]. simpl in Herr. subst r.
  destruct (IH (Fprintf logWriter (legacy.listFailure errorText res err)
                  (w1, tr ++ [EvList res {| Limit := batchSize;
                                            Continue := "" |} (inl err)])))
    as (w' & evs & Hrun & Hcalls & Hdel).
  rewrite Hrun. unfold Fprintf. cbn [fst snd].
  exists w', (EvList res {| Limit := batchSize; Continue := "" |} (inl err)
              :: EvLog logWriter (legacy.listFailure errorText res err)
              :: evs).
  rewrite <- !app_assoc. split_and!; [done| |done].
  cbn [replicate]. by rewrite <- Hcalls.
Qed.

Lemma legacy_rangeAPIResources_stuck fuel re rs r (s : @State W U) :
  r ∈ rs → listable r →
  stuck dynClient batchSize (resourceOf re r) →
  (legacy.rangeAPIResources errorText fuel dynClient dumper batchSize
     logWriter re rs s).1 = OutOfFuel.
Proof.
  intros Hin Hlist Hstuck. revert s.
  induction rs as [|r0 rs IH]; intros s; [by apply elem_of_nil in Hin|].
  cbn [legacy.rangeAPIResources].
  destruct (legacy.discoverResource errorText fuel dynClient dumper batchSize
              logWriter re r0 s) as [[[]|] s1] eqn:Hd; [|done].
  apply elem_of_cons in Hin as [->|Hin]; [|by apply IH].
  exfalso. unfold legacy.discoverResource in Hd.
  rewrite (proj2 (discovery_driver.Contains_spec (Verbs r0) "list") Hlist)
    in Hd.
  cbn [negb] in Hd.
  pose proof (legacy_paginate_stuck (resourceOf re r0) fuel s Hstuck) as Hrun.
  rewrite Hd in Hrun. discriminate Hrun.
Qed.

Lemma legacy_rangeLists_stuck fuel sprl x (s : @State W U) :
  x ∈ entries sprl → listable x.2 →
  stuck dynClient batchSize (resourceOf x.1 x.2) →
  (legacy.rangeLists errorText fuel dynClient dumper batchSize logWriter
     sprl s).1 = OutOfFuel.
Proof.
  intros Hin Hlist Hstuck. revert s.
  induction sprl as [|re sprl IH]; intros s; [by apply elem_of_nil in Hin|].
  cbn [legacy.rangeLists].
  pose proof (legacy_rangeAPIResources_stuck fuel re (APIResources re)
                x.2 s) as Hhere.
  destruct (legacy.rangeAPIResources errorText fuel dynClient dumper
              batchSize logWriter re (APIResources re) s)
    as [[[]|] s1]; [|done].
  change (entries (re :: sprl))
    with ((pair re <$> APIResources re) ++ entries sprl) in Hin.
  apply elem_of_app in Hin as [Hin|Hin]; [|by apply IH].
  apply list_elem_of_fmap in Hin as (r & -> & Hr).
  by specialize (Hhere Hr Hlist Hstuck).
Qed.

End program.

Section whole.
Context {W U : Type} `{!Cluster W U}.

(** X17. The older program does not return when the cluster refuses
    to list one resource type that offers the verb "list": once the
    configuration, the clients and the discovery result are there,
    [dumpObjects] is still running after any number of iterations. *)
Theorem legacy_dumpObjects_hangs_on_refused_resource
  (GetConfig : W → (error + Config) * W) (errorText : error → string)
  (dumper : Callback W U) batchSize logWriter (s : @State W U)
  conf w0 dc dynClient sprl w1 x :
  GetConfig s.1 = (inr conf, w0) →
  NewDiscoveryClientForConfig conf = inr dc →
  NewForConfig conf = inr dynClient →
  ServerPreferredResources dc w0 = (inr sprl, w1) →
  x ∈ entries sprl → listable x.2 →
  stuck dynClient batchSize (resourceOf x.1 x.2) →
  ∀ fuel,
    (legacy.dumpObjects GetConfig errorText fuel dumper batchSize logWriter
       s).1 = OutOfFuel.
Proof.
  intros Hconf Hdc Hdyn Hs Hin Hlist Hstuck fuel.
  unfold legacy.dumpObjects. rewrite Hconf, Hdc, Hdyn. cbn [fst snd].
  rewrite Hs.
  match goal with
  | |- context [legacy.rangeLists _ _ _ _ _ _ _ ?s3] =>
      pose proof (legacy_rangeLists_stuck errorText dynClient dumper
                    batchSize logWriter fuel sprl x s3 Hin Hlist Hstuck)
        as Hrun;
      destruct (legacy.rangeLists errorText fuel dynClient dumper batchSize
                  logWriter sprl s3) as [[[]|] s4]
  end; [discriminate Hrun|done].
Qed.

End whole.

Section on_example.
Import examples more_examples.
#[local] Existing Instance cluster.

Lemma deployments_stuck :
  @stuck _ nat cluster () 2 (resourceOf apps deployments).
Proof. intros w. by eexists. Qed.

(** The cluster that refuses to list deployments, five iterations. *)
Lemma legacy_failed_list_call_is_retried_witness :
  ∃ w' evs,
    @legacy.paginate _ _ cluster outermost 5 () sink 2 (io_Stream 2)
      (resourceOf apps deployments) "" start
    = (OutOfFuel, (w', start.2 ++ evs)) ∧
    listCalls evs
    = replicate 5 (resourceOf apps deployments,
                   {| Limit := 2; Continue := "" |}) ∧
    deliveredPages evs = [].
Proof.
  apply (@legacy_failed_list_call_is_retried _ _ cluster outermost () sink 2
           (io_Stream 2) (resourceOf apps deployments) 5 start).
  exact deployments_stuck.
Defined.

(** The same cluster, a hundred iterations. *)
Lemma legacy_dumpObjects_hangs_on_refused_resource_witness :
  (@legacy.dumpObjects _ _ cluster foundConfig outermost 100 sink 2
     (io_Stream 2) start).1 = OutOfFuel.
Proof.
  refine (@legacy_dumpObjects_hangs_on_refused_resource _ _ cluster
            foundConfig outermost sink 2 (io_Stream 2) start () [] () ()
            discovered [] (apps, deployments) _ _ _ _ _ _ _ 100).
  - reflexivity.
  - reflexivity.
  - reflexivity.
  - reflexivity.
  - vm_compute. do 2 right. left.
  - vm_compute. left.
  - exact deployments_stuck.
Defined.

End on_example.

End legacy_facts.

(** ** The program *)
Module cmd_facts.
Import schema metav1 unstructured discovery discovery_spec.
Import dumper_spec sink_shape callback_world.

Section program.
Context {K O U : Type} `{C : !Cluster K U} `{!dumper.OS O} `{!Object U}.
Variable GetConfig : @Config K U C * option error.
Variable DumpToWriter : Writer → Callback (@dumper.Sys O) U.
Variable iteration :
  gmap string dumper.File → list (string * dumper.File).
Variable errorText : error → string.
Variable errorDetail : error → string.

Lemma writes_none_received evs : writes evs = [] → received evs = [].
Proof.
  induction evs as [|e evs IH]; [done|].
  destruct e as [| |f b [err|]|]; simpl; try done; auto.
Qed.

Lemma cached_files_distinct (d : dumper.dirDumper) :
  cache_named d → NoDup (map_to_list (dumper.openFiles d)).*2.
Proof.
  intros Hnamed. apply (NoDup_fmap_1 dumper.name).
  assert (dumper.name <$> (map_to_list (dumper.openFiles d)).*2
          = (map_to_list (dumper.openFiles d)).*1) as ->.
  { rewrite <- list_fmap_compose. apply list_fmap_ext.
    intros i [path f] Hin. simpl. apply (Hnamed path f).
    apply elem_of_map_to_list. by eapply list_elem_of_lookup_2. }
  apply NoDup_fst_map_to_list.
Qed.

(** The run of the driver in the directory mode, from a sink that has
    opened nothing. *)
Lemma discover_into_directory fuel batchSize k (d : dumper.dirDumper)
  (o : O) tr r k' y' evs :
  cache_named d →
  dumper.openFiles d = ∅ →
  cmd.discover GetConfig errorText errorDetail fuel batchSize dumper.Dump
    (λ st, (dumper.Close (iteration (dumper.openFiles st.1)) st).2)
    snd k (d, (o, tr)) = (r, (k', y', evs)) →
  ∃ o' devs cevs d',
    y' = (o', tr ++ devs ++ cevs) ∧
    grows d d' devs ∧
    received cevs = [] ∧ created cevs = [] ∧
    match r with
    | Returned 0 =>
        closed cevs = (iteration (dumper.openFiles d')).*2 ∧
        received devs
        = (deliveredPages evs ≫= Items) ≫= fanout (dumper.dir d) ∧
        ∀ e, e ∈ evs → failed e = false
    | Returned 2 => devs = []
    | _ => cevs = []
    end.
Proof.
  intros Hnamed Hempty. unfold cmd.discover.
  destruct GetConfig as [conf [err0|]]. 
  { cbn [fst snd].
    destruct (sink_more.Close_trace (iteration (dumper.openFiles d)) d o tr)
      as (ret & o2 & cevs & HC & Hcl & Hwr & Hcr).
    unfold dumper.State, dumper.Sys in *. rewrite HC. cbn [fst snd].
    intros [= <- <- <- <-].
    exists o2, [], cevs, d. cbn [app].
    split_and!; [done|by apply dumper_facts.grows_refl
                |by apply writes_none_received|done|done]. }
  set (opts := {| BatchSize := batchSize; LogWriter := Some cmd.os_Stderr |}).
  match goal with
  | |- context [@DiscoverObjects ?W0 ?U0 ?I0 ?f0 ?c0 ?cb0 ?o0 ?s0] =>
      pose proof (@whole_run.DiscoverObjects_replay dumper.State U0
                    dumper.Dump W0 I0 snd cb0 (whole_run.beside_kept _)
                    (whole_run.aside_through _) f0 c0 o0 s0)
        as (evs1 & Htr & Hv & Hans);
      pose proof (λ s', @whole_run.returned_nil_no_failure W0 U0 I0 f0 c0
                          cb0 o0 s0 s' evs1) as Hnil;
      destruct (@DiscoverObjects W0 U0 I0 f0 c0 cb0 o0 s0)
        as [[[err|]|] [[k1 st] tr1]]
  end; cbn [fst snd] in *;
    destruct (whole_run.replay_Dump evs1 d o tr Hnamed)
      as (d' & o1 & devs & Hrep & Hg & _ & Heq);
    intros [= <- <- <- <-].
  - exists o1, devs, [], d'. rewrite app_nil_r, Hv, Hrep.
    split_and!; done.
  - rewrite Hv, Hrep. cbn [fst snd].
    destruct (sink_more.Close_trace (iteration (dumper.openFiles d')) d' o1
                (tr ++ devs)) as (ret & o2 & cevs & HC & Hcl & Hwr & Hcr).
    unfold dumper.State, dumper.Sys in *. rewrite HC. cbn [fst snd].
    exists o2, devs, cevs, d'. rewrite <- app_assoc.
    split_and!; [done|done|by apply writes_none_received|done|done| |].
    + rewrite Htr. cbn [app].
      apply Heq; [done|]. intros l rc Hin.
      assert (failed (EvCallback l rc) = false) as Hf; [|by destruct rc].
      by apply (Hnil _ eq_refl Htr).
    + rewrite Htr. cbn [app]. intros e He.
      by apply (Hnil _ eq_refl Htr).
  - exists o1, devs, [], d'. rewrite app_nil_r, Hv, Hrep.
    split_and!; done.
Qed.

(** X18. Exit status 0 in the directory mode.  When [main] is given a
    directory and ends with status 0, no list call and no callback of
    the run has failed, the files hold the whole fan-out of every
    object of every page delivered, in order, and every file that the
    run created has been closed, once, by the deferred [Close]. *)
Theorem main_status_0_means_written_and_closed fuel dir batchSize k
  (o : O) tr k' o' tr' evs :
  dir ≠ "" →
  (∀ m, iteration m ≡ₚ map_to_list m) →
  cmd.main GetConfig DumpToWriter iteration errorText errorDetail fuel dir
    batchSize k (o, tr) = (Returned 0, (k', (o', tr'), evs)) →
  ∃ mevs,
    tr' = tr ++ mevs ∧
    (∀ e, e ∈ evs → failed e = false) ∧
    received mevs = (deliveredPages evs ≫= Items) ≫= fanout dir ∧
    closed mevs ≡ₚ (created mevs).*2 ∧
    NoDup (closed mevs).
Proof.
  intros Hdir Hiter. unfold cmd.main. rewrite decide_False by done.
  unfold cmd.NewDirDumper, cmd.Dump, cmd.Close.
  unfold dumper.newDirDumper, dumper.os_MkdirAll. cbn [fst snd].
  destruct (dumper.MkdirAll dir o) as [[err|] o1]; [by intros [=]|].
  cbn [fst snd].
  destruct (dumper.MkdirAll dir o1) as [[err|] o2]; [by intros [=]|].
  intros Hrun.
  apply discover_into_directory in Hrun
      as (o3 & devs & cevs & d' & [= -> ->] & Hg & Hrc & Hcc & Hcl & Hrec
          & Hfail); [|intros path f Hl; cbn [dumper.openFiles] in Hl;
      by rewrite lookup_empty in Hl|done].
  destruct Hg as (_ & Hnamed' & _ & Hperm & Hclosed).
  cbn [dumper.openFiles] in Hperm. rewrite map_to_list_empty in Hperm.
  cbn [app] in Hperm.
  exists ([dumper.EvMkdirAll dir None; dumper.EvMkdirAll dir None]
          ++ devs ++ cevs).
  rewrite <- !app_assoc. split; [done|]. split; [done|].
  unfold received, created, closed in *.
  rewrite !omap_app, Hrc, Hcc, Hclosed, Hcl, !app_nil_r. cbn [omap list_omap app].
  split_and!.
  - exact Hrec.
  - by rewrite Hiter, Hperm.
  - rewrite Hiter. by apply cached_files_distinct.
Qed.

(** X19. Exit status 1 in the directory mode.  [os.Exit] does not run
    the deferred [Close]: when [main] is given a directory and ends
    with status 1, it has closed no file, whatever it has created, and
    the last line of its log is the failure it ends on. *)
Theorem main_status_1_closes_nothing fuel dir batchSize k (o : O) tr
  k' o' tr' evs :
  dir ≠ "" →
  cmd.main GetConfig DumpToWriter iteration errorText errorDetail fuel dir
    batchSize k (o, tr) = (Returned 1, (k', (o', tr'), evs)) →
  ∃ mevs text,
    tr' = tr ++ mevs ∧
    closed mevs = [] ∧
    last evs = Some (EvLog cmd.os_Stderr text).
Proof.
  intros Hdir. unfold cmd.main. rewrite decide_False by done.
  unfold cmd.NewDirDumper, cmd.Dump, cmd.Close.
  unfold dumper.newDirDumper, dumper.os_MkdirAll. cbn [fst snd].
  destruct (dumper.MkdirAll dir o) as [[err|] o1].
  { intros [= <- <- <- <-]. by eexists [_], _. }
  cbn [fst snd].
  destruct (dumper.MkdirAll dir o1) as [[err|] o2].
  { intros [= <- <- <- <-]. eexists [_; _], _. by rewrite <- app_assoc. }
  intros Hrun. pose proof Hrun as Hrun'.
  apply discover_into_directory in Hrun
      as (o3 & devs & cevs & d' & [= -> ->] & Hg & _ & _ & ->);
    [|intros path f Hl; cbn [dumper.openFiles] in Hl;
      by rewrite lookup_empty in Hl|done].
  destruct Hg as (_ & _ & _ & _ & Hclosed).
  assert (∃ text, last evs = Some (EvLog cmd.os_Stderr text)) as [text Hlast].
  { clear -Hrun'. unfold cmd.discover in Hrun'.
    destruct GetConfig as [conf [err0|]]; [by simplify_eq|].
    destruct (@DiscoverObjects _ _ _ _ _ _ _ _)
      as [[[err|]|] [[k1 st] tr1]]; simplify_eq.
    eexists. apply last_snoc. }
  exists ([dumper.EvMkdirAll dir None; dumper.EvMkdirAll dir None] ++ devs),
    text.
  rewrite app_nil_r, <- !app_assoc. split; [done|]. split; [|done].
  unfold closed in *. by rewrite omap_app, Hclosed.
Qed.

End program.

Section on_example.
Import memfs examples more_examples.

(** The server that refuses nothing: status 0. *)
Lemma main_status_0_means_written_and_closed_witness :
  ∃ mevs,
    calmMain.2.1.2.2 = freshDisk.2 ++ mevs ∧
    (∀ e, e ∈ calmMain.2.2 → failed e = false) ∧
    received mevs
    = (deliveredPages calmMain.2.2 ≫= Items) ≫= fanout "out" ∧
    closed mevs ≡ₚ (created mevs).*2 ∧
    NoDup (closed mevs).
Proof.
  apply (@main_status_0_means_written_and_closed unit Disk Obj calmServer
           (memOS never) _ ((), None) quiet map_to_list outermost outermost
           5 "out" 2 () memfs.empty [] calmMain.2.1.1 calmMain.2.1.2.1
           calmMain.2.1.2.2 calmMain.2.2).
  - discriminate.
  - reflexivity.
  - vm_compute. reflexivity.
Defined.

(** The server that refuses to list deployments: status 1, with files
    created and none closed. *)
Lemma main_status_1_closes_nothing_witness :
  created objMain.2.1.2.2 ≠ [] ∧
  ∃ mevs text,
    objMain.2.1.2.2 = freshDisk.2 ++ mevs ∧
    closed mevs = [] ∧
    last objMain.2.2 = Some (EvLog cmd.os_Stderr text).
Proof.
  split; [vm_compute; discriminate|].
  apply (@main_status_1_closes_nothing unit Disk Obj objServer
           (memOS never) _ ((), None) quiet map_to_list outermost outermost
           5 "out" 2 () memfs.empty [] objMain.2.1.1 objMain.2.1.2.1
           objMain.2.1.2.2 objMain.2.2).
  - discriminate.
  - vm_compute. reflexivity.
Defined.

End on_example.

End cmd_facts.
